(** * LyricsIQ: the blank-selection and blank-rendering pipeline

    A shallow embedding of [scripts/generate-quiz.js] (whose three functions
    are duplicated verbatim in [scripts/create-quiz.js]) and of
    [src/utils/textNormalize.js].

    JavaScript strings are sequences of UTF-16 code units: a string is a
    [list Z] of code units.  Numbers that the code uses as indices, counts
    and offsets are integers in [Z]. *)

From Stdlib Require Import Ascii String.
From Stdlib Require Import ZArith List Bool Lia ZifyBool DecimalNat.
From Stdlib Require Import Sorting.Sorted Sorting.Permutation.
Import ListNotations.

Open Scope Z_scope.

(** ** Strings *)

Definition char := Z.
Definition jsstring := list char.

(** An ASCII literal read as a JavaScript string. *)
Fixpoint str (s : string) : jsstring :=
  match s with
  | EmptyString => []
  | String a r => Z.of_N (N_of_ascii a) :: str r
  end.

Fixpoint jsstring_eqb (a b : jsstring) : bool :=
  match a, b with
  | [], [] => true
  | x :: a', y :: b' => (x =? y) && jsstring_eqb a' b'
  | _, _ => false
  end.

(** [String.prototype.trim] strips WhiteSpace and LineTerminator code
    units (ECMA-262, 12.2 and 12.3). *)
Definition isWhiteSpace (c : char) : bool :=
  (c =? 0x0009) || (c =? 0x000A) || (c =? 0x000B) || (c =? 0x000C) ||
  (c =? 0x000D) || (c =? 0x0020) || (c =? 0x00A0) || (c =? 0x1680) ||
  ((0x2000 <=? c) && (c <=? 0x200A)) ||
  (c =? 0x2028) || (c =? 0x2029) || (c =? 0x202F) || (c =? 0x205F) ||
  (c =? 0x3000) || (c =? 0xFEFF).

Fixpoint trimStart (s : jsstring) : jsstring :=
  match s with
  | [] => []
  | c :: r => if isWhiteSpace c then trimStart r else s
  end.

Definition trimEnd (s : jsstring) : jsstring := rev (trimStart (rev s)).

Definition trim (s : jsstring) : jsstring := trimEnd (trimStart s).

(** [String.prototype.toLowerCase] on strings of code units below U+0100,
    where it works one code unit at a time: [A-Z], and U+00C0..U+00DE
    without the multiplication sign U+00D7.  The builtin has case tables
    for all of Unicode, a rule that looks at the neighbours of a capital
    sigma and a code unit, U+0130, that becomes two; none of that is in
    this table, which leaves the code units from U+0100 on as they are.
    It is used on token words, which are made of [[A-Za-z0-9_'-]]; the
    normalizer over all strings takes the builtin as a parameter, see
    [normalizeTextWith]. *)
Definition toLowerCaseUnit (c : char) : char :=
  if (0x41 <=? c) && (c <=? 0x5A) then c + 32
  else if (0xC0 <=? c) && (c <=? 0xDE) && negb (c =? 0xD7) then c + 32
  else c.

Definition toLowerCase (s : jsstring) : jsstring := map toLowerCaseUnit s.

(** [s.substring(a, b)] and [s.substring(a)] for integer arguments: both
    ends are clamped to [0, s.length] and swapped when out of order. *)
Definition clamp (n : Z) (s : jsstring) : nat :=
  Z.to_nat (Z.min (Z.max n 0) (Z.of_nat (length s))).

Definition substring (s : jsstring) (a b : Z) : jsstring :=
  let i := clamp a s in
  let j := clamp b s in
  firstn (Nat.max i j - Nat.min i j) (skipn (Nat.min i j) s).

Definition substringFrom (s : jsstring) (a : Z) : jsstring :=
  skipn (clamp a s) s.

(** [s.split('\n')]: never empty, [''.split('\n')] is [['']]. *)
Definition LF : char := 10.

Fixpoint split (s : jsstring) : list jsstring :=
  match s with
  | [] => [[]]
  | c :: r =>
      if c =? LF then [] :: split r
      else match split r with
           | [] => [[c]]
           | l :: ls => (c :: l) :: ls
           end
  end.

(** [lines.join('\n')]. *)
Fixpoint join (ls : list jsstring) : jsstring :=
  match ls with
  | [] => []
  | [l] => l
  | l :: rest => l ++ LF :: join rest
  end.

(** ** Answer normalizer and comparator (src/utils/textNormalize.js) *)

(** The two [replace] calls: U+2019, U+02BC and U+00B4 become the
    apostrophe, then U+2013, U+2014 and U+2212 become the hyphen. *)
Definition APOSTROPHE : char := 0x27.
Definition HYPHEN : char := 0x2D.

Definition replaceApostrophes (c : char) : char :=
  if (c =? 0x2019) || (c =? 0x02BC) || (c =? 0x00B4) then APOSTROPHE else c.

Definition replaceDashes (c : char) : char :=
  if (c =? 0x2013) || (c =? 0x2014) || (c =? 0x2212) then HYPHEN else c.

(** [normalizeText(text)] on a string or on a missing ([undefined])
    argument, [None]: [!text] holds of [undefined] and of the empty
    string. *)
Definition normalizeText (text : option jsstring) : jsstring :=
  match text with
  | None => []
  | Some [] => []
  | Some s =>
      map replaceDashes (map replaceApostrophes (toLowerCase (trim s)))
  end.

(** [compareAnswers(userAnswer, correctAnswer)]: [===] on two strings. *)
Definition compareAnswers (userAnswer correctAnswer : option jsstring) : bool :=
  jsstring_eqb (normalizeText userAnswer) (normalizeText correctAnswer).

(** The same two functions over all strings: [lower] stands for the
    builtin [String.prototype.toLowerCase]. *)
Section LowerCasing.
Variable lower : jsstring -> jsstring.

Definition normalizeTextWith (text : option jsstring) : jsstring :=
  match text with
  | None => []
  | Some [] => []
  | Some s => map replaceDashes (map replaceApostrophes (lower (trim s)))
  end.

Definition compareAnswersWith (userAnswer correctAnswer : option jsstring)
    : bool :=
  jsstring_eqb (normalizeTextWith userAnswer)
               (normalizeTextWith correctAnswer).
End LowerCasing.

(** The substitution table in the words of the specification: the three
    apostrophe-like code points go to ['], the three dash-like ones to [-],
    every other code unit stays. *)
Definition canonical (c : char) : char :=
  if existsb (Z.eqb c) [0x2019; 0x02BC; 0x00B4] then APOSTROPHE
  else if existsb (Z.eqb c) [0x2013; 0x2014; 0x2212] then HYPHEN
  else c.

(** ** Tokenizer ([extractWords]) *)

Module Token.
Record t := mk
  { word : jsstring; lineIndex : Z; position : Z; length : Z }.
End Token.

(** [\w] without the [u] and [i] flags: [[A-Za-z0-9_]]. *)
Definition isWordChar (c : char) : bool :=
  ((0x30 <=? c) && (c <=? 0x39)) || ((0x41 <=? c) && (c <=? 0x5A)) ||
  (c =? 0x5F) || ((0x61 <=? c) && (c <=? 0x7A)).

(** The class [[\w'-]]. *)
Definition inWordClass (c : char) : bool :=
  isWordChar c || (c =? APOSTROPHE) || (c =? HYPHEN).

Definition nextIsWord (s : jsstring) : bool :=
  match s with
  | [] => false
  | c :: _ => isWordChar c
  end.

(** [\b] between the code unit before the cursor ([prevWord] tells
    whether it is a word character; [false] at the start of the line) and
    what follows the cursor. *)
Definition wordBoundary (prevWord : bool) (rest : jsstring) : bool :=
  xorb prevWord (nextIsWord rest).

(** [[\w'-]+\b] at the cursor: the quantifier is greedy and backtracks, so
    the match is the longest non-empty run of class characters that ends
    on a word boundary. *)
Fixpoint matchRun (s : jsstring) : option jsstring :=
  match s with
  | [] => None
  | c :: r =>
      if inWordClass c then
        match matchRun r with
        | Some m => Some (c :: m)
        | None => if wordBoundary (isWordChar c) r then Some [c] else None
        end
      else None
  end.

(** One match of [line.matchAll(/\b[\w'-]+\b/g)]: [match[0]] and
    [match.index]. *)
Record Match := { matched : jsstring; index : Z }.

(** The scan of [matchAll]: at each cursor position try the pattern, on a
    match resume right after it ([skip] counts the code units of the match
    still to step over), otherwise advance by one. *)
Fixpoint matchAllFrom (prevWord : bool) (pos : Z) (skip : nat)
    (s : jsstring) : list Match :=
  match s with
  | [] => []
  | c :: r =>
      match skip with
      | S k => matchAllFrom (isWordChar c) (pos + 1) k r
      | O =>
          if wordBoundary prevWord s then
            match matchRun s with
            | Some w =>
                {| matched := w; index := pos |}
                  :: matchAllFrom (isWordChar c) (pos + 1) (length w - 1) r
            | None => matchAllFrom (isWordChar c) (pos + 1) 0 r
            end
          else matchAllFrom (isWordChar c) (pos + 1) 0 r
      end
  end.

Definition matchAll (line : jsstring) : list Match :=
  matchAllFrom false 0 0 line.

(** [.] in a pattern without the [s] flag: anything but a line
    terminator. *)
Definition isLineTerminator (c : char) : bool :=
  (c =? 0x000A) || (c =? 0x000D) || (c =? 0x2028) || (c =? 0x2029).

(** [line.match(/^\[.*\]$/)]. *)
Definition isSectionMarker (line : jsstring) : bool :=
  match line with
  | [] => false
  | c :: r =>
      (c =? 0x5B) &&
      match rev r with
      | [] => false
      | d :: m => (d =? 0x5D) && forallb (fun x => negb (isLineTerminator x)) m
      end
  end.

Definition isEmpty (s : jsstring) : bool :=
  match s with
  | [] => true
  | _ => false
  end.

Definition commonWords : list jsstring :=
  map str ["the"; "and"; "but"; "for"; "with"; "from"; "that"; "this";
           "have"; "has"; "was"; "were"]%string.

Definition includes (l : list jsstring) (s : jsstring) : bool :=
  existsb (jsstring_eqb s) l.

Definition strlen (s : jsstring) : Z := Z.of_nat (length s).

(** The inner [forEach]: [true] when the match is pushed. *)
Definition keepMatch (m : Match) : bool :=
  negb (strlen (matched m) <=? 2) &&
  negb (includes commonWords (toLowerCase (matched m))).

Definition tokenOf (lineIndex : Z) (m : Match) : Token.t :=
  {| Token.word := matched m; Token.lineIndex := lineIndex;
     Token.position := index m; Token.length := strlen (matched m) |}.

(** The body of the outer [forEach] for one line. *)
Definition skipLine (line : jsstring) : bool :=
  isEmpty (trim line) || isSectionMarker line.

Definition lineWords (line : jsstring) (lineIndex : Z) : list Token.t :=
  if skipLine line then []
  else map (tokenOf lineIndex) (filter keepMatch (matchAll line)).

Fixpoint extractLines (lines : list jsstring) (lineIndex : Z) : list Token.t :=
  match lines with
  | [] => []
  | line :: rest => lineWords line lineIndex ++ extractLines rest (lineIndex + 1)
  end.

Definition extractWords (lyrics : jsstring) : list Token.t :=
  extractLines (split lyrics) 0.

(** ** Blank selector ([selectBlanks]) *)

(** [Array.prototype.sort(cmp)]: the sort is stable; [cmp a b <= 0] keeps
    [a] before [b]. *)
Section Sort.
Context {A : Type}.
Variable cmp : A -> A -> Z.

Fixpoint insert (x : A) (l : list A) : list A :=
  match l with
  | [] => [x]
  | y :: r => if cmp x y <=? 0 then x :: l else y :: insert x r
  end.

Fixpoint sort (l : list A) : list A :=
  match l with
  | [] => []
  | x :: r => insert x (sort r)
  end.
End Sort.

(** [arr.slice(0, count)] for an integer [count]: a negative end counts
    from the end of the array. *)
Definition slice0 {A : Type} (l : list A) (count : Z) : list A :=
  let len := Z.of_nat (length l) in
  let final := if count <? 0 then Z.max (len + count) 0 else Z.min count len in
  firstn (Z.to_nat final) l.

(** The [frequency] object.  It is created as [{}], so besides the keys
    the loop writes it answers for the members every plain object inherits.
    The keys are lower-cased, and of the inherited names only [constructor]
    and [__proto__] are their own lower-case form.  What the object holds
    under these two is never a number: [(frequency.constructor || 0) + 1]
    is the source text of the function [Object] followed by [1], a string
    that later rounds extend by one more [1]; [frequency.__proto__] answers
    with the prototype object, and the assignment of a string to it is
    ignored.  [lookup] answers [None] for [undefined]. *)
Inductive Frequency := Count (n : Z) | NotANumber.

Definition FrequencyTable := list (jsstring * Frequency).

Definition emptyObject : FrequencyTable :=
  [(str "constructor", NotANumber); (str "__proto__", NotANumber)].

Fixpoint lookup (f : FrequencyTable) (key : jsstring) : option Frequency :=
  match f with
  | [] => None
  | (k, v) :: r => if jsstring_eqb k key then Some v else lookup r key
  end.

(** [(frequency[lower] || 0) + 1]: one more for a number, and for the
    values that are no numbers a value that is no number either. *)
Definition plusOne (v : Frequency) : Frequency :=
  match v with
  | Count n => Count (n + 1)
  | NotANumber => NotANumber
  end.

(** [frequency[lower] = (frequency[lower] || 0) + 1]. *)
Fixpoint bump (f : FrequencyTable) (key : jsstring) : FrequencyTable :=
  match f with
  | [] => [(key, Count 1)]
  | (k, v) :: r =>
      if jsstring_eqb k key then (k, plusOne v) :: r else (k, v) :: bump r key
  end.

Definition frequencyOf (words : list Token.t) : FrequencyTable :=
  fold_left (fun f w => bump f (toLowerCase (Token.word w))) words emptyObject.

(** [frequency[w.word.toLowerCase()]] as an operand of the subtraction:
    [None] is [NaN]. *)
Definition frequencyAt (f : FrequencyTable) (w : Token.t) : option Z :=
  match lookup f (toLowerCase (Token.word w)) with
  | Some (Count n) => Some n
  | Some NotANumber => None
  | None => None
  end.

Definition byLength (a b : Token.t) : Z := Token.length b - Token.length a.

(** The comparator of the [frequent] strategy; [sort] reads a [NaN] as
    [+0]. *)
Definition byFrequency (f : FrequencyTable) (a b : Token.t) : Z :=
  match frequencyAt f b, frequencyAt f a with
  | Some x, Some y => x - y
  | _, _ => 0
  end.

(** Whether every token has a number in the table.  If not, the comparator
    calls a token without one equal to every other token, while it tells
    the other tokens apart: it is no consistent ordering, and the order
    [sort] leaves the array in is then up to the engine. *)
Definition allCounted (f : FrequencyTable) (words : list Token.t) : bool :=
  forallb (fun w => match frequencyAt f w with Some _ => true | None => false end)
    words.

Definition byLinePosition (a b : Token.t) : Z :=
  if negb (Token.lineIndex a =? Token.lineIndex b)
  then Token.lineIndex a - Token.lineIndex b
  else Token.position a - Token.position b.

Section Selector.
(** [[...words].sort(() => Math.random() - 0.5)]: the comparator ignores
    its arguments, so the order the engine leaves the copy in is a
    function of the random draws alone; [randomOrder] is that order.  It
    also stands for the order the engine leaves the copy in when the
    comparator of the [frequent] strategy is no consistent ordering. *)
Variable randomOrder : list Token.t -> list Token.t.

(** The [switch]: what each strategy leaves in [selectedWords]. *)
Definition selectedWords (words : list Token.t) (count : Z)
    (strategy : jsstring) : list Token.t :=
  if jsstring_eqb strategy (str "important") then
    slice0 (sort byLength words) count
  else if jsstring_eqb strategy (str "frequent") then
    let frequency := frequencyOf words in
    if allCounted frequency words then
      slice0 (sort (byFrequency frequency) words) count
    else
      slice0 (randomOrder words) count
  else
    slice0 (randomOrder words) count.

Definition selectBlanks (words : list Token.t) (count : Z)
    (strategy : jsstring) : list Token.t :=
  match words with
  | [] => []
  | _ => sort byLinePosition (selectedWords words count strategy)
  end.
End Selector.

(** ** Blank encoder ([generateQuizLyrics]) *)

(** A token with the [blankId] attached by the grouping loop. *)
Record Blank := { token : Token.t; blankId : nat }.

Fixpoint digits (d : Decimal.uint) : jsstring :=
  match d with
  | Decimal.Nil => []
  | Decimal.D0 r => 0x30 :: digits r
  | Decimal.D1 r => 0x31 :: digits r
  | Decimal.D2 r => 0x32 :: digits r
  | Decimal.D3 r => 0x33 :: digits r
  | Decimal.D4 r => 0x34 :: digits r
  | Decimal.D5 r => 0x35 :: digits r
  | Decimal.D6 r => 0x36 :: digits r
  | Decimal.D7 r => 0x37 :: digits r
  | Decimal.D8 r => 0x38 :: digits r
  | Decimal.D9 r => 0x39 :: digits r
  end.

(** The template literal turns the index into its decimal digits. *)
Definition decimal (n : nat) : jsstring := digits (Nat.to_uint n).

Definition UNDERSCORES : jsstring := str "_____".

Definition placeholder (id : nat) : jsstring :=
  UNDERSCORES ++ decimal id ++ UNDERSCORES.

(** [blanks.forEach((blank, index) => ...)]: every blank with its index. *)
Fixpoint numbered (blanks : list Token.t) (index : nat) : list Blank :=
  match blanks with
  | [] => []
  | b :: r => {| token := b; blankId := index |} :: numbered r (S index)
  end.

(** [blanksMap[lineIndex]]: the blanks of one line, in the order of the
    list; no entry when there is none. *)
Definition blanksMap (blanks : list Token.t) (lineIndex : Z) : list Blank :=
  filter (fun b => Token.lineIndex (token b) =? lineIndex) (numbered blanks 0).

Definition byPositionDesc (a b : Blank) : Z :=
  Token.position (token b) - Token.position (token a).

(** The body of [lineBlanks.forEach]. *)
Definition replaceBlank (modifiedLine : jsstring) (blank : Blank) : jsstring :=
  let before := substring modifiedLine 0 (Token.position (token blank)) in
  let after :=
    substringFrom modifiedLine
      (Token.position (token blank) + strlen (Token.word (token blank))) in
  before ++ placeholder (blankId blank) ++ after.

(** The callback of [lines.map]. *)
Definition quizLine (blanks : list Token.t) (line : jsstring)
    (lineIndex : Z) : jsstring :=
  match blanksMap blanks lineIndex with
  | [] => line
  | entry =>
      let lineBlanks := sort byPositionDesc entry in
      fold_left replaceBlank lineBlanks line
  end.

Fixpoint quizLines (blanks : list Token.t) (lines : list jsstring)
    (lineIndex : Z) : list jsstring :=
  match lines with
  | [] => []
  | line :: rest =>
      quizLine blanks line lineIndex :: quizLines blanks rest (lineIndex + 1)
  end.

Definition generateQuizLyrics (lyrics : jsstring) (blanks : list Token.t)
    : jsstring :=
  join (quizLines blanks (split lyrics) 0).

(** ** Calls with arguments of any type

    The arguments a caller can pass where the code expects a string, and
    the two ways a call ends. *)
Inductive JsValue :=
| VUndefined
| VNull
| VBoolean (b : bool)
| VNumber (n : Z)
| VString (s : jsstring).

Inductive JsError :=
| TypeError.

Inductive Outcome (A : Type) :=
| Returned (a : A)
| Raised (e : JsError).
Arguments Returned {A} a.
Arguments Raised {A} e.

(** [lyrics.split('\n')] is the first thing [extractWords] and
    [generateQuizLyrics] do with their argument: a value that is not a
    string has no [split] method and the call raises. *)
Definition extractWordsCall (lyrics : JsValue) : Outcome (list Token.t) :=
  match lyrics with
  | VString s => Returned (extractWords s)
  | _ => Raised TypeError
  end.

Definition generateQuizLyricsCall (lyrics : JsValue) (blanks : list Token.t)
    : Outcome jsstring :=
  match lyrics with
  | VString s => Returned (generateQuizLyrics s blanks)
  | _ => Raised TypeError
  end.

(** [selectBlanks] has no failing path: [slice] accepts any integer. *)
Definition selectBlanksCall (randomOrder : list Token.t -> list Token.t)
    (words : list Token.t) (count : Z) (strategy : jsstring)
    : Outcome (list Token.t) :=
  Returned (selectBlanks randomOrder words count strategy).

Definition isString (v : JsValue) : bool :=
  match v with
  | VString _ => true
  | _ => false
  end.

(** ** The quiz record and its use in the application *)

Module Quiz.

(** One entry of [quizData.blanks]. *)
Record Item := {
  id : Z;
  answer : jsstring;
  lineIndex : Z;
  position : Z
}.

(** The part of [quizData] that the quiz view reads. *)
Record t := {
  lyrics : jsstring;
  blanks : list Item
}.

End Quiz.

(** [selectedBlanks.map((blank, index) => ({ id: index, answer: blank.word,
    lineIndex: blank.lineIndex, position: blank.position }))]. *)
Fixpoint answerKeyFrom (selectedBlanks : list Token.t) (index : Z)
    : list Quiz.Item :=
  match selectedBlanks with
  | [] => []
  | blank :: r =>
      {| Quiz.id := index; Quiz.answer := Token.word blank;
         Quiz.lineIndex := Token.lineIndex blank;
         Quiz.position := Token.position blank |}
        :: answerKeyFrom r (index + 1)
  end.

Definition answerKey (selectedBlanks : list Token.t) : list Quiz.Item :=
  answerKeyFrom selectedBlanks 0.

(** [main] from the clamp of [blankCount] on: [blankCount] is the number
    the options or the difficulty preset gave. *)
Definition buildQuiz (randomOrder : list Token.t -> list Token.t)
    (lyrics : jsstring) (blankCount : Z) (strategy : jsstring) : Quiz.t :=
  let allWords := extractWords lyrics in
  let blankCount := Z.min blankCount (Z.of_nat (length allWords)) in
  let selectedBlanks := selectBlanks randomOrder allWords blankCount strategy in
  let quizLyrics := generateQuizLyrics lyrics selectedBlanks in
  {| Quiz.lyrics := quizLyrics; Quiz.blanks := answerKey selectedBlanks |}.

(** The [answers] object of the application: blank id to typed text. *)
Definition Answers := Z -> option jsstring.

(** [x || ''] on a string or a missing value. *)
Definition orEmpty (x : option jsstring) : jsstring :=
  match x with
  | Some s => s
  | None => []
  end.

(** [handleQuizSubmit]: the blanks whose answer compares equal. *)
Definition correctAnswers (blanks : list Quiz.Item) (answers : Answers)
    : list Quiz.Item :=
  filter
    (fun blank =>
       let userAnswer := orEmpty (answers (Quiz.id blank)) in
       let correctAnswer := Quiz.answer blank in
       compareAnswers (Some userAnswer) (Some correctAnswer))
    blanks.

(** The results view: [userAnswers[blankId]?.trim() || '(blank)']. *)
Definition shownAnswer (userAnswers : Answers) (blankId : Z) : jsstring :=
  match userAnswers blankId with
  | None => str "(blank)"
  | Some s => match trim s with
              | [] => str "(blank)"
              | t => t
              end
  end.

(** [userAnswer.toLowerCase() === blank.answer.toLowerCase()]. *)
Definition isCorrect (userAnswers : Answers) (blank : Quiz.Item) : bool :=
  jsstring_eqb (toLowerCase (shownAnswer userAnswers (Quiz.id blank)))
               (toLowerCase (Quiz.answer blank)).

(** *** Reading the placeholders back (the quiz view and the results view) *)

Definition isDigit (c : char) : bool := (0x30 <=? c) && (c <=? 0x39).

Fixpoint stripPrefix (p s : jsstring) : option jsstring :=
  match p, s with
  | [], _ => Some s
  | x :: p', y :: s' => if x =? y then stripPrefix p' s' else None
  | _ :: _, [] => None
  end.

(** The longest run of digits at the head, and what follows it. *)
Fixpoint spanDigits (s : jsstring) : jsstring * jsstring :=
  match s with
  | [] => ([], [])
  | c :: r =>
      if isDigit c then let (d, t) := spanDigits r in (c :: d, t)
      else ([], s)
  end.

(** [/_____(\d+)_____/] at the cursor: the captured digits and the length
    of the match. *)
Definition matchBlank (s : jsstring) : option (jsstring * nat) :=
  match stripPrefix UNDERSCORES s with
  | None => None
  | Some r =>
      match spanDigits r with
      | ([], _) => None
      | (d, t) =>
          match stripPrefix UNDERSCORES t with
          | Some _ => Some (d, (10 + length d)%nat)
          | None => None
          end
      end
  end.

(** One result of [blankPattern.exec(line)]: [match.index], [match[1]] and
    [match[0].length]. *)
Record BlankMatch := { foundAt : Z; capture : jsstring; matchLength : Z }.

(** The successive results of [exec] with the [g] flag. *)
Fixpoint execFrom (pos : Z) (skip : nat) (s : jsstring) : list BlankMatch :=
  match s with
  | [] => []
  | _ :: r =>
      match skip with
      | S k => execFrom (pos + 1) k r
      | O =>
          match matchBlank s with
          | Some (d, n) =>
              {| foundAt := pos; capture := d; matchLength := Z.of_nat n |}
                :: execFrom (pos + 1) (n - 1) r
          | None => execFrom (pos + 1) 0 r
          end
      end
  end.

Definition execAll (line : jsstring) : list BlankMatch := execFrom 0 0 line.

(** [parseInt] of a string of decimal digits: the integer the digits
    spell.  The builtin answers with a double, which is that integer as
    long as it is below 2^53 and the nearest double beyond; the ids of a
    quiz are array indices, far below. *)
Definition parseInt (digitString : jsstring) : Z :=
  fold_left (fun acc c => 10 * acc + (c - 0x30)) digitString 0.

(** [quiz.blanks.find((b) => b.id === blankId)]. *)
Fixpoint findBlank (blanks : list Quiz.Item) (blankId : Z)
    : option Quiz.Item :=
  match blanks with
  | [] => None
  | b :: r => if Quiz.id b =? blankId then Some b else findBlank r blankId
  end.

(** What the quiz view puts in a line: a span of text with the two numbers
    of its key, or an input field with its value and size. *)
Inductive Part :=
| TextSpan (lineIndex lastIndex : Z) (text : jsstring)
| InputField (blankId : Z) (value : jsstring) (size : Z).

(** [Math.max(currentAnswer.length || 4, blank.answer.length, 4)]. *)
Definition inputSize (currentAnswer : jsstring) (blank : Quiz.Item) : Z :=
  Z.max (Z.max (if strlen currentAnswer =? 0 then 4 else strlen currentAnswer)
               (strlen (Quiz.answer blank)))
        4.

(** The body of the [while] loop, from the list of matches: [parts] is
    kept in reverse.  A placeholder whose id is in no blank makes
    [blank.answer] raise. *)
Fixpoint renderMatches (blanks : list Quiz.Item) (answers : Answers)
    (line : jsstring) (lineIndex : Z) (found : list BlankMatch)
    (lastIndex : Z) (parts : list Part) : Outcome (Z * list Part) :=
  match found with
  | [] => Returned (lastIndex, parts)
  | m :: rest =>
      let blankId := parseInt (capture m) in
      match findBlank blanks blankId with
      | None => Raised TypeError
      | Some blank =>
          let parts :=
            if lastIndex <? foundAt m
            then TextSpan lineIndex lastIndex
                   (substring line lastIndex (foundAt m)) :: parts
            else parts in
          let currentAnswer := orEmpty (answers blankId) in
          let parts :=
            InputField blankId currentAnswer (inputSize currentAnswer blank)
              :: parts in
          renderMatches blanks answers line lineIndex rest
            (foundAt m + matchLength m) parts
      end
  end.

(** A rendered line: the line itself (a no-break space when it is empty)
    or its parts. *)
Inductive RenderedLine :=
| PlainLine (text : jsstring)
| PartsLine (parts : list Part).

Definition NBSP : char := 0x00A0.

(** The callback of [lines.map] in [renderLyrics]. *)
Definition renderLine (blanks : list Quiz.Item) (answers : Answers)
    (line : jsstring) (lineIndex : Z) : Outcome RenderedLine :=
  match renderMatches blanks answers line lineIndex (execAll line) 0 [] with
  | Raised e => Raised e
  | Returned (lastIndex, parts) =>
      let parts :=
        if lastIndex <? strlen line
        then TextSpan lineIndex lastIndex (substringFrom line lastIndex) :: parts
        else parts in
      match parts with
      | [] => Returned (PlainLine (if isEmpty line then [NBSP] else line))
      | _ => Returned (PartsLine (rev parts))
      end
  end.

Fixpoint renderLines (blanks : list Quiz.Item) (answers : Answers)
    (lines : list jsstring) (lineIndex : Z) : Outcome (list RenderedLine) :=
  match lines with
  | [] => Returned []
  | line :: rest =>
      match renderLine blanks answers line lineIndex with
      | Raised e => Raised e
      | Returned l =>
          match renderLines blanks answers rest (lineIndex + 1) with
          | Raised e => Raised e
          | Returned ls => Returned (l :: ls)
          end
      end
  end.

Definition renderLyrics (quiz : Quiz.t) (answers : Answers)
    : Outcome (list RenderedLine) :=
  renderLines (Quiz.blanks quiz) answers (split (Quiz.lyrics quiz)) 0.

(** ** File names of the scripts *)

Fixpoint startsWith (p s : jsstring) : bool :=
  match p, s with
  | [], _ => true
  | x :: p', y :: s' => (x =? y) && startsWith p' s'
  | _ :: _, [] => false
  end.

(** [s.includes(pattern)]. *)
Fixpoint includesString (pattern s : jsstring) : bool :=
  startsWith pattern s ||
  match s with
  | [] => false
  | _ :: r => includesString pattern r
  end.

(** [s.replace(pattern, replacement)] with a string pattern and a
    replacement without [$]: the first occurrence only. *)
Fixpoint replaceFirst (pattern replacement s : jsstring) : jsstring :=
  if startsWith pattern s then replacement ++ skipn (length pattern) s
  else match s with
       | [] => []
       | c :: r => c :: replaceFirst pattern replacement r
       end.

(** [defaultOutputFile] of generate-quiz.js. *)
Definition defaultOutputFile (inputFile : jsstring) : jsstring :=
  if includesString (str "/lyrics/") inputFile
  then replaceFirst (str ".json") (str "-quiz.json")
         (replaceFirst (str "/lyrics/") (str "/quizzes/") inputFile)
  else replaceFirst (str ".json") (str "-quiz.json") inputFile.

(** [title.replace(/\s+/g, '-')]: every run of white space becomes one
    hyphen. *)
Fixpoint hyphenate (inSpace : bool) (s : jsstring) : jsstring :=
  match s with
  | [] => []
  | c :: r =>
      if isWhiteSpace c
      then if inSpace then hyphenate true r else HYPHEN :: hyphenate true r
      else c :: hyphenate false r
  end.

(** [songTitle.toLowerCase().replace(/\s+/g, '-')], the stem of the files
    that create-quiz.js and fetch-lyrics-cli.js write.  A title is any
    string: [lower] stands for the builtin [toLowerCase]. *)
Definition lyricsFileName (lower : jsstring -> jsstring)
    (songTitle : jsstring) : jsstring :=
  hyphenate false (lower songTitle).

(** ** Score storage (src/utils/scoreStorage.js) *)

Module ScoreStorage.

(** A field that should hold a number: an integer, [NaN] (the rounded
    percentage of a quiz without blanks), [null] (what [JSON.stringify]
    writes for [NaN]) or [undefined] (a field that is not there). *)
Inductive Num :=
| Number (z : Z)
| NaN
| Null
| Undefined.

(** [a > b]: [null] counts as 0, [NaN] and [undefined] compare false. *)
Definition toNumber (a : Num) : option Z :=
  match a with
  | Number z => Some z
  | Null => Some 0
  | NaN | Undefined => None
  end.

Definition numGt (a b : Num) : bool :=
  match toNumber a, toNumber b with
  | Some x, Some y => y <? x
  | _, _ => false
  end.

(** [a === b]. *)
Definition numEq (a b : Num) : bool :=
  match a, b with
  | Number x, Number y => x =? y
  | Null, Null => true
  | Undefined, Undefined => true
  | _, _ => false
  end.

(** A number after [JSON.stringify] and [JSON.parse]. *)
Definition throughJSON (a : Num) : Num :=
  match a with
  | NaN => Null
  | _ => a
  end.

(** The [scoreData] object that the application hands over. *)
Record ScoreData := {
  correct : Z;
  total : Z;
  percentage : Num;
  wordAccuracy : Num;
  answers : list (Z * jsstring)
}.

(** [{...scoreData, quizId, quizTitle, artist, timestamp, date}]. *)
Record ScoreEntry := {
  scoreData : ScoreData;
  quizId : Z;
  quizTitle : jsstring;
  artist : jsstring;
  timestamp : jsstring;
  date : jsstring
}.

(** The stored object: quiz id to the scores of that quiz.  The order of
    the keys plays no role in what follows. *)
Definition ScoreMap := list (Z * list ScoreEntry).

(** What [localStorage] holds under the key: nothing, a string that
    [JSON.parse] rejects, or the serialized map. *)
Inductive Stored :=
| Absent
| Corrupt
| Saved (m : ScoreMap).

Fixpoint scoresAt (m : ScoreMap) (id : Z) : option (list ScoreEntry) :=
  match m with
  | [] => None
  | (k, v) :: r => if k =? id then Some v else scoresAt r id
  end.

(** [allScores[quizId] = v]: an existing key keeps its place, a new one
    goes last. *)
Fixpoint setScores (m : ScoreMap) (id : Z) (v : list ScoreEntry) : ScoreMap :=
  match m with
  | [] => [(id, v)]
  | (k, w) :: r => if k =? id then (k, v) :: r else (k, w) :: setScores r id v
  end.

Definition getAllScores (st : Stored) : ScoreMap :=
  match st with
  | Saved m => m
  | Absent | Corrupt => []
  end.

Definition getQuizScores (st : Stored) (id : Z) : list ScoreEntry :=
  match scoresAt (getAllScores st) id with
  | Some v => v
  | None => []
  end.

(** The callback of [reduce]. *)
Definition better (best current : ScoreEntry) : ScoreEntry :=
  if numGt (percentage (scoreData current)) (percentage (scoreData best))
  then current
  else if numEq (percentage (scoreData current)) (percentage (scoreData best))
          && numGt (wordAccuracy (scoreData current))
                   (wordAccuracy (scoreData best))
  then current
  else best.

(** [reduce] without an initial value starts from the first score. *)
Definition getBestScore (st : Stored) (id : Z) : option ScoreEntry :=
  match getQuizScores st id with
  | [] => None
  | first :: rest => Some (fold_left better rest first)
  end.

(** What [JSON.stringify] keeps of the map: [NaN] is written as [null]. *)
Definition stringifyEntry (e : ScoreEntry) : ScoreEntry :=
  {| scoreData :=
       {| correct := correct (scoreData e); total := total (scoreData e);
          percentage := throughJSON (percentage (scoreData e));
          wordAccuracy := throughJSON (wordAccuracy (scoreData e));
          answers := answers (scoreData e) |};
     quizId := quizId e; quizTitle := quizTitle e; artist := artist e;
     timestamp := timestamp e; date := date e |}.

Definition stringify (m : ScoreMap) : ScoreMap :=
  map (fun kv => (fst kv, map stringifyEntry (snd kv))) m.

(** [arr.slice(-10)]: the last ten elements. *)
Definition lastTen {A : Type} (l : list A) : list A :=
  skipn (length l - 10) l.

(** [saveScore]: [now] and [today] are the two strings the call reads
    from the clock; [writable] tells whether [setItem] succeeds.  The
    result is the returned boolean and the new content of the storage. *)
Definition saveScore (st : Stored) (writable : bool) (id : Z)
    (title artistName : jsstring) (data : ScoreData) (now today : jsstring)
    : bool * Stored :=
  let allScores := getAllScores st in
  let scoreEntry :=
    {| scoreData := data; quizId := id; quizTitle := title;
       artist := artistName; timestamp := now; date := today |} in
  let current :=
    match scoresAt allScores id with
    | Some v => v
    | None => []
    end in
  let pushed := current ++ [scoreEntry] in
  let kept := if (10 <? Z.of_nat (length pushed)) then lastTen pushed else pushed in
  if writable then (true, Saved (stringify (setScores allScores id kept)))
  else (false, st).

Record Stats := {
  totalQuizzesCompleted : Z;
  totalAttempts : Z;
  averageScore : Num;
  perfectScores : Z
}.

(** [totalScore += score.percentage], [None] for a sum that is not a
    number. *)
Definition numAdd (acc : option Z) (b : Num) : option Z :=
  match acc, toNumber b with
  | Some x, Some y => Some (x + y)
  | _, _ => None
  end.

(** [Math.round(totalScore / totalAttempts)]: the quotient of two integers
    rounded to the nearest integer, halves upwards; not a number when
    there is no attempt or the sum is not a number.  (The double-precision
    quotient of two integers below 2^52 rounds to the same integer as the
    exact one.) *)
Definition roundedQuotient (sum : option Z) (n : Z) : Num :=
  match sum with
  | Some s => if n =? 0 then NaN else Number ((2 * s + n) / (2 * n))
  | None => NaN
  end.

Definition allEntries (m : ScoreMap) : list ScoreEntry :=
  flat_map snd m.

Definition getStats (st : Stored) : Stats :=
  let allScores := getAllScores st in
  match allScores with
  | [] =>
      {| totalQuizzesCompleted := 0; totalAttempts := 0;
         averageScore := Number 0; perfectScores := 0 |}
  | _ =>
      let attempts := Z.of_nat (length (allEntries allScores)) in
      let totalScore :=
        fold_left (fun acc s => numAdd acc (percentage (scoreData s)))
          (allEntries allScores) (Some 0) in
      let perfect :=
        Z.of_nat
          (length (filter (fun s => numEq (percentage (scoreData s)) (Number 100))
                     (allEntries allScores))) in
      {| totalQuizzesCompleted := Z.of_nat (length allScores);
         totalAttempts := attempts;
         averageScore := roundedQuotient totalScore attempts;
         perfectScores := perfect |}
  end.

Definition clearAllScores (st : Stored) : bool * Stored := (true, Absent).

End ScoreStorage.

(** * Vocabulary of the properties *)

(** A string that neither starts nor ends with white space. *)
Definition headClean (s : jsstring) : Prop :=
  match s with
  | [] => True
  | c :: _ => isWhiteSpace c = false
  end.

Definition edgeClean (s : jsstring) : Prop := headClean s /\ headClean (rev s).

(** Strings of code units below U+0100. *)
Definition isLatin1 (s : jsstring) : Prop :=
  forallb (fun c => (0 <=? c) && (c <? 0x100)) s = true.

(** What the properties of the normalizer use of the builtin
    [toLowerCase].  On strings of code units below U+0100 it is the table
    above.  Lower-casing a lower-cased string changes nothing.  A string
    without white space at its ends has a lower-case form without white
    space at its ends.  The six punctuation marks of the normalizer and
    the two that replace them are caseless, and a mark and its replacement
    weigh the same in the rule of the final sigma, so that replacing
    before or after lower-casing gives the same string. *)
Definition lowerOnLatin1 (lower : jsstring -> jsstring) : Prop :=
  forall s, isLatin1 s -> lower s = toLowerCase s.

Definition lowerIdempotent (lower : jsstring -> jsstring) : Prop :=
  forall s, lower (lower s) = lower s.

Definition lowerKeepsEdges (lower : jsstring -> jsstring) : Prop :=
  forall s, edgeClean s -> edgeClean (lower s).

Definition lowerCommutes (lower : jsstring -> jsstring) : Prop :=
  forall s, lower (map canonical s) = map canonical (lower s).

(** What [normalizeText] does to one code unit of the trimmed string. *)
Definition normalizeUnit (c : char) : char :=
  replaceDashes (replaceApostrophes (toLowerCaseUnit c)).

(** Text order: an earlier line, or the same line further left. *)
Definition textBefore (a b : Token.t) : Prop :=
  Token.lineIndex a < Token.lineIndex b \/
  (Token.lineIndex a = Token.lineIndex b /\ Token.position a < Token.position b).

(** Position order: line first, then offset in the line. *)
Definition positionOrder (a b : Token.t) : Prop :=
  Token.lineIndex a < Token.lineIndex b \/
  (Token.lineIndex a = Token.lineIndex b /\ Token.position a <= Token.position b).

Definition blankPosition (b : Blank) : Z := Token.position (token b).
Definition wordLength (b : Blank) : Z := strlen (Token.word (token b)).
Definition placeholderLength (b : Blank) : Z := strlen (placeholder (blankId b)).

Definition total (f : Blank -> Z) (l : list Blank) : Z :=
  fold_right (fun b acc => f b + acc) 0 l.

(** The end of a token's span in its line. *)
Definition spanEnd (t : Token.t) : Z :=
  Token.position t + strlen (Token.word t).

(** Blanks of one line do not overlap: an earlier blank ends before a later
    one starts. *)
Definition nonOverlapping (blanks : list Token.t) : Prop :=
  ForallOrdPairs
    (fun a b => Token.lineIndex a = Token.lineIndex b ->
                spanEnd a <= Token.position b)
    blanks.

(** Every blank sits on a line of the text, and its span is inside it. *)
Definition spansInside (lyrics : jsstring) (blanks : list Token.t) : Prop :=
  Forall
    (fun b => exists line,
         0 <= Token.lineIndex b /\
         nth_error (split lyrics) (Z.to_nat (Token.lineIndex b)) = Some line /\
         0 <= Token.position b /\ spanEnd b <= strlen line)
    blanks.

(** A processing order in which every replacement finds its span inside
    the line as rewritten so far. *)
Definition safeOrder (bs : list Blank) (len : Z) : Prop :=
  Forall (fun b => 0 <= blankPosition b /\
                   blankPosition b + wordLength b <= len) bs /\
  ForallOrdPairs
    (fun b r => blankPosition r + wordLength r <= blankPosition b \/
                wordLength b = 0) bs.

(** The line with every blank's span replaced by its placeholder: the text
    from [from] up to the first blank, its placeholder, and so on after the
    end of its span. *)
Fixpoint weave (line : jsstring) (from : Z) (bs : list Blank) : jsstring :=
  match bs with
  | [] => substringFrom line from
  | b :: r =>
      substring line from (blankPosition b) ++ placeholder (blankId b) ++
      weave line (blankPosition b + wordLength b) r
  end.

(** Blanks with non-empty words that follow one another inside a line of
    length [len], the first one at or after [from]. *)
Fixpoint chained (len from : Z) (bs : list Blank) : Prop :=
  match bs with
  | [] => 0 <= from <= len
  | b :: r =>
      0 <= from <= blankPosition b /\ 0 < wordLength b /\
      chained len (blankPosition b + wordLength b) r
  end.

(** The number a string of decimal digits denotes. *)
Definition decimalValue (s : jsstring) : Z :=
  fold_left (fun acc c => 10 * acc + (c - 0x30)) s 0.

Definition amazingGrace : jsstring :=
  str "Amazing grace how sweet the sound" ++ [LF].

Definition loveSong : jsstring :=
  str "Love me tender love me true" ++ [LF] ++ str "All my dreams fulfill".

Definition graceBlanks : list Token.t :=
  [ Token.mk (str "Amazing") 0 0 7; Token.mk (str "grace") 0 8 5 ].

(** What holds of a token of line [line]: it is the text of the line at
    its position, longer than two characters and made of word characters,
    apostrophes and hyphens. *)
Definition tokenOfLine (line : jsstring) (t : Token.t) : Prop :=
  0 <= Token.position t /\
  Token.length t = strlen (Token.word t) /\
  2 < Token.length t /\
  Token.position t + Token.length t <= strlen line /\
  substring line (Token.position t) (Token.position t + Token.length t) =
    Token.word t /\
  forallb inWordClass (Token.word t) = true.

(** How many tokens have [key] as their lower-cased word. *)
Definition occurrences (words : list Token.t) (key : jsstring) : Z :=
  Z.of_nat
    (length (filter (fun t => jsstring_eqb (toLowerCase (Token.word t)) key)
               words)).

Definition countAt (f : FrequencyTable) (key : jsstring) : Z :=
  match lookup f key with
  | Some (Count n) => n
  | _ => 0
  end.

(** The keys under which the [frequency] object holds no number. *)
Definition inheritedName (key : jsstring) : bool :=
  jsstring_eqb (str "constructor") key || jsstring_eqb (str "__proto__") key.

(** A token with a word as the tokenizer makes them, word characters,
    apostrophes and hyphens, that is no inherited name in lower case. *)
Definition countedToken (t : Token.t) : bool :=
  forallb inWordClass (Token.word t) &&
  negb (inheritedName (toLowerCase (Token.word t))).

(** The ranking the [frequent] strategy is after: more occurrences first. *)
Definition byOccurrences (T : list Token.t) (a b : Token.t) : Z :=
  occurrences T (toLowerCase (Token.word b)) -
  occurrences T (toLowerCase (Token.word a)).

(** Every stored quiz has at least one and at most ten scores, under one
    key. *)
Definition wellKept (m : ScoreStorage.ScoreMap) : Prop :=
  Forall (fun kv => (1 <= length (snd kv) <= 10)%nat) m /\ NoDup (map fst m).

(** The arguments of one call of [saveScore]. *)
Record SaveCall := {
  callWritable : bool;
  callId : Z;
  callTitle : jsstring;
  callArtist : jsstring;
  callData : ScoreStorage.ScoreData;
  callNow : jsstring;
  callToday : jsstring
}.

Definition saveCall (st : ScoreStorage.Stored) (c : SaveCall)
    : ScoreStorage.Stored :=
  snd (ScoreStorage.saveScore st (callWritable c) (callId c) (callTitle c)
         (callArtist c) (callData c) (callNow c) (callToday c)).

(** The storage after a series of calls of [saveScore]. *)
Definition replay (st : ScoreStorage.Stored) (calls : list SaveCall)
    : ScoreStorage.Stored :=
  fold_left saveCall calls st.

(** What [saveScore] keeps for the quiz it is called for. *)
Definition keptScores (st : ScoreStorage.Stored) (id : Z)
    (entry : ScoreStorage.ScoreEntry) : list ScoreStorage.ScoreEntry :=
  let pushed := ScoreStorage.getQuizScores st id ++ [entry] in
  if (10 <? Z.of_nat (length pushed)) then ScoreStorage.lastTen pushed
  else pushed.

(** A score whose percentage is a number, and that number. *)
Definition hasPercentage (e : ScoreStorage.ScoreEntry) : Prop :=
  exists z, ScoreStorage.percentage (ScoreStorage.scoreData e) =
            ScoreStorage.Number z.

Definition percentageOf (e : ScoreStorage.ScoreEntry) : Z :=
  match ScoreStorage.toNumber
          (ScoreStorage.percentage (ScoreStorage.scoreData e)) with
  | Some z => z
  | None => 0
  end.

(** A score as the application saves it: without [wordAccuracy]. *)
Definition plainScore (e : ScoreStorage.ScoreEntry) : Prop :=
  hasPercentage e /\
  ScoreStorage.wordAccuracy (ScoreStorage.scoreData e) = ScoreStorage.Undefined.

(** What a rendered line reads as: its spans of text and the values of
    its fields, left to right. *)
Definition partText (p : Part) : jsstring :=
  match p with
  | TextSpan _ _ text => text
  | InputField _ value _ => value
  end.

Definition partsText (parts : list Part) : jsstring :=
  flat_map partText parts.

Definition lineText (l : RenderedLine) : jsstring :=
  match l with
  | PlainLine text => text
  | PartsLine parts => partsText parts
  end.

(** The line with the span of every blank replaced by a value. *)
Fixpoint fill (value : Blank -> jsstring) (line : jsstring) (from : Z)
    (bs : list Blank) : jsstring :=
  match bs with
  | [] => substringFrom line from
  | b :: r =>
      substring line from (blankPosition b) ++ value b ++
      fill value line (blankPosition b + wordLength b) r
  end.

(** The answers of somebody who types every answer of the key. *)
Definition keyAnswers (blanks : list Quiz.Item) : Answers :=
  fun blankId => option_map Quiz.answer (findBlank blanks blankId).

Definition UNDERSCORE : char := 0x5F.

Definition noUnderscore (s : jsstring) : Prop := ~ In UNDERSCORE s.

(** The text of the line after its last blank. *)
Fixpoint tailText (line : jsstring) (from : Z) (bs : list Blank) : jsstring :=
  match bs with
  | [] => substringFrom line from
  | b :: r => tailText line (blankPosition b + wordLength b) r
  end.

(** What the user has typed in the field of a blank. *)
Definition typed (answers : Answers) (b : Blank) : jsstring :=
  orEmpty (answers (Z.of_nat (blankId b))).

(** How an original line shows in the quiz view: an empty line as a
    no-break space. *)
Definition shownLine (line : jsstring) : jsstring :=
  if isEmpty line then [NBSP] else line.

(** The typed text with every straight apostrophe written as the right
    single quotation mark U+2019. *)
Definition curly (s : jsstring) : jsstring :=
  map (fun c => if c =? APOSTROPHE then 0x2019 else c) s.

(** The answers of somebody who types [text] in the field of blank
    [blankId] and nothing else. *)
Definition onlyAnswer (blankId : Z) (text : jsstring) : Answers :=
  fun k => if k =? blankId then Some text else None.

(** * Properties *)

(** Case analysis on the conditions of nested [if]s, innermost first;
    [lia] reads the boolean comparisons that are left in the context. *)
Ltac ifcases :=
  repeat match goal with
    | |- context [if ?b then _ else _] =>
        lazymatch b with
        | context [if _ then _ else _] => fail
        | _ => destruct b eqn:?
        end
    end.

(** ** Facts on the string primitives *)

Lemma jsstring_eqb_eq (a b : jsstring) : jsstring_eqb a b = true <-> a = b.
Proof.
  revert b; induction a as [|x a IH]; intros [|y b]; simpl;
    try (split; [discriminate | congruence]); try tauto.
  rewrite andb_true_iff, Z.eqb_eq, IH. split.
  - intros [-> ->]; reflexivity.
  - intros H; inversion H; auto.
Qed.

Lemma jsstring_eqb_refl (a : jsstring) : jsstring_eqb a a = true.
Proof. apply jsstring_eqb_eq; reflexivity. Qed.

Lemma trimStart_headClean (s : jsstring) : headClean (trimStart s).
Proof.
  induction s as [|c r IH]; simpl; auto.
  destruct (isWhiteSpace c) eqn:E; simpl; auto.
Qed.

Lemma trimStart_fixed (s : jsstring) : headClean s -> trimStart s = s.
Proof. destruct s as [|c r]; simpl; auto. intros ->; reflexivity. Qed.

Lemma trimStart_app (l m : jsstring) (c : char) :
  isWhiteSpace c = false -> trimStart (l ++ c :: m) = trimStart l ++ c :: m.
Proof.
  intros Hc; induction l as [|x l IH]; simpl.
  - rewrite Hc; reflexivity.
  - destruct (isWhiteSpace x); auto.
Qed.

Lemma trimStart_suffix (s : jsstring) :
  exists l, s = l ++ trimStart s /\ forallb isWhiteSpace l = true.
Proof.
  induction s as [|c r [l [E W]]]; simpl.
  - exists []; auto.
  - destruct (isWhiteSpace c) eqn:Hc.
    + exists (c :: l); simpl; rewrite Hc, W; split; [f_equal; exact E | reflexivity].
    + exists []; auto.
Qed.

Lemma trim_edgeClean (s : jsstring) : edgeClean (trim s).
Proof.
  unfold trim, trimEnd, edgeClean. rewrite rev_involutive.
  split; [|apply trimStart_headClean].
  pose proof (trimStart_headClean s) as H.
  destruct (trimStart s) as [|c r]; simpl; auto.
  simpl in H. rewrite trimStart_app by assumption.
  rewrite rev_app_distr; simpl; assumption.
Qed.

Lemma trim_fixed (s : jsstring) : edgeClean s -> trim s = s.
Proof.
  intros [H1 H2]. unfold trim, trimEnd.
  rewrite (trimStart_fixed s H1), (trimStart_fixed _ H2).
  apply rev_involutive.
Qed.

Lemma trim_parts (s : jsstring) :
  exists l r, s = l ++ trim s ++ r /\
    forallb isWhiteSpace l = true /\ forallb isWhiteSpace r = true.
Proof.
  destruct (trimStart_suffix s) as [l [El Wl]].
  destruct (trimStart_suffix (rev (trimStart s))) as [r [Er Wr]].
  exists l, (rev r). unfold trim, trimEnd. repeat split; auto.
  - rewrite <- rev_app_distr, <- Er, rev_involutive; exact El.
  - rewrite forallb_forall in *. intros x Hx; apply Wr, in_rev; assumption.
Qed.

Lemma map_headClean (f : char -> char) (s : jsstring) :
  (forall c, isWhiteSpace c = false -> isWhiteSpace (f c) = false) ->
  headClean s -> headClean (map f s).
Proof. intros Hf; destruct s; simpl; auto. Qed.

Lemma map_edgeClean (f : char -> char) (s : jsstring) :
  (forall c, isWhiteSpace c = false -> isWhiteSpace (f c) = false) ->
  edgeClean s -> edgeClean (map f s).
Proof.
  intros Hf [H1 H2]; split; [|rewrite <- map_rev]; apply map_headClean; auto.
Qed.

(** ** Normalizer *)

Lemma normalizeText_units (s : jsstring) :
  normalizeText (Some s) = map normalizeUnit (trim s).
Proof.
  destruct s as [|c r]; [reflexivity|].
  unfold normalizeText, toLowerCase. rewrite !map_map. reflexivity.
Qed.

Lemma canonical_replace (c : char) :
  replaceDashes (replaceApostrophes c) = canonical c.
Proof.
  unfold replaceDashes, replaceApostrophes, canonical, APOSTROPHE, HYPHEN.
  simpl. ifcases; lia.
Qed.

Lemma normalizeUnit_keeps_nonspace (c : char) :
  isWhiteSpace c = false -> isWhiteSpace (normalizeUnit c) = false.
Proof.
  unfold normalizeUnit, replaceDashes, replaceApostrophes, toLowerCaseUnit,
    APOSTROPHE, HYPHEN, isWhiteSpace.
  intros H. ifcases; lia.
Qed.

Lemma normalizeUnit_idempotent (c : char) :
  normalizeUnit (normalizeUnit c) = normalizeUnit c.
Proof.
  unfold normalizeUnit, replaceDashes, replaceApostrophes, toLowerCaseUnit,
    APOSTROPHE, HYPHEN.
  ifcases; lia.
Qed.

(** *** The normalizer over all strings *)

Lemma canonical_idempotent (c : char) : canonical (canonical c) = canonical c.
Proof.
  unfold canonical, APOSTROPHE, HYPHEN. simpl. ifcases; lia.
Qed.

Lemma canonical_keeps_nonspace (c : char) :
  isWhiteSpace c = false -> isWhiteSpace (canonical c) = false.
Proof.
  unfold canonical, APOSTROPHE, HYPHEN, isWhiteSpace. simpl.
  intros H. ifcases; lia.
Qed.

Lemma normalizeTextWith_nonempty (lower : jsstring -> jsstring)
    (s : jsstring) :
  s <> [] ->
  normalizeTextWith lower (Some s) = map canonical (lower (trim s)).
Proof.
  intros H. destruct s as [|c r]; [congruence|].
  unfold normalizeTextWith. rewrite map_map. apply map_ext.
  intros x. apply canonical_replace.
Qed.

Lemma lowerOnLatin1_nil (lower : jsstring -> jsstring) :
  lowerOnLatin1 lower -> lower [] = [].
Proof. intros H. apply (H []). reflexivity. Qed.

Lemma normalizeTextWith_units (lower : jsstring -> jsstring) (s : jsstring) :
  lowerOnLatin1 lower ->
  normalizeTextWith lower (Some s) = map canonical (lower (trim s)).
Proof.
  intros H. destruct s as [|c r].
  - cbn [normalizeTextWith trim trimStart trimEnd rev].
    rewrite (lowerOnLatin1_nil lower H). reflexivity.
  - apply normalizeTextWith_nonempty. discriminate.
Qed.

(** On a string whose trimmed and replaced form is below U+0100 the
    normalizer is given by the table. *)
Lemma normalizeTextWith_latin1 (lower : jsstring -> jsstring) (s : jsstring) :
  lowerOnLatin1 lower -> lowerCommutes lower ->
  isLatin1 (map canonical (trim s)) ->
  normalizeTextWith lower (Some s) = toLowerCase (map canonical (trim s)).
Proof.
  intros H1 Hc L. rewrite normalizeTextWith_units by exact H1.
  rewrite <- Hc. apply H1. exact L.
Qed.

Lemma normalizeTextWith_table (text : option jsstring) :
  normalizeTextWith toLowerCase text = normalizeText text.
Proof. reflexivity. Qed.

(** The table has the four properties. *)
Lemma toLowerCase_onLatin1 : lowerOnLatin1 toLowerCase.
Proof. intros s _. reflexivity. Qed.

Lemma toLowerCase_idempotent : lowerIdempotent toLowerCase.
Proof.
  intros s. unfold toLowerCase. rewrite map_map. apply map_ext.
  intros c. unfold toLowerCaseUnit. ifcases; lia.
Qed.

Lemma toLowerCase_keepsEdges : lowerKeepsEdges toLowerCase.
Proof.
  intros s. apply map_edgeClean. intros c.
  unfold toLowerCaseUnit, isWhiteSpace. intros H. ifcases; lia.
Qed.

Lemma toLowerCase_commutes : lowerCommutes toLowerCase.
Proof.
  intros s. unfold toLowerCase. rewrite !map_map. apply map_ext.
  intros c. unfold toLowerCaseUnit, canonical, APOSTROPHE, HYPHEN. simpl.
  ifcases; lia.
Qed.

(** C6. With [lower] for the builtin [toLowerCase], of which the proof
    uses that it is the Latin-1 table on strings below U+0100 and that it
    commutes with the replacement of the six punctuation marks:
    [normalizeText] trims white space from both ends, lower-cases, and
    maps U+2019, U+02BC, U+00B4 to the apostrophe and U+2013, U+2014,
    U+2212 to the hyphen, for every string; a missing or empty argument
    gives the empty string; [compareAnswers] is equality of the two
    normalized strings, so it accepts "don't" against the curly-apostrophe
    spelling, "say-so" against the en-dash spelling and "Hello" against
    "hello", and rejects "cat" against "cats". *)
Theorem normalizeText_compareAnswers_spec (lower : jsstring -> jsstring) :
  lowerOnLatin1 lower ->
  lowerCommutes lower ->
  (forall s, exists l r,
      s = l ++ trim s ++ r /\ forallb isWhiteSpace l = true /\
      forallb isWhiteSpace r = true /\ edgeClean (trim s)) /\
  (forall s,
      normalizeTextWith lower (Some s) = map canonical (lower (trim s))) /\
  (forall c, In c [0x2019; 0x02BC; 0x00B4] -> canonical c = 0x27) /\
  (forall c, In c [0x2013; 0x2014; 0x2212] -> canonical c = 0x2D) /\
  (forall c, ~ In c [0x2019; 0x02BC; 0x00B4; 0x2013; 0x2014; 0x2212] ->
             canonical c = c) /\
  normalizeTextWith lower None = [] /\
  normalizeTextWith lower (Some []) = [] /\
  (forall a b, compareAnswersWith lower a b = true <->
               normalizeTextWith lower a = normalizeTextWith lower b) /\
  compareAnswersWith lower (Some (str "don't"))
    (Some (str "don" ++ [0x2019] ++ str "t")) = true /\
  compareAnswersWith lower (Some (str "say-so"))
    (Some (str "say" ++ [0x2013] ++ str "so")) = true /\
  compareAnswersWith lower (Some (str "Hello")) (Some (str "hello")) = true /\
  compareAnswersWith lower (Some (str "cat")) (Some (str "cats")) = false.
Proof.
  intros H1 Hc.
  split; [|split; [|split; [|split; [|split]]]].
  - intros s. destruct (trim_parts s) as [l [r [E [Wl Wr]]]].
    exists l, r. repeat split; auto; apply trim_edgeClean.
  - intros s. apply normalizeTextWith_units. exact H1.
  - intros c H; simpl in H.
    destruct H as [<-|[<-|[<-|[]]]]; reflexivity.
  - intros c H; simpl in H.
    destruct H as [<-|[<-|[<-|[]]]]; reflexivity.
  - intros c H. unfold canonical, APOSTROPHE, HYPHEN; simpl in *.
    ifcases; lia.
  - split; [reflexivity|]. split; [reflexivity|]. split.
    { intros a b. apply jsstring_eqb_eq. }
    unfold compareAnswersWith.
    repeat split;
      rewrite !(normalizeTextWith_latin1 lower) by (assumption || reflexivity);
      reflexivity.
Qed.

Lemma normalizeText_compareAnswers_spec_witness :
  lowerOnLatin1 toLowerCase /\
  lowerCommutes toLowerCase /\
  normalizeTextWith toLowerCase (Some (str "  Don" ++ [0x2019] ++ str "T "))
    = str "don't".
Proof.
  split; [exact toLowerCase_onLatin1|].
  split; [exact toLowerCase_commutes|].
  destruct (normalizeText_compareAnswers_spec toLowerCase
              toLowerCase_onLatin1 toLowerCase_commutes)
    as [_ [H _]].
  rewrite H. reflexivity.
Defined.

(** C7. Normalization is idempotent: normalizing a normalized string
    changes nothing, for every string.  [lower] is the builtin
    [toLowerCase], of which the proof uses that it is idempotent, that it
    leaves a string without white space at its ends in that state, and
    that it commutes with the replacement of the six punctuation marks. *)
Theorem normalizeText_idempotent (lower : jsstring -> jsstring)
    (text : option jsstring) :
  lowerIdempotent lower ->
  lowerKeepsEdges lower ->
  lowerCommutes lower ->
  normalizeTextWith lower (Some (normalizeTextWith lower text)) =
  normalizeTextWith lower text.
Proof.
  intros Hi He Hc.
  destruct text as [[|x s]|]; [reflexivity| |reflexivity].
  rewrite (normalizeTextWith_nonempty lower (x :: s)) by discriminate.
  assert (Hedge : edgeClean (map canonical (lower (trim (x :: s))))).
  { apply map_edgeClean; [apply canonical_keeps_nonspace|].
    apply He, trim_edgeClean. }
  assert (Hfix : map canonical (lower (map canonical (lower (trim (x :: s)))))
                 = map canonical (lower (trim (x :: s)))).
  { rewrite Hc, Hi, map_map. apply map_ext. apply canonical_idempotent. }
  destruct (map canonical (lower (trim (x :: s)))) as [|c r] eqn:E;
    [reflexivity|].
  rewrite normalizeTextWith_nonempty by discriminate.
  rewrite trim_fixed by exact Hedge. exact Hfix.
Qed.

Lemma normalizeText_idempotent_witness :
  normalizeTextWith toLowerCase
    (Some (normalizeTextWith toLowerCase
             (Some (str " Say" ++ [0x2013] ++ str "So  ")))) =
  normalizeTextWith toLowerCase (Some (str " Say" ++ [0x2013] ++ str "So  ")).
Proof.
  apply (normalizeText_idempotent toLowerCase).
  - exact toLowerCase_idempotent.
  - exact toLowerCase_keepsEdges.
  - exact toLowerCase_commutes.
Defined.

(** ** Tokenizer *)

Section SortedLists.
Context {A : Type}.
Variable R : A -> A -> Prop.

Lemma StronglySorted_app_intro (l1 l2 : list A) :
  StronglySorted R l1 -> StronglySorted R l2 ->
  (forall a b, In a l1 -> In b l2 -> R a b) ->
  StronglySorted R (l1 ++ l2).
Proof.
  induction l1 as [|x l1 IH]; simpl; intros S1 S2 H; auto.
  inversion S1; subst. constructor.
  - apply IH; auto.
  - apply Forall_app; split; auto.
    apply Forall_forall; intros b Hb; apply H; auto.
Qed.

Lemma StronglySorted_filter_keep (p : A -> bool) (l : list A) :
  StronglySorted R l -> StronglySorted R (filter p l).
Proof.
  induction 1 as [|x l S IH F]; simpl; [constructor|].
  destruct (p x); auto. constructor; auto.
  rewrite Forall_forall in *. intros y Hy.
  apply filter_In in Hy; apply F; tauto.
Qed.
End SortedLists.

Lemma StronglySorted_map_intro {A B : Type} (R : A -> A -> Prop)
    (Q : B -> B -> Prop) (f : A -> B) (l : list A) :
  (forall a b, R a b -> Q (f a) (f b)) ->
  StronglySorted R l -> StronglySorted Q (map f l).
Proof.
  intros H; induction 1 as [|x l S IH F]; simpl; constructor; auto.
  rewrite Forall_forall in *. intros y Hy.
  apply in_map_iff in Hy as [a [<- Ha]]; auto.
Qed.

(** The matches of one line come out left to right. *)
Lemma matchAllFrom_increasing (s : jsstring) :
  forall prevWord pos skip,
    StronglySorted (fun a b => index a < index b)
      (matchAllFrom prevWord pos skip s) /\
    Forall (fun m => pos <= index m) (matchAllFrom prevWord pos skip s).
Proof.
  induction s as [|c r IH]; intros prevWord pos skip; cbn [matchAllFrom].
  - split; constructor.
  - assert (step : forall k,
      StronglySorted (fun a b => index a < index b)
        (matchAllFrom (isWordChar c) (pos + 1) k r) /\
      Forall (fun m => pos <= index m)
        (matchAllFrom (isWordChar c) (pos + 1) k r)).
    { intros k; destruct (IH (isWordChar c) (pos + 1) k) as [S F].
      split; auto. eapply Forall_impl; [|exact F]. simpl; intros; lia. }
    destruct skip as [|k]; [|apply step].
    destruct (wordBoundary prevWord (c :: r)); [|apply step].
    destruct (matchRun (c :: r)) as [w|]; [|apply step].
    destruct (IH (isWordChar c) (pos + 1) (length w - 1)%nat) as [S F].
    split; constructor; simpl; auto; try lia.
    + eapply Forall_impl; [|exact F]. simpl; intros; lia.
    + eapply Forall_impl; [|exact F]. simpl; intros; lia.
Qed.

Lemma lineWords_lineIndex (line : jsstring) (i : Z) (t : Token.t) :
  In t (lineWords line i) -> Token.lineIndex t = i.
Proof.
  unfold lineWords. destruct (skipLine line); simpl; [tauto|].
  intros H. apply in_map_iff in H as [m [<- _]]. reflexivity.
Qed.

Lemma lineWords_sorted (line : jsstring) (i : Z) :
  StronglySorted textBefore (lineWords line i).
Proof.
  unfold lineWords. destruct (skipLine line); [constructor|].
  apply StronglySorted_map_intro with (R := fun a b => index a < index b).
  - intros a b H; right; simpl; auto.
  - apply StronglySorted_filter_keep, matchAllFrom_increasing.
Qed.

Lemma extractLines_In (lines : list jsstring) :
  forall k t,
    In t (extractLines lines k) <->
    exists i line,
      nth_error lines i = Some line /\ In t (lineWords line (k + Z.of_nat i)).
Proof.
  induction lines as [|l rest IH]; intros k t; simpl.
  - split; [tauto|]. intros [[|i] [line [H _]]]; discriminate.
  - rewrite in_app_iff, IH. split.
    + intros [H|[i [line [Hn H]]]].
      * exists 0%nat, l. rewrite Z.add_0_r. auto.
      * exists (S i), line. split; auto.
        replace (k + Z.of_nat (S i)) with (k + 1 + Z.of_nat i) by lia. auto.
    + intros [[|i] [line [Hn H]]]; simpl in Hn.
      * inversion Hn; subst. rewrite Z.add_0_r in H. auto.
      * right. exists i, line. split; auto.
        replace (k + 1 + Z.of_nat i) with (k + Z.of_nat (S i)) by lia. auto.
Qed.

Lemma extractLines_sorted (lines : list jsstring) :
  forall k, StronglySorted textBefore (extractLines lines k).
Proof.
  induction lines as [|l rest IH]; intros k; simpl; [constructor|].
  apply StronglySorted_app_intro; auto using lineWords_sorted.
  intros a b Ha Hb. left.
  apply lineWords_lineIndex in Ha.
  apply extractLines_In in Hb as [i [line [_ Hb]]].
  apply lineWords_lineIndex in Hb. lia.
Qed.

Lemma includes_In (l : list jsstring) (s : jsstring) :
  includes l s = true <-> In s l.
Proof.
  unfold includes. rewrite existsb_exists. split.
  - intros [x [Hx E]]. apply jsstring_eqb_eq in E; subst; auto.
  - intros H; exists s; split; auto. apply jsstring_eqb_refl.
Qed.

Lemma keepMatch_spec (m : Match) :
  keepMatch m = true <->
  2 < strlen (matched m) /\ ~ In (toLowerCase (matched m)) commonWords.
Proof.
  unfold keepMatch. rewrite andb_true_iff, !negb_true_iff.
  rewrite <- includes_In, Z.leb_gt.
  destruct (includes commonWords (toLowerCase (matched m))); split;
    intros [H1 H2]; split; auto; congruence.
Qed.

Lemma lineWords_In (line : jsstring) (i : Z) (t : Token.t) :
  In t (lineWords line i) <->
  skipLine line = false /\
  exists m, In m (matchAll line) /\ keepMatch m = true /\ t = tokenOf i m.
Proof.
  unfold lineWords. destruct (skipLine line); simpl.
  - split; [tauto|intros [H _]; discriminate].
  - rewrite in_map_iff. split.
    + intros [m [E H]]. apply filter_In in H as [H1 H2]. eauto.
    + intros [_ [m [H1 [H2 E]]]]. exists m. rewrite filter_In. auto.
Qed.

(** A line made of white space only, and a line that is one bracketed
    marker, are skipped. *)
Lemma skipLine_blank (line : jsstring) :
  forallb isWhiteSpace line = true -> skipLine line = true.
Proof.
  intros H. unfold skipLine.
  destruct (trim_parts line) as [l [r [E _]]].
  pose proof (trim_edgeClean line) as [Hc _].
  destruct (trim line) as [|c t]; [reflexivity|].
  simpl in Hc. rewrite forallb_forall in H.
  rewrite (H c) in Hc; [discriminate|].
  rewrite E. apply in_or_app; right; left; reflexivity.
Qed.

Lemma skipLine_marker (body : jsstring) :
  forallb (fun x => negb (isLineTerminator x)) body = true ->
  skipLine (0x5B :: body ++ [0x5D]) = true.
Proof.
  intros H. unfold skipLine, isSectionMarker.
  rewrite rev_app_distr; simpl.
  rewrite forallb_forall in H.
  replace (forallb _ (rev body)) with true; [apply orb_true_r|].
  symmetry; apply forallb_forall. intros x Hx; apply H, in_rev; assumption.
Qed.

(** C8. [extractWords] emits nothing for a line that is empty, made of
    white space only, or one bracketed marker, while that line keeps its
    index; on the other lines it keeps exactly the matches longer than two
    characters whose lower-cased form is not in the stoplist; the tokens
    come out in text order.  On "The cat sat on a mat." it keeps "cat",
    "sat" and "mat" only. *)
Theorem extractWords_spec :
  (forall line, forallb isWhiteSpace line = true -> skipLine line = true) /\
  (forall body,
      forallb (fun x => negb (isLineTerminator x)) body = true ->
      skipLine (0x5B :: body ++ [0x5D]) = true) /\
  (forall lyrics t,
      In t (extractWords lyrics) <->
      exists i line m,
        nth_error (split lyrics) i = Some line /\
        skipLine line = false /\
        In m (matchAll line) /\
        2 < strlen (matched m) /\
        ~ In (toLowerCase (matched m)) commonWords /\
        t = tokenOf (Z.of_nat i) m) /\
  (forall lyrics, StronglySorted textBefore (extractWords lyrics)) /\
  map Token.word (extractWords (str "The cat sat on a mat." ++ [LF])) =
    [str "cat"; str "sat"; str "mat"] /\
  extractWords (str "[Chorus]" ++ [LF] ++ str "Love is love" ++ [LF]) =
    [ Token.mk (str "Love") 1 0 4; Token.mk (str "love") 1 8 4 ].
Proof.
  split; [exact skipLine_blank|].
  split; [exact skipLine_marker|].
  split; [|split; [|split; reflexivity]].
  - intros lyrics t. unfold extractWords. rewrite extractLines_In. split.
    + intros [i [line [Hn H]]]. simpl in H.
      apply lineWords_In in H as [Hs [m [Hm [Hk E]]]].
      apply keepMatch_spec in Hk as [H1 H2].
      exists i, line, m. auto 10.
    + intros [i [line [m [Hn [Hs [Hm [H1 [H2 E]]]]]]]].
      exists i, line. split; auto. simpl.
      apply lineWords_In. split; auto.
      exists m. rewrite keepMatch_spec. auto.
  - intros lyrics. apply extractLines_sorted.
Qed.

(** ** Selector *)

Section SortFacts.
Context {A : Type}.
Variable cmp : A -> A -> Z.

Lemma insert_perm (x : A) (l : list A) : Permutation (insert cmp x l) (x :: l).
Proof.
  induction l as [|y r IH]; simpl; auto.
  destruct (cmp x y <=? 0); auto.
  rewrite IH. apply perm_swap.
Qed.

Lemma sort_perm (l : list A) : Permutation (sort cmp l) l.
Proof.
  induction l as [|x r IH]; simpl; auto.
  rewrite insert_perm. auto.
Qed.

Lemma sort_length (l : list A) : length (sort cmp l) = length l.
Proof. apply Permutation_length, sort_perm. Qed.

(** A comparator that orders: any two elements compare one way or the
    other, and the comparison chains. *)
Hypothesis cmp_total : forall a b, cmp a b <= 0 \/ cmp b a <= 0.
Hypothesis cmp_trans : forall a b c, cmp a b <= 0 -> cmp b c <= 0 -> cmp a c <= 0.

Lemma insert_sorted (x : A) (l : list A) :
  StronglySorted (fun a b => cmp a b <= 0) l ->
  StronglySorted (fun a b => cmp a b <= 0) (insert cmp x l).
Proof.
  induction 1 as [|y r S IH F]; simpl.
  - repeat constructor.
  - destruct (Z.leb_spec (cmp x y) 0) as [Hxy|Hxy].
    + constructor; [constructor; auto|].
      constructor; auto.
      eapply Forall_impl; [|exact F]. simpl; intros z Hz; eauto.
    + constructor; auto.
      eapply Permutation_Forall; [symmetry; apply insert_perm|].
      constructor; auto.
      destruct (cmp_total x y); [lia|assumption].
Qed.

Lemma sort_sorted (l : list A) :
  StronglySorted (fun a b => cmp a b <= 0) (sort cmp l).
Proof.
  induction l as [|x r IH]; simpl; [constructor|].
  apply insert_sorted; assumption.
Qed.
End SortFacts.

Lemma slice0_length {A : Type} (l : list A) (count : Z) :
  Z.of_nat (length (slice0 l count)) =
  if count <? 0 then Z.max (Z.of_nat (length l) + count) 0
  else Z.min count (Z.of_nat (length l)).
Proof.
  unfold slice0. rewrite length_firstn.
  destruct (count <? 0) eqn:E; lia.
Qed.

Lemma byLinePosition_order (a b : Token.t) :
  byLinePosition a b <= 0 <-> positionOrder a b.
Proof.
  unfold byLinePosition, positionOrder.
  destruct (Z.eqb_spec (Token.lineIndex a) (Token.lineIndex b)); simpl; lia.
Qed.

Lemma sort_byLinePosition (l : list Token.t) :
  StronglySorted positionOrder (sort byLinePosition l).
Proof.
  assert (S : StronglySorted (fun a b => byLinePosition a b <= 0)
                (sort byLinePosition l)).
  { apply sort_sorted.
    - intros a b. rewrite !byLinePosition_order. unfold positionOrder. lia.
    - intros a b c. rewrite !byLinePosition_order. unfold positionOrder. lia. }
  rewrite <- (map_id (sort byLinePosition l)).
  eapply StronglySorted_map_intro; [|exact S].
  intros a b; apply byLinePosition_order.
Qed.

Lemma selectedWords_length (randomOrder : list Token.t -> list Token.t)
    (words : list Token.t) (count : Z) (strategy : jsstring) :
  (forall l, Permutation (randomOrder l) l) ->
  Z.of_nat (length (selectedWords randomOrder words count strategy)) =
  if count <? 0 then Z.max (Z.of_nat (length words) + count) 0
  else Z.min count (Z.of_nat (length words)).
Proof.
  intros Hp. unfold selectedWords.
  destruct (jsstring_eqb strategy (str "important"));
    [|destruct (jsstring_eqb strategy (str "frequent"));
      [cbv zeta; destruct (allCounted (frequencyOf words) words)|]];
    rewrite slice0_length.
  - rewrite sort_length; reflexivity.
  - rewrite sort_length; reflexivity.
  - rewrite (Permutation_length (Hp words)); reflexivity.
  - rewrite (Permutation_length (Hp words)); reflexivity.
Qed.

Lemma selectBlanks_selectedWords (randomOrder : list Token.t -> list Token.t)
    (words : list Token.t) (count : Z) (strategy : jsstring) :
  words <> [] ->
  selectBlanks randomOrder words count strategy =
  sort byLinePosition (selectedWords randomOrder words count strategy).
Proof. destruct words; [congruence|reflexivity]. Qed.

Lemma selectBlanks_size (randomOrder : list Token.t -> list Token.t)
    (words : list Token.t) (count : Z) (strategy : jsstring) :
  (forall l, Permutation (randomOrder l) l) ->
  Z.of_nat (length (selectBlanks randomOrder words count strategy)) =
  if count <? 0 then Z.max (Z.of_nat (length words) + count) 0
  else Z.min count (Z.of_nat (length words)).
Proof.
  intros Hp. destruct words as [|w ws] eqn:E.
  - simpl. destruct (count <? 0) eqn:C; lia.
  - rewrite selectBlanks_selectedWords by discriminate.
    rewrite sort_length. apply selectedWords_length; assumption.
Qed.

(** C1. For a count that is not negative, every strategy returns exactly
    [min(count, T.length)] tokens; an empty token list gives the empty
    selection whatever the count. *)
Theorem selectBlanks_length (randomOrder : list Token.t -> list Token.t)
    (T : list Token.t) (count : Z) (s : jsstring) :
  (forall l, Permutation (randomOrder l) l) ->
  0 <= count ->
  Z.of_nat (length (selectBlanks randomOrder T count s)) =
    Z.min count (Z.of_nat (length T)) /\
  selectBlanks randomOrder [] count s = [].
Proof.
  intros Hp Hc. split; [|reflexivity].
  rewrite selectBlanks_size by assumption.
  destruct (count <? 0) eqn:C; lia.
Qed.

(** C2. Whatever the strategy, the selection comes back ordered by line
    index and, within a line, by position. *)
Theorem selectBlanks_sorted (randomOrder : list Token.t -> list Token.t)
    (T : list Token.t) (count : Z) (s : jsstring) :
  StronglySorted positionOrder (selectBlanks randomOrder T count s).
Proof.
  destruct T as [|w ws]; [constructor|].
  rewrite selectBlanks_selectedWords by discriminate.
  apply sort_byLinePosition.
Qed.

(** ** Lines: [split] and [join] *)

Lemma split_nonempty (s : jsstring) : split s <> [].
Proof.
  destruct s as [|c r]; simpl; [discriminate|].
  destruct (c =? LF); [discriminate|].
  destruct (split r); discriminate.
Qed.

Lemma split_no_LF (s : jsstring) : Forall (fun l => ~ In LF l) (split s).
Proof.
  induction s as [|c r IH]; simpl.
  - constructor; auto.
  - destruct (Z.eqb_spec c LF) as [E|E].
    + constructor; auto.
    + destruct (split r) as [|l ls]; constructor; auto.
      * simpl; intuition congruence.
      * inversion IH; subst. simpl; intuition congruence.
      * inversion IH; auto.
Qed.

Lemma split_line (l : jsstring) : ~ In LF l -> split l = [l].
Proof.
  induction l as [|c r IH]; simpl; intros H; auto.
  destruct (Z.eqb_spec c LF) as [E|E]; [tauto|].
  rewrite IH by tauto. reflexivity.
Qed.

Lemma split_app_LF (l rest : jsstring) :
  ~ In LF l -> split (l ++ LF :: rest) = l :: split rest.
Proof.
  induction l as [|c r IH]; simpl; intros H.
  - reflexivity.
  - destruct (Z.eqb_spec c LF) as [E|E]; [tauto|].
    rewrite IH by tauto. reflexivity.
Qed.

Lemma split_join (ls : list jsstring) :
  ls <> [] -> Forall (fun l => ~ In LF l) ls -> split (join ls) = ls.
Proof.
  induction ls as [|l rest IH]; intros Hne H; [congruence|].
  inversion H as [|? ? Hl Hrest]; subst.
  destruct rest as [|l' rest'].
  - simpl. apply split_line; assumption.
  - change (join (l :: l' :: rest')) with (l ++ LF :: join (l' :: rest')).
    rewrite split_app_LF by assumption.
    rewrite IH; auto. discriminate.
Qed.

Lemma join_split (s : jsstring) : join (split s) = s.
Proof.
  induction s as [|c r IH]; simpl; auto.
  destruct (Z.eqb_spec c LF) as [E|E].
  - pose proof (split_nonempty r) as Hne.
    destruct (split r) as [|l ls] eqn:Es; [congruence|].
    simpl in *. rewrite IH, E. reflexivity.
  - pose proof (split_nonempty r) as Hne.
    destruct (split r) as [|l ls] eqn:Es; [congruence|].
    destruct ls; simpl in *; rewrite <- IH; reflexivity.
Qed.

(** ** Encoder *)

Lemma digits_range (d : Decimal.uint) :
  Forall (fun c => 0x30 <= c <= 0x39) (digits d).
Proof. induction d; simpl; constructor; auto; lia. Qed.

Lemma decimal_nonempty (n : nat) : decimal n <> [].
Proof.
  unfold decimal, Nat.to_uint.
  assert (H : forall k d, d <> Decimal.Nil -> Nat.to_little_uint k d <> Decimal.Nil).
  { induction k; simpl; intros d Hd; auto.
    apply IHk. destruct d; discriminate. }
  assert (R : forall d acc, acc <> Decimal.Nil -> digits (Decimal.revapp d acc) <> []).
  { induction d; simpl; intros acc Ha;
      try (apply IHd; discriminate).
    destruct acc; simpl; congruence. }
  unfold Decimal.rev. specialize (H n (Decimal.D0 Decimal.Nil)).
  destruct (Nat.to_little_uint n (Decimal.D0 Decimal.Nil)) eqn:E;
    try (simpl; apply R; discriminate).
  exfalso; apply H; [discriminate|reflexivity].
Qed.

Lemma placeholder_no_LF (id : nat) : ~ In LF (placeholder id).
Proof.
  unfold placeholder. rewrite !in_app_iff. intros [H|[H|H]].
  - simpl in H. unfold LF in H. lia.
  - pose proof (digits_range (Nat.to_uint id)) as F.
    rewrite Forall_forall in F. apply F in H. unfold LF in H. lia.
  - simpl in H. unfold LF in H. lia.
Qed.

Lemma firstn_In {A : Type} (n : nat) (l : list A) (x : A) :
  In x (firstn n l) -> In x l.
Proof.
  intros H. rewrite <- (firstn_skipn n l). apply in_or_app; auto.
Qed.

Lemma skipn_In {A : Type} (n : nat) (l : list A) (x : A) :
  In x (skipn n l) -> In x l.
Proof.
  intros H. rewrite <- (firstn_skipn n l). apply in_or_app; auto.
Qed.

Lemma replaceBlank_no_LF (m : jsstring) (b : Blank) :
  ~ In LF m -> ~ In LF (replaceBlank m b).
Proof.
  intros Hm. unfold replaceBlank, substring, substringFrom.
  rewrite !in_app_iff. intros [H|[H|H]].
  - apply Hm. eapply skipn_In, firstn_In; eauto.
  - eapply placeholder_no_LF; eauto.
  - apply Hm. eapply skipn_In; eauto.
Qed.

Lemma fold_replaceBlank_no_LF (bs : list Blank) :
  forall m, ~ In LF m -> ~ In LF (fold_left replaceBlank bs m).
Proof.
  induction bs as [|b r IH]; simpl; intros m Hm; auto.
  apply IH, replaceBlank_no_LF; assumption.
Qed.

Lemma quizLine_no_LF (blanks : list Token.t) (line : jsstring) (i : Z) :
  ~ In LF line -> ~ In LF (quizLine blanks line i).
Proof.
  intros H. unfold quizLine.
  destruct (blanksMap blanks i); auto.
  apply fold_replaceBlank_no_LF; assumption.
Qed.

Lemma quizLines_nth (blanks : list Token.t) (lines : list jsstring) :
  forall k i,
    nth_error (quizLines blanks lines k) i =
    option_map (fun line => quizLine blanks line (k + Z.of_nat i))
      (nth_error lines i).
Proof.
  induction lines as [|l rest IH]; intros k [|i]; simpl; auto.
  - rewrite Z.add_0_r; reflexivity.
  - rewrite IH. replace (k + 1 + Z.of_nat i) with (k + Z.pos (Pos.of_succ_nat i)) by lia.
    reflexivity.
Qed.

Lemma quizLines_length (blanks : list Token.t) (lines : list jsstring) :
  forall k, length (quizLines blanks lines k) = length lines.
Proof. induction lines; simpl; intros k; auto. Qed.

Lemma quizLines_no_LF (blanks : list Token.t) (lines : list jsstring) :
  forall k, Forall (fun l => ~ In LF l) lines ->
            Forall (fun l => ~ In LF l) (quizLines blanks lines k).
Proof.
  induction lines as [|l rest IH]; simpl; intros k H; constructor;
    inversion H; subst; auto using quizLine_no_LF.
Qed.

(** The lines of the output are the rewritten lines of the input. *)
Lemma split_generateQuizLyrics (lyrics : jsstring) (blanks : list Token.t) :
  split (generateQuizLyrics lyrics blanks) = quizLines blanks (split lyrics) 0.
Proof.
  unfold generateQuizLyrics. apply split_join.
  - pose proof (split_nonempty lyrics) as H.
    destruct (split lyrics); [congruence|discriminate].
  - apply quizLines_no_LF, split_no_LF.
Qed.

(** C10. The encoder keeps the line structure: its output splits on the
    line feed into as many lines as its input. *)
Theorem generateQuizLyrics_line_count (lyrics : jsstring)
    (blanks : list Token.t) :
  length (split (generateQuizLyrics lyrics blanks)) = length (split lyrics).
Proof.
  rewrite split_generateQuizLyrics. apply quizLines_length.
Qed.

(** *** Lengths through the replacements *)

Lemma total_cons (f : Blank -> Z) (b : Blank) (l : list Blank) :
  total f (b :: l) = f b + total f l.
Proof. reflexivity. Qed.

Lemma total_perm (f : Blank -> Z) (l l' : list Blank) :
  Permutation l l' -> total f l = total f l'.
Proof. induction 1; rewrite ?total_cons; lia. Qed.

Lemma replaceBlank_length (m : jsstring) (b : Blank) :
  0 <= blankPosition b ->
  blankPosition b + wordLength b <= strlen m ->
  strlen (replaceBlank m b) = strlen m + placeholderLength b - wordLength b.
Proof.
  unfold blankPosition, wordLength, placeholderLength, replaceBlank,
    substring, substringFrom, clamp, strlen.
  intros H0 H1.
  rewrite !length_app, length_firstn, !length_skipn. simpl. lia.
Qed.

Lemma fold_replaceBlank_length (bs : list Blank) :
  forall m,
    safeOrder bs (strlen m) ->
    strlen (fold_left replaceBlank bs m) + total wordLength bs =
    strlen m + total placeholderLength bs.
Proof.
  induction bs as [|b r IH]; intros m [F P]; [simpl; lia|].
  inversion F as [|? ? [Hp He] Fr]; subst.
  inversion P as [|? ? Pb Pr]; subst.
  pose proof (replaceBlank_length m b Hp He) as L.
  assert (Hph : 0 <= placeholderLength b) by (unfold placeholderLength, strlen; lia).
  assert (Q : safeOrder r (strlen (replaceBlank m b))).
  { split; auto.
    rewrite Forall_forall in *. intros x Hx.
    destruct (Fr x Hx) as [Hx0 Hx1]. split; auto.
    destruct (Pb x Hx); lia. }
  specialize (IH _ Q). rewrite !total_cons. cbn [fold_left]. lia.
Qed.

Lemma pairs_of_sorted {A : Type} (S R : A -> A -> Prop) (l : list A) :
  StronglySorted S l -> NoDup l ->
  (forall a b, In a l -> In b l -> a <> b -> S a b -> R a b) ->
  ForallOrdPairs R l.
Proof.
  induction 1 as [|x l Hs IH F]; intros Hn H; constructor.
  - inversion Hn; subst. rewrite Forall_forall in *. intros y Hy.
    apply H; simpl; auto. intros ->; contradiction.
  - inversion Hn; subst. apply IH; auto.
    intros a b Ha Hb; apply H; simpl; auto.
Qed.

Lemma pairs_nth {A : Type} (R : A -> A -> Prop) (l : list A) :
  ForallOrdPairs R l ->
  forall i j a b, (i < j)%nat ->
    nth_error l i = Some a -> nth_error l j = Some b -> R a b.
Proof.
  induction 1 as [|x l F P IH]; intros i j a b Hij Hi Hj.
  - destruct i; discriminate.
  - destruct j as [|j]; [lia|]. simpl in Hj.
    destruct i as [|i]; simpl in Hi.
    + inversion Hi; subst. rewrite Forall_forall in F.
      apply F. eapply nth_error_In; eauto.
    + apply (IH i j a b); auto. lia.
Qed.

Lemma numbered_In (blanks : list Token.t) :
  forall k b,
    In b (numbered blanks k) <->
    (k <= blankId b)%nat /\ nth_error blanks (blankId b - k) = Some (token b).
Proof.
  induction blanks as [|t r IH]; intros k b; simpl.
  - split; [tauto|]. intros [_ H]. destruct (blankId b - k)%nat; discriminate.
  - rewrite IH. split.
    + intros [<-|[H1 H2]]; simpl.
      * rewrite Nat.sub_diag; auto.
      * split; [lia|]. replace (blankId b - k)%nat with (S (blankId b - S k)) by lia.
        assumption.
    + intros [H1 H2]. destruct (Nat.eq_dec (blankId b) k) as [E|E].
      * left. rewrite E, Nat.sub_diag in H2. simpl in H2.
        destruct b; simpl in *; congruence.
      * right. split; [lia|].
        replace (blankId b - k)%nat with (S (blankId b - S k)) in H2 by lia.
        assumption.
Qed.

Lemma numbered_ids (blanks : list Token.t) :
  forall k, map blankId (numbered blanks k) = seq k (length blanks).
Proof. induction blanks; simpl; intros k; f_equal; auto. Qed.

Lemma numbered_NoDup (blanks : list Token.t) (k : nat) :
  NoDup (numbered blanks k).
Proof.
  apply (NoDup_map_inv blankId). rewrite numbered_ids. apply seq_NoDup.
Qed.

Lemma blanksMap_In (blanks : list Token.t) (i : Z) (b : Blank) :
  In b (blanksMap blanks i) <->
  nth_error blanks (blankId b) = Some (token b) /\
  Token.lineIndex (token b) = i.
Proof.
  unfold blanksMap. rewrite filter_In, numbered_In, Z.eqb_eq, Nat.sub_0_r.
  intuition lia.
Qed.

(** Both branches of [quizLine] are the same fold: without an entry there
    is nothing to replace. *)
Lemma quizLine_fold (blanks : list Token.t) (line : jsstring) (i : Z) :
  quizLine blanks line i =
  fold_left replaceBlank (sort byPositionDesc (blanksMap blanks i)) line.
Proof. unfold quizLine. destruct (blanksMap blanks i); reflexivity. Qed.

Lemma strlen_nonneg (s : jsstring) : 0 <= strlen s.
Proof. unfold strlen; lia. Qed.

Lemma lineBlanks_safeOrder (lyrics : jsstring) (blanks : list Token.t)
    (i : nat) (line : jsstring) :
  nonOverlapping blanks -> spansInside lyrics blanks ->
  nth_error (split lyrics) i = Some line ->
  safeOrder (sort byPositionDesc (blanksMap blanks (Z.of_nat i))) (strlen line).
Proof.
  intros Hno Hin Hline.
  pose proof (sort_perm byPositionDesc (blanksMap blanks (Z.of_nat i))) as Hp.
  assert (Hmem : forall b, In b (sort byPositionDesc (blanksMap blanks (Z.of_nat i))) ->
                   nth_error blanks (blankId b) = Some (token b) /\
                   Token.lineIndex (token b) = Z.of_nat i).
  { intros b Hb. apply blanksMap_In. eapply Permutation_in; eauto. }
  split.
  - apply Forall_forall. intros b Hb. destruct (Hmem b Hb) as [Hn Hl].
    unfold spansInside in Hin. rewrite Forall_forall in Hin.
    destruct (Hin (token b)) as [line' [_ [Hn' [H0 H1]]]].
    { eapply nth_error_In; eauto. }
    rewrite Hl, Nat2Z.id, Hline in Hn'. inversion Hn'; subst.
    unfold blankPosition, wordLength. unfold spanEnd in H1. auto.
  - apply pairs_of_sorted
      with (S := fun a b => byPositionDesc a b <= 0).
    + apply sort_sorted; unfold byPositionDesc; intros; lia.
    + eapply Permutation_NoDup; [symmetry; exact Hp|].
      unfold blanksMap. apply NoDup_filter, numbered_NoDup.
    + intros a b Ha Hb Hab Hs.
      destruct (Hmem a Ha) as [Na La]. destruct (Hmem b Hb) as [Nb Lb].
      unfold byPositionDesc in Hs. unfold blankPosition, wordLength.
      pose proof (strlen_nonneg (Token.word (token a))) as Wa.
      destruct (Nat.lt_total (blankId a) (blankId b)) as [Hlt|[Heq|Hgt]].
      * right. pose proof (pairs_nth _ _ Hno _ _ _ _ Hlt Na Nb) as H.
        simpl in H. unfold spanEnd in H. specialize (H ltac:(congruence)). lia.
      * exfalso. apply Hab. destruct a, b; simpl in *. subst.
        rewrite Na in Nb. congruence.
      * left. pose proof (pairs_nth _ _ Hno _ _ _ _ Hgt Nb Na) as H.
        simpl in H. unfold spanEnd in H. specialize (H ltac:(congruence)). lia.
Qed.

(** C4. With position-sorted, non-overlapping blanks whose spans lie inside
    their lines, every output line gives back the length of the input line
    once each placeholder is counted with the length of the word it
    replaced: the characters outside the placeholders plus the lengths of
    the replaced words add up to the length of the original line. *)
Theorem generateQuizLyrics_line_length (lyrics : jsstring)
    (blanks : list Token.t) (i : nat) (line : jsstring) :
  StronglySorted positionOrder blanks ->
  nonOverlapping blanks ->
  spansInside lyrics blanks ->
  nth_error (split lyrics) i = Some line ->
  exists out,
    nth_error (split (generateQuizLyrics lyrics blanks)) i = Some out /\
    (strlen out - total placeholderLength (blanksMap blanks (Z.of_nat i)))
      + total wordLength (blanksMap blanks (Z.of_nat i)) = strlen line.
Proof.
  intros _ Hno Hin Hline.
  exists (quizLine blanks line (Z.of_nat i)). split.
  - rewrite split_generateQuizLyrics, quizLines_nth, Hline. reflexivity.
  - rewrite quizLine_fold.
    pose proof (lineBlanks_safeOrder lyrics blanks i line Hno Hin Hline) as Hs.
    apply fold_replaceBlank_length in Hs.
    pose proof (sort_perm byPositionDesc (blanksMap blanks (Z.of_nat i))) as Hp.
    rewrite (total_perm _ _ _ Hp) in Hs.
    rewrite (total_perm placeholderLength _ _ Hp) in Hs. lia.
Qed.

(** *** The rewritten line, read left to right *)

Lemma chained_bound (len : Z) (bs : list Blank) :
  forall from, chained len from bs -> 0 <= from <= len.
Proof.
  induction bs as [|b r IH]; simpl; intros from H; auto.
  destruct H as [H1 [H2 H3]]. apply IH in H3. lia.
Qed.

Lemma substring_prefix (s : jsstring) (a b : Z) :
  0 <= a <= b -> b <= strlen s ->
  firstn (Z.to_nat a) s ++ substring s a b = firstn (Z.to_nat b) s.
Proof.
  unfold substring, clamp, strlen. intros H1 H2.
  replace (Z.to_nat (Z.min (Z.max a 0) (Z.of_nat (length s)))) with (Z.to_nat a) by lia.
  replace (Z.to_nat (Z.min (Z.max b 0) (Z.of_nat (length s)))) with (Z.to_nat b) by lia.
  rewrite Nat.max_r, Nat.min_l by lia.
  rewrite <- (firstn_skipn (Z.to_nat a) (firstn (Z.to_nat b) s)).
  rewrite firstn_firstn, Nat.min_l by lia. f_equal.
  rewrite skipn_firstn_comm. reflexivity.
Qed.

Lemma substring_of_prefix (s rest : jsstring) (p e : Z) :
  0 <= p <= e -> e <= strlen s ->
  substring (firstn (Z.to_nat e) s ++ rest) 0 p = firstn (Z.to_nat p) s.
Proof.
  unfold substring, clamp, strlen. intros H1 H2.
  assert (L : length (firstn (Z.to_nat e) s) = Z.to_nat e)
    by (rewrite length_firstn; lia).
  rewrite length_app, L. simpl Z.max.
  replace (Z.to_nat (Z.min 0 _)) with 0%nat by lia.
  replace (Z.to_nat (Z.min (Z.max p 0) _)) with (Z.to_nat p) by lia.
  rewrite Nat.max_r, Nat.min_l, Nat.sub_0_r by lia. simpl skipn.
  rewrite firstn_app, L, firstn_firstn, Nat.min_l by lia.
  replace (Z.to_nat p - Z.to_nat e)%nat with 0%nat by lia.
  simpl. apply app_nil_r.
Qed.

Lemma substringFrom_after_prefix (s rest : jsstring) (e : Z) :
  0 <= e <= strlen s ->
  substringFrom (firstn (Z.to_nat e) s ++ rest) e = rest.
Proof.
  unfold substringFrom, clamp, strlen. intros H.
  assert (L : length (firstn (Z.to_nat e) s) = Z.to_nat e)
    by (rewrite length_firstn; lia).
  rewrite length_app, L.
  replace (Z.to_nat (Z.min (Z.max e 0) _)) with (Z.to_nat e) by lia.
  rewrite skipn_app, L, Nat.sub_diag. simpl.
  rewrite skipn_all2 by lia. reflexivity.
Qed.

Lemma fold_right_weave (line : jsstring) (bs : list Blank) :
  forall from,
    chained (strlen line) from bs ->
    fold_right (fun b m => replaceBlank m b) line bs =
    firstn (Z.to_nat from) line ++ weave line from bs.
Proof.
  induction bs as [|b r IH]; intros from H.
  - simpl in *. unfold substringFrom, clamp. unfold strlen in H.
    replace (Z.to_nat (Z.min (Z.max from 0) _)) with (Z.to_nat from) by lia.
    symmetry; apply firstn_skipn.
  - destruct H as [H1 [H2 H3]].
    pose proof (chained_bound _ _ _ H3) as B.
    cbn [fold_right weave]. rewrite (IH _ H3).
    unfold replaceBlank. fold (blankPosition b). fold (wordLength b).
    rewrite substringFrom_after_prefix by lia.
    rewrite substring_of_prefix by lia.
    rewrite <- (substring_prefix line from (blankPosition b)) by lia.
    rewrite <- app_assoc. reflexivity.
Qed.

Lemma fold_left_reversed {A B : Type} (f : A -> B -> A) (l : list B) (a : A) :
  fold_left f (rev l) a = fold_right (fun b m => f m b) a l.
Proof.
  induction l as [|x r IH]; simpl; auto.
  rewrite fold_left_app, IH. reflexivity.
Qed.

Lemma insert_last {A : Type} (cmp : A -> A -> Z) (x : A) (l : list A) :
  Forall (fun y => 0 < cmp x y) l -> insert cmp x l = l ++ [x].
Proof.
  induction 1 as [|y r H F IH]; simpl; auto.
  destruct (Z.leb_spec (cmp x y) 0); [lia|]. rewrite IH; reflexivity.
Qed.

(** Sorting a list whose elements all compare the wrong way round
    reverses it. *)
Lemma sort_reverses {A : Type} (cmp : A -> A -> Z) (l : list A) :
  ForallOrdPairs (fun a b => 0 < cmp a b) l -> sort cmp l = rev l.
Proof.
  induction 1 as [|x l F P IH]; simpl; auto.
  rewrite IH. apply insert_last.
  apply Forall_forall; intros y Hy. rewrite Forall_forall in F.
  apply F, in_rev; assumption.
Qed.

Lemma pairs_weaken {A : Type} (R Q : A -> A -> Prop) (l : list A) :
  ForallOrdPairs R l ->
  (forall a b, In a l -> In b l -> R a b -> Q a b) ->
  ForallOrdPairs Q l.
Proof.
  induction 1 as [|x l F P IH]; intros H; constructor.
  - rewrite Forall_forall in *. intros y Hy. apply H; simpl; auto.
  - apply IH. intros a b Ha Hb; apply H; simpl; auto.
Qed.

Lemma pairs_filter {A : Type} (R : A -> A -> Prop) (p : A -> bool)
    (l : list A) :
  ForallOrdPairs R l -> ForallOrdPairs R (filter p l).
Proof.
  induction 1 as [|x l F P IH]; simpl; [constructor|].
  destruct (p x); auto. constructor; auto.
  rewrite Forall_forall in *. intros y Hy.
  apply filter_In in Hy. apply F; tauto.
Qed.

Lemma numbered_pairs (R : Token.t -> Token.t -> Prop) (blanks : list Token.t) :
  ForallOrdPairs R blanks ->
  forall k, ForallOrdPairs (fun a b => R (token a) (token b)) (numbered blanks k).
Proof.
  induction 1 as [|x l F P IH]; intros k; simpl; constructor; auto.
  rewrite Forall_forall in *. intros y Hy. simpl.
  apply numbered_In in Hy as [_ Hy]. apply F. eapply nth_error_In; eauto.
Qed.

Lemma chained_intro (len : Z) (bs : list Blank) :
  Forall (fun b => 0 < wordLength b /\
                   blankPosition b + wordLength b <= len) bs ->
  ForallOrdPairs
    (fun a b => blankPosition a + wordLength a <= blankPosition b) bs ->
  forall from,
    0 <= from <= len -> Forall (fun b => from <= blankPosition b) bs ->
    chained len from bs.
Proof.
  induction bs as [|b r IH]; intros F P from H0 Hf; simpl; auto.
  inversion F as [|? ? [Hw He] Fr]; subst.
  inversion P as [|? ? Pb Pr]; subst.
  inversion Hf as [|? ? Hb Hr]; subst.
  repeat split; try lia. apply IH; auto. lia.
Qed.

(** With non-overlapping blanks of non-empty words inside their lines, a
    rewritten line is the original line with each span replaced, in place,
    by the placeholder of its blank. *)
Lemma quizLine_weave (lyrics : jsstring) (blanks : list Token.t)
    (i : nat) (line : jsstring) :
  nonOverlapping blanks -> spansInside lyrics blanks ->
  Forall (fun t => 0 < strlen (Token.word t)) blanks ->
  nth_error (split lyrics) i = Some line ->
  quizLine blanks line (Z.of_nat i) =
  weave line 0 (blanksMap blanks (Z.of_nat i)).
Proof.
  intros Hno Hin Hw Hline. rewrite quizLine_fold.
  set (A := blanksMap blanks (Z.of_nat i)).
  assert (Hmem : forall b, In b A ->
            0 < wordLength b /\ 0 <= blankPosition b /\
            blankPosition b + wordLength b <= strlen line).
  { intros b Hb. apply blanksMap_In in Hb as [Hn Hl].
    pose proof (nth_error_In _ _ Hn) as Ht.
    unfold spansInside in Hin. rewrite Forall_forall in Hin, Hw.
    destruct (Hin _ Ht) as [line' [_ [Hn' [H0 H1]]]].
    rewrite Hl, Nat2Z.id, Hline in Hn'. inversion Hn'; subst.
    unfold wordLength, blankPosition. unfold spanEnd in H1.
    split; [apply Hw; assumption|]. auto. }
  assert (Hp : ForallOrdPairs
            (fun a b => blankPosition a + wordLength a <= blankPosition b) A).
  { eapply pairs_weaken.
    - unfold A, blanksMap. apply pairs_filter, numbered_pairs. exact Hno.
    - intros a b Ha Hb H. simpl in H.
      apply blanksMap_In in Ha as [_ La]. apply blanksMap_In in Hb as [_ Lb].
      apply H. congruence. }
  rewrite sort_reverses.
  - rewrite fold_left_reversed.
    rewrite (fold_right_weave line A 0); [reflexivity|].
    apply chained_intro; auto.
    + apply Forall_forall. intros b Hb. destruct (Hmem b Hb); tauto.
    + pose proof (strlen_nonneg line). lia.
    + apply Forall_forall. intros b Hb. destruct (Hmem b Hb); tauto.
  - eapply pairs_weaken; [exact Hp|].
    intros a b Ha Hb H. unfold byPositionDesc.
    destruct (Hmem a Ha) as [Wa _].
    unfold blankPosition, wordLength in *. lia.
Qed.

(** *** The placeholder *)

Lemma digits_value (d : Decimal.uint) :
  forall acc : nat,
    fold_left (fun a c => 10 * a + (c - 0x30)) (digits d) (Z.of_nat acc) =
    Z.of_nat (Nat.of_uint_acc d acc).
Proof.
  induction d; intros acc; cbn [digits fold_left Nat.of_uint_acc]; auto;
    rewrite <- IHd; f_equal; rewrite Nat.tail_mul_spec; lia.
Qed.

Lemma decimal_value (n : nat) : decimalValue (decimal n) = Z.of_nat n.
Proof.
  unfold decimalValue, decimal.
  pose proof (digits_value (Nat.to_uint n) 0) as H.
  change (Z.of_nat 0) with 0 in H. rewrite H.
  change (Nat.of_uint_acc (Nat.to_uint n) 0) with (Nat.of_uint (Nat.to_uint n)).
  rewrite DecimalNat.Unsigned.of_to. reflexivity.
Qed.

Lemma replaceBlank_in_place (m : jsstring) (b : Blank) :
  0 <= blankPosition b ->
  blankPosition b + wordLength b <= strlen m ->
  replaceBlank m b =
  firstn (Z.to_nat (blankPosition b)) m ++ placeholder (blankId b) ++
  skipn (Z.to_nat (blankPosition b + wordLength b)) m.
Proof.
  unfold blankPosition, wordLength, replaceBlank, substring, substringFrom,
    clamp, strlen.
  intros H0 H1.
  pose proof (Nat2Z.is_nonneg (length (Token.word (token b)))) as W.
  replace (Z.to_nat (Z.min (Z.max 0 0) _)) with 0%nat by lia.
  replace (Z.to_nat (Z.min (Z.max (Token.position (token b)) 0) _))
    with (Z.to_nat (Token.position (token b))) by lia.
  replace (Z.to_nat (Z.min (Z.max (Token.position (token b) +
             Z.of_nat (length (Token.word (token b)))) 0) _))
    with (Z.to_nat (Token.position (token b) +
             Z.of_nat (length (Token.word (token b))))) by lia.
  rewrite Nat.max_r, Nat.min_l, Nat.sub_0_r by lia. reflexivity.
Qed.

Lemma quizLine_untouched (blanks : list Token.t) (line : jsstring) (i : Z) :
  (forall t, In t blanks -> Token.lineIndex t <> i) ->
  quizLine blanks line i = line.
Proof.
  intros H. unfold quizLine.
  destruct (blanksMap blanks i) as [|b r] eqn:E; [reflexivity|].
  assert (Hb : In b (blanksMap blanks i)) by (rewrite E; left; reflexivity).
  apply blanksMap_In in Hb as [Hn Hl].
  exfalso. eapply H; eauto. eapply nth_error_In; eauto.
Qed.

Lemma quizLine_descending (blanks : list Token.t) (line : jsstring) (i : Z) :
  exists lineBlanks,
    Permutation lineBlanks (blanksMap blanks i) /\
    StronglySorted (fun a b => blankPosition b <= blankPosition a) lineBlanks /\
    quizLine blanks line i = fold_left replaceBlank lineBlanks line.
Proof.
  exists (sort byPositionDesc (blanksMap blanks i)).
  split; [apply sort_perm|]. split; [|apply quizLine_fold].
  rewrite <- (map_id (sort byPositionDesc (blanksMap blanks i))).
  eapply StronglySorted_map_intro;
    [|apply sort_sorted; unfold byPositionDesc; intros; lia].
  unfold byPositionDesc, blankPosition. simpl; intros; lia.
Qed.

(** C5. The encoder rewrites the text line by line and rejoins the lines
    with the line feed; a line without a blank is returned as it is; on a
    line with blanks they are processed by descending position, each step
    replacing the span [position, position + word.length) by the
    placeholder: five underscores, the decimal index of the blank in the
    list, five underscores.  With non-overlapping spans of non-empty words
    the placeholders end up in place of the words in the original line. *)
Theorem generateQuizLyrics_spec :
  (forall lyrics blanks,
      generateQuizLyrics lyrics blanks =
      join (quizLines blanks (split lyrics) 0)) /\
  (forall lyrics blanks i line,
      nth_error (split lyrics) i = Some line ->
      nth_error (split (generateQuizLyrics lyrics blanks)) i =
        Some (quizLine blanks line (Z.of_nat i))) /\
  (forall lyrics, generateQuizLyrics lyrics [] = lyrics) /\
  (forall blanks line i,
      (forall t, In t blanks -> Token.lineIndex t <> i) ->
      quizLine blanks line i = line) /\
  (forall blanks line i,
      exists lineBlanks,
        Permutation lineBlanks (blanksMap blanks i) /\
        StronglySorted (fun a b => blankPosition b <= blankPosition a)
          lineBlanks /\
        quizLine blanks line i = fold_left replaceBlank lineBlanks line) /\
  (forall blanks i b,
      In b (blanksMap blanks i) <->
      nth_error blanks (blankId b) = Some (token b) /\
      Token.lineIndex (token b) = i) /\
  (forall m b,
      0 <= blankPosition b -> blankPosition b + wordLength b <= strlen m ->
      replaceBlank m b =
      firstn (Z.to_nat (blankPosition b)) m ++ placeholder (blankId b) ++
      skipn (Z.to_nat (blankPosition b + wordLength b)) m) /\
  (forall id,
      placeholder id = repeat 0x5F 5 ++ decimal id ++ repeat 0x5F 5 /\
      decimal id <> [] /\
      Forall (fun c => 0x30 <= c <= 0x39) (decimal id) /\
      decimalValue (decimal id) = Z.of_nat id) /\
  (forall lyrics blanks i line,
      nonOverlapping blanks -> spansInside lyrics blanks ->
      Forall (fun t => 0 < strlen (Token.word t)) blanks ->
      nth_error (split lyrics) i = Some line ->
      quizLine blanks line (Z.of_nat i) =
      weave line 0 (blanksMap blanks (Z.of_nat i))).
Proof.
  split; [reflexivity|].
  split.
  { intros lyrics blanks i line H.
    rewrite split_generateQuizLyrics, quizLines_nth, H. reflexivity. }
  split.
  { intros lyrics. unfold generateQuizLyrics.
    rewrite <- (join_split lyrics) at 2. f_equal.
    generalize 0. induction (split lyrics) as [|l r IH]; intros k; simpl; auto.
    rewrite IH. f_equal. }
  split; [exact quizLine_untouched|].
  split; [exact quizLine_descending|].
  split; [exact blanksMap_In|].
  split; [exact replaceBlank_in_place|].
  split; [|exact quizLine_weave].
  intros id. split; [reflexivity|]. split; [apply decimal_nonempty|].
  split; [apply digits_range|apply decimal_value].
Qed.

(** ** The end-to-end scenario *)

Lemma selectBlanks_length_witness :
  Z.of_nat (length (selectBlanks (@rev Token.t) (extractWords amazingGrace) 2
                      (str "random"))) =
    Z.min 2 (Z.of_nat (length (extractWords amazingGrace))) /\
  selectBlanks (@rev Token.t) [] 2 (str "random") = [].
Proof.
  apply (selectBlanks_length (@rev Token.t)).
  - intros l. symmetry. apply Permutation_rev.
  - lia.
Defined.

Lemma generateQuizLyrics_line_length_witness :
  exists out,
    nth_error (split (generateQuizLyrics amazingGrace graceBlanks)) 0 = Some out /\
    (strlen out - total placeholderLength (blanksMap graceBlanks (Z.of_nat 0)))
      + total wordLength (blanksMap graceBlanks (Z.of_nat 0)) =
    strlen (str "Amazing grace how sweet the sound").
Proof.
  apply (generateQuizLyrics_line_length amazingGrace graceBlanks 0
           (str "Amazing grace how sweet the sound")).
  - unfold graceBlanks.
    apply SSorted_cons; [apply SSorted_cons; [apply SSorted_nil|apply Forall_nil]|].
    apply Forall_cons; [|apply Forall_nil].
    right; simpl; lia.
  - unfold nonOverlapping, graceBlanks.
    apply FOP_cons; [|apply FOP_cons; [apply Forall_nil|apply FOP_nil]].
    apply Forall_cons; [|apply Forall_nil].
    intros _; vm_compute; discriminate.
  - unfold spansInside, graceBlanks.
    apply Forall_cons; [|apply Forall_cons; [|apply Forall_nil]];
      exists (str "Amazing grace how sweet the sound");
      (split; [simpl; lia|]); (split; [reflexivity|]);
      split; vm_compute; discriminate.
  - reflexivity.
Defined.

(** C3 as the specification words it, with "sound" as the second word
    picked, fails:
    the stable sort by length puts "grace" before "sound". *)
Lemma important_does_not_pick_sound :
  map Token.word
    (selectBlanks (fun l => l) (extractWords amazingGrace) 2 (str "important"))
  <> [str "Amazing"; str "sound"].
Proof. vm_compute. discriminate. Qed.

(** C3 (amended). On "Amazing grace how sweet the sound" the important
    strategy orders the tokens by length, longest first, equal lengths in
    their original order: Amazing, grace, sweet, sound, how; with count 2 it
    picks "Amazing" and "grace", and the quiz text carries the two
    placeholders numbered 0 and 1 in that order. *)
Theorem important_scenario (randomOrder : list Token.t -> list Token.t) :
  map Token.word (sort byLength (extractWords amazingGrace)) =
    [str "Amazing"; str "grace"; str "sweet"; str "sound"; str "how"] /\
  selectBlanks randomOrder (extractWords amazingGrace) 2 (str "important") =
    graceBlanks /\
  generateQuizLyrics amazingGrace graceBlanks =
    str "_____0_____ _____1_____ how sweet the sound" ++ [LF].
Proof. repeat split; reflexivity. Qed.

(** C9 as the specification words it fails for the count: with count -1
    the call
    returns, and what it returns is not empty. *)
Lemma negative_count_returns_selection :
  selectBlanksCall (fun l => l) (extractWords amazingGrace) (-1)
    (str "important") =
  Returned [ Token.mk (str "Amazing") 0 0 7; Token.mk (str "grace") 0 8 5;
             Token.mk (str "sweet") 0 18 5; Token.mk (str "sound") 0 28 5 ].
Proof. reflexivity. Qed.

(** C9 (amended). On strings and token lists the three functions return;
    text that is not a string makes [extractWords] and [generateQuizLyrics]
    raise a TypeError; a negative count is not rejected: [selectBlanks]
    returns, in position order, the [max(0, T.length + count)] tokens that
    [slice(0, count)] keeps. *)
Theorem calls_outcome :
  (forall s, extractWordsCall (VString s) = Returned (extractWords s)) /\
  (forall s blanks,
      generateQuizLyricsCall (VString s) blanks =
      Returned (generateQuizLyrics s blanks)) /\
  (forall randomOrder words count strategy,
      exists r, selectBlanksCall randomOrder words count strategy = Returned r) /\
  (forall v blanks,
      isString v = false ->
      extractWordsCall v = Raised TypeError /\
      generateQuizLyricsCall v blanks = Raised TypeError) /\
  (forall randomOrder words count strategy,
      (forall l, Permutation (randomOrder l) l) ->
      count < 0 ->
      exists r,
        selectBlanksCall randomOrder words count strategy = Returned r /\
        Z.of_nat (length r) = Z.max 0 (Z.of_nat (length words) + count) /\
        StronglySorted positionOrder r).
Proof.
  split; [reflexivity|]. split; [reflexivity|].
  split; [intros; eexists; reflexivity|].
  split.
  - intros v blanks H. destruct v; try discriminate; split; reflexivity.
  - intros randomOrder words count strategy Hp Hc.
    eexists. split; [reflexivity|]. split; [|apply selectBlanks_sorted].
    rewrite selectBlanks_size by assumption.
    destruct (count <? 0) eqn:E; lia.
Qed.

(** * Further properties of the pipeline *)

(** ** Spans of the tokens *)

Lemma matchRun_prefix (s : jsstring) :
  forall m, matchRun s = Some m ->
    m <> [] /\ (exists rest, s = m ++ rest) /\ forallb inWordClass m = true.
Proof.
  induction s as [|c r IH]; intros m H; cbn [matchRun] in H; [discriminate|].
  destruct (inWordClass c) eqn:Hc; [|discriminate].
  destruct (matchRun r) as [m'|] eqn:Hr.
  - inversion H; subst. destruct (IH m' eq_refl) as [_ [[rest E] F]].
    split; [discriminate|]. split.
    + exists rest. rewrite E at 1. reflexivity.
    + simpl. rewrite Hc, F. reflexivity.
  - destruct (wordBoundary (isWordChar c) r); [|discriminate].
    inversion H; subst. split; [discriminate|]. split.
    + exists r. reflexivity.
    + simpl. rewrite Hc. reflexivity.
Qed.

(** Every match is a piece of the line, found at its index, and a match
    starts at or after the end of the one before. *)
Lemma matchAllFrom_spans (s : jsstring) :
  forall prevWord pos skip pre,
    strlen pre = pos ->
    Forall (fun m =>
              pos + Z.of_nat skip <= index m /\
              matched m <> [] /\
              forallb inWordClass (matched m) = true /\
              exists a b, pre ++ s = a ++ matched m ++ b /\ strlen a = index m)
           (matchAllFrom prevWord pos skip s) /\
    StronglySorted (fun a b => index a + strlen (matched a) <= index b)
      (matchAllFrom prevWord pos skip s).
Proof.
  induction s as [|c r IH]; intros prevWord pos skip pre Hpre;
    cbn [matchAllFrom].
  - split; constructor.
  - assert (Hpre' : strlen (pre ++ [c]) = pos + 1).
    { unfold strlen in *. rewrite length_app. simpl. lia. }
    assert (step : forall k,
      (pos + 1 + Z.of_nat k >= pos + Z.of_nat skip) ->
      Forall (fun m =>
                pos + Z.of_nat skip <= index m /\
                matched m <> [] /\
                forallb inWordClass (matched m) = true /\
                exists a b, pre ++ c :: r = a ++ matched m ++ b /\
                            strlen a = index m)
             (matchAllFrom (isWordChar c) (pos + 1) k r) /\
      StronglySorted (fun a b => index a + strlen (matched a) <= index b)
        (matchAllFrom (isWordChar c) (pos + 1) k r)).
    { intros k Hk.
      destruct (IH (isWordChar c) (pos + 1) k (pre ++ [c]) Hpre') as [F S].
      split; auto. eapply Forall_impl; [|exact F].
      intros m [H1 [H2 [H3 [a [b [E L]]]]]]. repeat split; auto; [lia|].
      exists a, b. rewrite <- app_assoc in E. auto. }
    destruct skip as [|k]; [|apply step; lia].
    destruct (wordBoundary prevWord (c :: r)); [|apply step; lia].
    destruct (matchRun (c :: r)) as [w|] eqn:Hw; [|apply step; lia].
    destruct (matchRun_prefix _ _ Hw) as [Hne [[rest E] Hcl]].
    destruct (step (length w - 1)%nat ltac:(lia)) as [F S].
    assert (Hlen : (1 <= length w)%nat) by (destruct w; [congruence|simpl; lia]).
    split; constructor; simpl; auto.
    + repeat split; auto; [lia|]. exists pre, rest. rewrite E. auto.
    + destruct (IH (isWordChar c) (pos + 1) (length w - 1)%nat (pre ++ [c]) Hpre')
        as [F' _].
      eapply Forall_impl; [|exact F']. simpl.
      intros m [H1 _]. unfold strlen. lia.
Qed.

Lemma substring_middle (a w b : jsstring) :
  substring (a ++ w ++ b) (strlen a) (strlen a + strlen w) = w.
Proof.
  unfold substring, clamp, strlen. rewrite !length_app.
  replace (Z.to_nat (Z.min (Z.max (Z.of_nat (length a)) 0) _))
    with (length a) by lia.
  replace (Z.to_nat (Z.min (Z.max (Z.of_nat (length a) + Z.of_nat (length w)) 0) _))
    with (length a + length w)%nat by lia.
  rewrite Nat.max_r, Nat.min_l by lia.
  replace (length a + length w - length a)%nat with (length w) by lia.
  rewrite skipn_app, Nat.sub_diag, skipn_all. simpl.
  rewrite firstn_app, Nat.sub_diag, firstn_all. simpl. apply app_nil_r.
Qed.

Lemma lineWords_tokenOfLine (line : jsstring) (i : Z) :
  Forall (tokenOfLine line) (lineWords line i).
Proof.
  apply Forall_forall. intros t Ht.
  apply lineWords_In in Ht as [_ [m [Hm [Hk ->]]]].
  apply keepMatch_spec in Hk as [Hk _].
  destruct (matchAllFrom_spans line false 0 0 [] eq_refl) as [F _].
  rewrite Forall_forall in F.
  destruct (F m Hm) as [H0 [_ [Hc [a [b [E L]]]]]]. simpl in E.
  unfold tokenOfLine, tokenOf; simpl.
  repeat split; auto; try lia.
  - rewrite E. unfold strlen in *. rewrite !length_app. lia.
  - rewrite <- L, E. apply substring_middle.
Qed.

Lemma pairs_app {A : Type} (R : A -> A -> Prop) (l1 l2 : list A) :
  ForallOrdPairs R l1 -> ForallOrdPairs R l2 ->
  (forall a b, In a l1 -> In b l2 -> R a b) ->
  ForallOrdPairs R (l1 ++ l2).
Proof.
  induction 1 as [|x l F P IH]; simpl; intros P2 H; auto.
  constructor.
  - apply Forall_app; split; auto.
    apply Forall_forall; intros y Hy; apply H; auto.
  - apply IH; auto.
Qed.

Lemma pairs_of_StronglySorted {A : Type} (R : A -> A -> Prop) (l : list A) :
  StronglySorted R l -> ForallOrdPairs R l.
Proof. induction 1; constructor; auto. Qed.

Lemma lineWords_apart (line : jsstring) (i : Z) :
  ForallOrdPairs (fun a b => spanEnd a <= Token.position b) (lineWords line i).
Proof.
  unfold lineWords. destruct (skipLine line); [constructor|].
  apply pairs_of_StronglySorted.
  apply StronglySorted_map_intro
    with (R := fun a b => index a + strlen (matched a) <= index b).
  - intros a b H. unfold spanEnd, tokenOf; simpl. exact H.
  - apply StronglySorted_filter_keep.
    apply (matchAllFrom_spans line false 0 0 [] eq_refl).
Qed.

Lemma extractLines_apart (lines : list jsstring) :
  forall k, nonOverlapping (extractLines lines k).
Proof.
  unfold nonOverlapping.
  induction lines as [|l rest IH]; intros k; simpl; [constructor|].
  apply pairs_app; auto.
  - eapply pairs_weaken; [apply lineWords_apart|]. simpl; auto.
  - intros a b Ha Hb Hl. exfalso.
    apply lineWords_lineIndex in Ha.
    apply extractLines_In in Hb as [j [line [_ Hb]]].
    apply lineWords_lineIndex in Hb. lia.
Qed.

Lemma extractWords_tokens (lyrics : jsstring) :
  Forall (fun t => exists i line,
              Token.lineIndex t = Z.of_nat i /\
              nth_error (split lyrics) i = Some line /\
              tokenOfLine line t)
         (extractWords lyrics).
Proof.
  apply Forall_forall. intros t Ht. unfold extractWords in Ht.
  apply extractLines_In in Ht as [i [line [Hn Ht]]]. simpl in Ht.
  exists i, line. split; [eapply lineWords_lineIndex; eauto|].
  split; auto.
  pose proof (lineWords_tokenOfLine line (Z.of_nat i)) as F.
  rewrite Forall_forall in F. auto.
Qed.

Lemma extractWords_spansInside (lyrics : jsstring) :
  spansInside lyrics (extractWords lyrics).
Proof.
  unfold spansInside. eapply Forall_impl; [|apply extractWords_tokens].
  intros t [i [line [Hi [Hn [H0 [Hl [_ [He _]]]]]]]].
  exists line. rewrite Hi, Nat2Z.id. unfold spanEnd. rewrite <- Hl.
  repeat split; auto; lia.
Qed.

(** ** What the selector picks *)

Lemma slice0_prefix {A : Type} (l : list A) (count : Z) :
  exists rest, slice0 l count ++ rest = l.
Proof. unfold slice0. eexists. apply firstn_skipn. Qed.

Lemma sorted_app_cross {A : Type} (R : A -> A -> Prop) (l1 l2 : list A) :
  StronglySorted R (l1 ++ l2) ->
  forall a b, In a l1 -> In b l2 -> R a b.
Proof.
  induction l1 as [|x l1 IH]; simpl; intros S a b Ha Hb; [tauto|].
  inversion S as [|? ? S' F]; subst. destruct Ha as [<-|Ha].
  - rewrite Forall_forall in F. apply F, in_or_app; auto.
  - eapply IH; eauto.
Qed.

(** A strategy that ranks with a comparator keeps a prefix of the ranking:
    what it leaves out does not rank before what it keeps. *)
Lemma ranked_selection (cmp : Token.t -> Token.t -> Z)
    (words : list Token.t) (count : Z) :
  (forall a b, cmp a b <= 0 \/ cmp b a <= 0) ->
  (forall a b c, cmp a b <= 0 -> cmp b c <= 0 -> cmp a c <= 0) ->
  exists rest,
    Permutation (slice0 (sort cmp words) count ++ rest) words /\
    forall t u, In t (slice0 (sort cmp words) count) -> In u rest ->
                cmp t u <= 0.
Proof.
  intros Htot Htrans.
  destruct (slice0_prefix (sort cmp words) count) as [rest E].
  exists rest. split.
  - rewrite E. apply sort_perm.
  - apply (sorted_app_cross (fun a b => cmp a b <= 0)).
    rewrite E. apply sort_sorted; assumption.
Qed.

Lemma selectedWords_part (randomOrder : list Token.t -> list Token.t)
    (words : list Token.t) (count : Z) (strategy : jsstring) :
  (forall l, Permutation (randomOrder l) l) ->
  exists rest,
    Permutation (selectedWords randomOrder words count strategy ++ rest) words.
Proof.
  intros Hp. unfold selectedWords.
  destruct (jsstring_eqb strategy (str "important"));
    [|destruct (jsstring_eqb strategy (str "frequent"));
      [cbv zeta; destruct (allCounted (frequencyOf words) words)|]].
  - destruct (slice0_prefix (sort byLength words) count) as [rest E].
    exists rest. rewrite E. apply sort_perm.
  - destruct (slice0_prefix
                (sort (byFrequency (frequencyOf words)) words) count) as [rest E].
    exists rest. rewrite E. apply sort_perm.
  - destruct (slice0_prefix (randomOrder words) count) as [rest E].
    exists rest. rewrite E. apply Hp.
  - destruct (slice0_prefix (randomOrder words) count) as [rest E].
    exists rest. rewrite E. apply Hp.
Qed.

Lemma selectBlanks_part (randomOrder : list Token.t -> list Token.t)
    (words : list Token.t) (count : Z) (strategy : jsstring) :
  (forall l, Permutation (randomOrder l) l) ->
  exists rest,
    Permutation (selectBlanks randomOrder words count strategy ++ rest) words.
Proof.
  intros Hp. destruct words as [|w ws].
  - exists []. reflexivity.
  - rewrite selectBlanks_selectedWords by discriminate.
    destruct (selectedWords_part randomOrder (w :: ws) count strategy Hp)
      as [rest E].
    exists rest. eapply Permutation_trans; [|exact E].
    apply Permutation_app_tail, sort_perm.
Qed.

(** ** The frequency table *)

Lemma lookup_bump_other (f : FrequencyTable) (k key : jsstring) :
  jsstring_eqb k key = false -> lookup (bump f k) key = lookup f key.
Proof.
  intros H. induction f as [|[k' v] r IH]; simpl.
  - rewrite H. reflexivity.
  - destruct (jsstring_eqb k' k) eqn:E; simpl.
    + apply jsstring_eqb_eq in E; subst k'. rewrite H. reflexivity.
    + destruct (jsstring_eqb k' key); [reflexivity|exact IH].
Qed.

Lemma lookup_bump_same (f : FrequencyTable) (key : jsstring) :
  lookup f key <> Some NotANumber ->
  lookup (bump f key) key = Some (Count (countAt f key + 1)).
Proof.
  unfold countAt. induction f as [|[k' v] r IH]; simpl; intros H.
  - rewrite jsstring_eqb_refl. reflexivity.
  - destruct (jsstring_eqb k' key) eqn:E; simpl; rewrite E.
    + destruct v; [reflexivity|congruence].
    + apply IH, H.
Qed.

Lemma occurrences_nonneg (words : list Token.t) (key : jsstring) :
  0 <= occurrences words key.
Proof. unfold occurrences. lia. Qed.

Lemma occurrences_cons (w : Token.t) (ws : list Token.t) (key : jsstring) :
  occurrences (w :: ws) key =
  (if jsstring_eqb (toLowerCase (Token.word w)) key then 1 else 0) +
  occurrences ws key.
Proof.
  unfold occurrences. cbn [filter].
  destruct (jsstring_eqb (toLowerCase (Token.word w)) key); simpl length; lia.
Qed.

Lemma frequency_fold (words : list Token.t) :
  forall f key,
    lookup f key <> Some NotANumber ->
    lookup (fold_left (fun f w => bump f (toLowerCase (Token.word w))) words f)
      key =
    if occurrences words key =? 0 then lookup f key
    else Some (Count (countAt f key + occurrences words key)).
Proof.
  induction words as [|w ws IH]; intros f key Hf; cbn [fold_left].
  - reflexivity.
  - rewrite occurrences_cons.
    pose proof (occurrences_nonneg ws key) as Hn.
    destruct (jsstring_eqb (toLowerCase (Token.word w)) key) eqn:E.
    + apply jsstring_eqb_eq in E. rewrite E.
      pose proof (lookup_bump_same f key Hf) as Hb.
      rewrite IH by (rewrite Hb; discriminate).
      assert (Hc : countAt (bump f key) key = countAt f key + 1).
      { unfold countAt at 1. rewrite Hb. reflexivity. }
      rewrite Hb, Hc.
      destruct (occurrences ws key =? 0) eqn:Z0;
        destruct (1 + occurrences ws key =? 0) eqn:Z1; try lia;
        do 2 f_equal; lia.
    + rewrite IH by (rewrite lookup_bump_other by exact E; exact Hf).
      unfold countAt. rewrite lookup_bump_other by exact E.
      reflexivity.
Qed.

Lemma lookup_emptyObject (key : jsstring) :
  inheritedName key = false -> lookup emptyObject key = None.
Proof.
  unfold inheritedName, emptyObject. intros H.
  apply orb_false_iff in H. destruct H as [H1 H2].
  cbn [lookup]. rewrite H1, H2. reflexivity.
Qed.

Lemma occurrences_member (words : list Token.t) (w : Token.t) :
  In w words -> 0 < occurrences words (toLowerCase (Token.word w)).
Proof.
  intros H. unfold occurrences.
  assert (I : In w (filter (fun t => jsstring_eqb (toLowerCase (Token.word t))
                                       (toLowerCase (Token.word w))) words)).
  { apply filter_In. split; [exact H|apply jsstring_eqb_refl]. }
  destruct (filter _ words); [destruct I|simpl length; lia].
Qed.

(** For a word that names no inherited member the table holds the number
    of tokens with that lower-cased word. *)
Lemma frequencyAt_occurrences (words : list Token.t) (w : Token.t) :
  inheritedName (toLowerCase (Token.word w)) = false ->
  In w words ->
  frequencyAt (frequencyOf words) w =
  Some (occurrences words (toLowerCase (Token.word w))).
Proof.
  intros Hi Hw. unfold frequencyAt, frequencyOf.
  pose proof (lookup_emptyObject _ Hi) as He.
  rewrite frequency_fold by (rewrite He; discriminate).
  pose proof (occurrences_member words w Hw) as Hp.
  destruct (occurrences words (toLowerCase (Token.word w)) =? 0) eqn:Z0; [lia|].
  unfold countAt. rewrite He. reflexivity.
Qed.

Lemma countedToken_name (t : Token.t) :
  countedToken t = true -> inheritedName (toLowerCase (Token.word t)) = false.
Proof.
  unfold countedToken. intros H. apply andb_true_iff in H.
  destruct H as [_ H]. apply negb_true_iff in H. exact H.
Qed.

Lemma allCounted_counted (T : list Token.t) :
  forallb countedToken T = true -> allCounted (frequencyOf T) T = true.
Proof.
  intros H. unfold allCounted. apply forallb_forall. intros w Hw.
  rewrite forallb_forall in H.
  rewrite frequencyAt_occurrences; auto using countedToken_name.
Qed.

Lemma insert_ext_in {A : Type} (cmp cmp' : A -> A -> Z) (x : A) (l : list A) :
  (forall y, In y l -> cmp x y = cmp' x y) ->
  insert cmp x l = insert cmp' x l.
Proof.
  induction l as [|y r IH]; intros H; cbn [insert]; [reflexivity|].
  rewrite (H y) by (left; reflexivity).
  rewrite IH by (intros z Hz; apply H; right; exact Hz). reflexivity.
Qed.

Lemma sort_ext_in {A : Type} (cmp cmp' : A -> A -> Z) (l : list A) :
  (forall a b, In a l -> In b l -> cmp a b = cmp' a b) ->
  sort cmp l = sort cmp' l.
Proof.
  induction l as [|x r IH]; intros H; cbn [sort]; [reflexivity|].
  rewrite IH by (intros a b Ha Hb; apply H; right; assumption).
  apply insert_ext_in. intros y Hy. apply H; [left; reflexivity|right].
  eapply Permutation_in; [apply sort_perm|exact Hy].
Qed.

(** ** Stability of the ranking *)

Lemma insert_filter {A : Type} (cmp : A -> A -> Z) (p : A -> bool)
    (x : A) (l : list A) :
  (forall a b, p a = true -> p b = true -> cmp a b <= 0) ->
  filter p (insert cmp x l) = filter p (x :: l).
Proof.
  intros H. induction l as [|y r IH]; [reflexivity|].
  cbn [insert]. destruct (Z.leb_spec (cmp x y) 0) as [L|L]; [reflexivity|].
  cbn [filter] in *. rewrite IH.
  destruct (p x) eqn:Px, (p y) eqn:Py; try reflexivity.
  specialize (H x y Px Py). lia.
Qed.

Lemma sort_filter {A : Type} (cmp : A -> A -> Z) (p : A -> bool) (l : list A) :
  (forall a b, p a = true -> p b = true -> cmp a b <= 0) ->
  filter p (sort cmp l) = filter p l.
Proof.
  intros H. induction l as [|x r IH]; [reflexivity|].
  cbn [sort]. rewrite insert_filter by assumption.
  cbn [filter]. rewrite IH. reflexivity.
Qed.

(** ** Selections of extracted tokens *)

Lemma pairs_In {A : Type} (R : A -> A -> Prop) (l : list A) :
  ForallOrdPairs R l ->
  forall a b, In a l -> In b l -> a = b \/ R a b \/ R b a.
Proof.
  induction 1 as [|x l F P IH]; intros a b Ha Hb; [destruct Ha|].
  rewrite Forall_forall in F.
  destruct Ha as [<-|Ha], Hb as [<-|Hb]; auto.
Qed.

Lemma sorted_NoDup {A : Type} (R : A -> A -> Prop) (l : list A) :
  (forall a, ~ R a a) -> StronglySorted R l -> NoDup l.
Proof.
  intros Hirr. induction 1 as [|x l S IH F]; constructor; auto.
  intros Hx. rewrite Forall_forall in F. exact (Hirr x (F x Hx)).
Qed.

Lemma sorted_perm_eq {A : Type} (R : A -> A -> Prop) (l1 : list A) :
  forall l2,
    StronglySorted R l1 -> StronglySorted R l2 -> Permutation l1 l2 ->
    (forall a b, In a l1 -> In b l1 -> R a b -> R b a -> a = b) ->
    l1 = l2.
Proof.
  induction l1 as [|x l1 IH]; intros l2 S1 S2 Hp Hanti.
  - apply Permutation_nil in Hp. auto.
  - destruct l2 as [|y l2].
    { apply Permutation_sym, Permutation_nil in Hp. discriminate. }
    inversion S1 as [|? ? S1' F1]; subst.
    inversion S2 as [|? ? S2' F2]; subst.
    rewrite Forall_forall in F1, F2.
    assert (E : x = y).
    { assert (Hx : In x (y :: l2))
        by (eapply Permutation_in; [exact Hp|left; reflexivity]).
      assert (Hy : In y (x :: l1))
        by (eapply Permutation_in; [symmetry; exact Hp|left; reflexivity]).
      destruct Hx as [Hx|Hx]; [auto|].
      destruct Hy as [Hy|Hy]; [auto|].
      apply Hanti; simpl; auto. }
    subst y. f_equal. apply IH; auto.
    + eapply Permutation_cons_inv; eauto.
    + intros a b Ha Hb. apply Hanti; simpl; auto.
Qed.

Lemma extractWords_sorted (lyrics : jsstring) :
  StronglySorted textBefore (extractWords lyrics).
Proof. apply extractLines_sorted. Qed.

Lemma extractWords_NoDup (lyrics : jsstring) : NoDup (extractWords lyrics).
Proof.
  apply (sorted_NoDup textBefore); [|apply extractWords_sorted].
  unfold textBefore. intros a H. lia.
Qed.

Lemma extractWords_apart (lyrics : jsstring) :
  nonOverlapping (extractWords lyrics).
Proof. apply extractLines_apart. Qed.

(** Tokens kept out of the extracted ones, in position order, still do not
    overlap, lie inside their lines and have non-empty words. *)
Lemma subselection_apart (lyrics : jsstring) (blanks rest : list Token.t) :
  Permutation (blanks ++ rest) (extractWords lyrics) ->
  StronglySorted positionOrder blanks ->
  nonOverlapping blanks /\ spansInside lyrics blanks /\
  Forall (fun t => 0 < strlen (Token.word t)) blanks.
Proof.
  intros Hp Hs.
  assert (Hin : forall t, In t blanks -> In t (extractWords lyrics)).
  { intros t Ht. eapply Permutation_in; [exact Hp|]. apply in_or_app; auto. }
  pose proof (extractWords_tokens lyrics) as Tok. rewrite Forall_forall in Tok.
  assert (Hlen : forall t, In t blanks -> 2 < strlen (Token.word t)).
  { intros t Ht. destruct (Tok t (Hin t Ht)) as [i [line [_ [_ H]]]].
    destruct H as [_ [E [H2 _]]]. lia. }
  split; [|split].
  - unfold nonOverlapping.
    apply pairs_of_sorted with (S := positionOrder); auto.
    + eapply NoDup_app_remove_r.
      eapply Permutation_NoDup; [symmetry; exact Hp|apply extractWords_NoDup].
    + intros a b Ha Hb Hab Hord Hline.
      destruct (pairs_In _ _ (extractWords_apart lyrics) a b (Hin a Ha) (Hin b Hb))
        as [E|[H|H]]; [contradiction| |].
      * apply H; assumption.
      * specialize (H (eq_sym Hline)). unfold spanEnd in *.
        pose proof (Hlen b Hb). unfold positionOrder in Hord. lia.
  - unfold spansInside. apply Forall_forall. intros t Ht.
    pose proof (extractWords_spansInside lyrics) as F.
    unfold spansInside in F. rewrite Forall_forall in F. auto.
  - apply Forall_forall. intros t Ht. specialize (Hlen t Ht). lia.
Qed.

Lemma textBefore_positionOrder (a b : Token.t) :
  textBefore a b -> positionOrder a b.
Proof. unfold textBefore, positionOrder. lia. Qed.

Lemma slice0_all {A : Type} (l : list A) (count : Z) :
  Z.of_nat (length l) <= count -> slice0 l count = l.
Proof.
  intros H. unfold slice0.
  destruct (Z.ltb_spec count 0); [lia|].
  apply firstn_all2. lia.
Qed.

Lemma selectedWords_all (randomOrder : list Token.t -> list Token.t)
    (words : list Token.t) (count : Z) (strategy : jsstring) :
  (forall l, Permutation (randomOrder l) l) ->
  Z.of_nat (length words) <= count ->
  Permutation (selectedWords randomOrder words count strategy) words.
Proof.
  intros Hp Hc. unfold selectedWords.
  destruct (jsstring_eqb strategy (str "important"));
    [|destruct (jsstring_eqb strategy (str "frequent"));
      [cbv zeta; destruct (allCounted (frequencyOf words) words)|]];
    rewrite slice0_all; auto using sort_perm;
    try (rewrite sort_length; assumption);
    rewrite (Permutation_length (Hp words)); assumption.
Qed.

Lemma selectBlanks_everything (randomOrder : list Token.t -> list Token.t)
    (lyrics : jsstring) (count : Z) (strategy : jsstring) :
  (forall l, Permutation (randomOrder l) l) ->
  Z.of_nat (length (extractWords lyrics)) <= count ->
  selectBlanks randomOrder (extractWords lyrics) count strategy =
  extractWords lyrics.
Proof.
  intros Hp Hc.
  destruct (extractWords lyrics) as [|w ws] eqn:E; [reflexivity|].
  rewrite selectBlanks_selectedWords by discriminate.
  rewrite <- E in *.
  pose proof (selectedWords_all randomOrder (extractWords lyrics) count
                strategy Hp Hc) as Hsel.
  pose proof (sort_perm byLinePosition
                (selectedWords randomOrder (extractWords lyrics) count strategy))
    as Hsort.
  apply (sorted_perm_eq positionOrder).
  - apply sort_byLinePosition.
  - rewrite <- (map_id (extractWords lyrics)).
    eapply StronglySorted_map_intro; [|apply extractWords_sorted].
    apply textBefore_positionOrder.
  - eapply Permutation_trans; eauto.
  - intros a b Ha Hb Hab Hba.
    assert (Ia : In a (extractWords lyrics))
      by (eapply Permutation_in; [|exact Ha]; eapply Permutation_trans; eauto).
    assert (Ib : In b (extractWords lyrics))
      by (eapply Permutation_in; [|exact Hb]; eapply Permutation_trans; eauto).
    destruct (pairs_In _ _ (pairs_of_StronglySorted _ _ (extractWords_sorted lyrics))
                a b Ia Ib) as [?|[H|H]]; auto;
      unfold textBefore, positionOrder in *; lia.
Qed.

(** ** Score storage *)

Section ScoreStorageFacts.
Import ScoreStorage.

Lemma scoresAt_setScores_same (m : ScoreMap) (id : Z) (v : list ScoreEntry) :
  scoresAt (setScores m id v) id = Some v.
Proof.
  induction m as [|[k w] r IH]; simpl.
  - rewrite Z.eqb_refl. reflexivity.
  - destruct (Z.eqb_spec k id); simpl.
    + subst. rewrite Z.eqb_refl. reflexivity.
    + destruct (Z.eqb_spec k id); [contradiction|]. exact IH.
Qed.


Lemma scoresAt_stringify (m : ScoreMap) (id : Z) :
  scoresAt (stringify m) id = option_map (map stringifyEntry) (scoresAt m id).
Proof.
  induction m as [|[k w] r IH]; simpl; auto.
  destruct (k =? id); auto.
Qed.

Lemma setScores_keys (m : ScoreMap) (id : Z) (v : list ScoreEntry) :
  map fst (setScores m id v) =
  if existsb (Z.eqb id) (map fst m) then map fst m else map fst m ++ [id].
Proof.
  induction m as [|[k w] r IH]; simpl; auto.
  destruct (Z.eqb_spec k id); simpl.
  - subst. rewrite Z.eqb_refl. reflexivity.
  - destruct (Z.eqb_spec id k); [congruence|]. simpl. rewrite IH.
    destruct (existsb (Z.eqb id) (map fst r)); reflexivity.
Qed.

Lemma setScores_In (m : ScoreMap) (id : Z) (v : list ScoreEntry) :
  forall kv, In kv (setScores m id v) -> kv = (id, v) \/ In kv m.
Proof.
  induction m as [|[k w] r IH]; simpl; intros kv H.
  - destruct H as [<-|[]]; auto.
  - destruct (Z.eqb_spec k id); simpl in H.
    + subst. destruct H as [<-|H]; auto.
    + destruct H as [<-|H]; auto. destruct (IH kv H); auto.
Qed.

Lemma lastTen_suffix {A : Type} (l : list A) :
  exists dropped, l = dropped ++ lastTen l /\
                  length (lastTen l) = Nat.min (length l) 10.
Proof.
  exists (firstn (length l - 10) l). unfold lastTen. split.
  - symmetry. apply firstn_skipn.
  - rewrite length_skipn. lia.
Qed.

Lemma keptScores_suffix (st : Stored) (id : Z) (entry : ScoreEntry) :
  exists dropped,
    getQuizScores st id ++ [entry] = dropped ++ keptScores st id entry /\
    (1 <= length (keptScores st id entry) <= 10)%nat /\
    (length (getQuizScores st id) < 10 -> dropped = [])%nat.
Proof.
  unfold keptScores.
  set (pushed := getQuizScores st id ++ [entry]).
  assert (L : length pushed = S (length (getQuizScores st id)))
    by (unfold pushed; rewrite length_app; simpl; lia).
  destruct (Z.ltb_spec 10 (Z.of_nat (length pushed))) as [H|H].
  - destruct (lastTen_suffix pushed) as [dropped [E Hl]].
    exists dropped. split; [exact E|]. split; lia.
  - exists []. split; [reflexivity|]. split; [lia|auto].
Qed.

Lemma saveScore_stored (st : Stored) (id : Z) (title artistName : jsstring)
    (data : ScoreData) (now today : jsstring) :
  saveScore st true id title artistName data now today =
  (true,
   Saved (stringify
            (setScores (getAllScores st) id
               (keptScores st id
                  {| scoreData := data; quizId := id; quizTitle := title;
                     artist := artistName; timestamp := now;
                     date := today |})))).
Proof. reflexivity. Qed.

Lemma stringify_keys (m : ScoreMap) : map fst (stringify m) = map fst m.
Proof. unfold stringify. rewrite map_map. reflexivity. Qed.

Lemma wellKept_setScores (m : ScoreMap) (id : Z) (v : list ScoreEntry) :
  wellKept m -> (1 <= length v <= 10)%nat ->
  wellKept (stringify (setScores m id v)).
Proof.
  intros [F N] Hv. split.
  - unfold stringify. apply Forall_map. apply Forall_forall.
    intros kv Hkv. simpl. rewrite length_map.
    apply setScores_In in Hkv as [->|Hkv]; [exact Hv|].
    rewrite Forall_forall in F. exact (F kv Hkv).
  - rewrite stringify_keys, setScores_keys.
    destruct (existsb (Z.eqb id) (map fst m)) eqn:E; [exact N|].
    apply NoDup_app; auto.
    + constructor; [simpl; tauto|constructor].
    + intros x Hx [E'|[]]. subst x.
      assert (existsb (Z.eqb id) (map fst m) = true).
      { apply existsb_exists. exists id. rewrite Z.eqb_refl. auto. }
      congruence.
Qed.

Lemma saveCall_wellKept (st : Stored) (c : SaveCall) :
  wellKept (getAllScores st) -> wellKept (getAllScores (saveCall st c)).
Proof.
  intros H. unfold saveCall. destruct (callWritable c) eqn:W.
  - rewrite saveScore_stored. simpl.
    apply wellKept_setScores; auto.
    destruct (keptScores_suffix st (callId c)
      {| scoreData := callData c; quizId := callId c; quizTitle := callTitle c;
         artist := callArtist c; timestamp := callNow c;
         date := callToday c |}) as [_ [_ [L _]]].
    exact L.
  - unfold saveScore. simpl. exact H.
Qed.

Lemma replay_wellKept (calls : list SaveCall) :
  forall st, wellKept (getAllScores st) ->
             wellKept (getAllScores (replay st calls)).
Proof.
  unfold replay. induction calls as [|c r IH]; simpl; intros st H; auto.
  apply IH, saveCall_wellKept, H.
Qed.

Lemma allEntries_bounds (m : ScoreMap) :
  Forall (fun kv => (1 <= length (snd kv) <= 10)%nat) m ->
  (length m <= length (allEntries m) <= 10 * length m)%nat.
Proof.
  unfold allEntries. induction 1 as [|kv r H F IH]; simpl; [lia|].
  rewrite length_app. lia.
Qed.

End ScoreStorageFacts.

Section BestScoreFacts.
Import ScoreStorage.

Lemma better_choice (best current : ScoreEntry) :
  hasPercentage best -> hasPercentage current ->
  (better best current = current /\ percentageOf best <= percentageOf current) \/
  (better best current = best /\ percentageOf current <= percentageOf best).
Proof.
  intros [x Hx] [y Hy]. unfold better, percentageOf, numGt.
  rewrite Hx, Hy. simpl.
  destruct (Z.ltb_spec x y); [left; split; [reflexivity|lia]|].
  destruct (Z.eqb_spec y x); simpl.
  - destruct (match toNumber (wordAccuracy (scoreData current)) with
              | Some x0 => _ | None => false end);
      [left|right]; split; auto; lia.
  - right; split; [reflexivity|lia].
Qed.

Lemma fold_better_member (rest : list ScoreEntry) :
  forall first, In (fold_left better rest first) (first :: rest).
Proof.
  induction rest as [|c r IH]; intros first; simpl; auto.
  destruct (IH (better first c)) as [H|H]; auto.
  rewrite <- H. unfold better.
  destruct (numGt _ _); auto. destruct (_ && _); auto.
Qed.

Lemma fold_better_max (rest : list ScoreEntry) :
  forall first,
    Forall hasPercentage (first :: rest) ->
    Forall (fun e => percentageOf e <= percentageOf (fold_left better rest first))
      (first :: rest).
Proof.
  induction rest as [|c r IH]; intros first F; cbn [fold_left].
  - constructor; [lia|constructor].
  - inversion F as [|? ? Hf F']; subst. inversion F' as [|? ? Hc Fr]; subst.
    assert (Hb : hasPercentage (better first c)).
    { destruct (better_choice first c Hf Hc) as [[-> _]|[-> _]]; assumption. }
    specialize (IH (better first c) (Forall_cons _ Hb Fr)).
    inversion IH as [|? ? H1 H2]; subst.
    destruct (better_choice first c Hf Hc) as [[E L]|[E L]]; rewrite E in *;
      repeat constructor; auto; lia.
Qed.

Lemma better_plain (best current : ScoreEntry) :
  plainScore best -> plainScore current ->
  better best current =
  if percentageOf best <? percentageOf current then current else best.
Proof.
  intros [[x Hx] Wx] [[y Hy] Wy]. unfold better, percentageOf, numGt.
  rewrite Hx, Hy, Wx, Wy. simpl.
  destruct (x <? y); [reflexivity|]. rewrite andb_false_r. reflexivity.
Qed.

(** Without [wordAccuracy] the first of the scores with the highest
    percentage wins. *)
Lemma fold_better_first (rest : list ScoreEntry) :
  forall first pre mid,
    Forall plainScore (first :: rest) ->
    Forall (fun e => percentageOf e < percentageOf first) pre ->
    Forall (fun e => percentageOf e <= percentageOf first) mid ->
    exists pre' post,
      pre ++ first :: mid ++ rest =
        pre' ++ fold_left better rest first :: post /\
      Forall (fun e => percentageOf e < percentageOf (fold_left better rest first))
        pre'.
Proof.
  induction rest as [|c r IH]; intros first pre mid F Hpre Hmid;
    cbn [fold_left].
  - exists pre, mid. rewrite app_nil_r. auto.
  - inversion F as [|? ? Hf F']; subst. inversion F' as [|? ? Hc Fr]; subst.
    rewrite (better_plain first c Hf Hc).
    destruct (Z.ltb_spec (percentageOf first) (percentageOf c)) as [L|L].
    + destruct (IH c (pre ++ first :: mid) [] (Forall_cons _ Hc Fr))
        as [pre' [post [E P]]].
      * apply Forall_app; split.
        -- eapply Forall_impl; [|exact Hpre]. simpl; intros; lia.
        -- constructor; [lia|].
           eapply Forall_impl; [|exact Hmid]. simpl; intros; lia.
      * constructor.
      * exists pre', post. split; auto.
        rewrite <- E. rewrite <- !app_assoc. simpl. reflexivity.
    + destruct (IH first pre (mid ++ [c]) (Forall_cons _ Hf Fr) Hpre)
        as [pre' [post [E P]]].
      * apply Forall_app; split; auto.
      * exists pre', post. split; auto.
        rewrite <- E. rewrite <- !app_assoc. reflexivity.
Qed.

Lemma rounded_in_range (s n : Z) :
  0 < n -> 0 <= s <= 100 * n -> 0 <= (2 * s + n) / (2 * n) <= 100.
Proof.
  intros Hn Hs. split.
  - apply Z.div_pos; lia.
  - assert ((2 * s + n) / (2 * n) < 101); [|lia].
    apply Z.div_lt_upper_bound; lia.
Qed.

Lemma sum_percentages (l : list ScoreEntry) :
  forall acc,
    Forall (fun e => hasPercentage e /\ 0 <= percentageOf e <= 100) l ->
    exists s,
      fold_left (fun a e => numAdd a (percentage (scoreData e))) l (Some acc) =
        Some s /\
      acc <= s <= acc + 100 * Z.of_nat (length l).
Proof.
  induction l as [|e r IH]; intros acc F; cbn [fold_left].
  - exists acc. simpl. split; [reflexivity|lia].
  - inversion F as [|? ? [[z Hz] Hr] Fr]; subst.
    unfold percentageOf in Hr. rewrite Hz in *. simpl in Hr.
    unfold numAdd at 2. simpl.
    destruct (IH (acc + z) Fr) as [s [E B]].
    exists s. split; [exact E|]. simpl length. lia.
Qed.

End BestScoreFacts.

(** ** Reading the placeholders back *)

Lemma stripPrefix_app (p r : jsstring) : stripPrefix p (p ++ r) = Some r.
Proof.
  induction p as [|x p IH]; simpl; [destruct r; reflexivity|].
  rewrite Z.eqb_refl. exact IH.
Qed.

Lemma matchBlank_other (c : char) (r : jsstring) :
  c <> UNDERSCORE -> matchBlank (c :: r) = None.
Proof.
  intros H. unfold matchBlank.
  change UNDERSCORES with (UNDERSCORE :: repeat UNDERSCORE 4).
  cbn [stripPrefix].
  destruct (Z.eqb_spec UNDERSCORE c) as [E|E]; [congruence|reflexivity].
Qed.

Lemma spanDigits_app (d t : jsstring) :
  forallb isDigit d = true ->
  match t with [] => True | c :: _ => isDigit c = false end ->
  spanDigits (d ++ t) = (d, t).
Proof.
  intros Hd Ht. induction d as [|x d IH]; simpl in *.
  - destruct t as [|c t']; [reflexivity|]. simpl. rewrite Ht. reflexivity.
  - apply andb_true_iff in Hd as [Hx Hd]. rewrite Hx, IH by assumption.
    reflexivity.
Qed.

Lemma decimal_digits (n : nat) : forallb isDigit (decimal n) = true.
Proof.
  apply forallb_forall. intros c Hc.
  pose proof (digits_range (Nat.to_uint n)) as F.
  rewrite Forall_forall in F. specialize (F c Hc).
  unfold isDigit. lia.
Qed.

Lemma placeholder_length (n : nat) :
  length (placeholder n) = (10 + length (decimal n))%nat.
Proof.
  unfold placeholder. rewrite !length_app. simpl. lia.
Qed.

Lemma matchBlank_placeholder (n : nat) (r : jsstring) :
  matchBlank (placeholder n ++ r) =
  Some (decimal n, (10 + length (decimal n))%nat).
Proof.
  unfold matchBlank, placeholder.
  rewrite <- !app_assoc, stripPrefix_app.
  rewrite (spanDigits_app (decimal n) (UNDERSCORES ++ r)).
  - pose proof (decimal_nonempty n) as Hne.
    destruct (decimal n) as [|c d] eqn:E; [congruence|].
    rewrite stripPrefix_app. reflexivity.
  - apply decimal_digits.
  - reflexivity.
Qed.

Lemma execFrom_skip (p : jsstring) :
  forall pos r,
    execFrom pos (length p) (p ++ r) = execFrom (pos + strlen p) 0 r.
Proof.
  unfold strlen. induction p as [|c p IH]; intros pos r.
  - simpl. rewrite Z.add_0_r. destruct r; reflexivity.
  - cbn [length app execFrom]. rewrite IH. f_equal. lia.
Qed.

Lemma execFrom_text (t : jsstring) :
  forall pos r,
    noUnderscore t ->
    execFrom pos 0 (t ++ r) = execFrom (pos + strlen t) 0 r.
Proof.
  unfold strlen, noUnderscore. induction t as [|c t IH]; intros pos r H.
  - simpl. rewrite Z.add_0_r. reflexivity.
  - cbn [app execFrom]. rewrite matchBlank_other by (simpl in H; tauto).
    rewrite IH by (simpl in H; tauto). f_equal. simpl length. lia.
Qed.

Lemma execFrom_plain (t : jsstring) (pos : Z) :
  noUnderscore t -> execFrom pos 0 t = [].
Proof.
  intros H. rewrite <- (app_nil_r t), execFrom_text by assumption.
  reflexivity.
Qed.

Lemma execFrom_placeholder (n : nat) (pos : Z) (r : jsstring) :
  execFrom pos 0 (placeholder n ++ r) =
  {| foundAt := pos; capture := decimal n;
     matchLength := strlen (placeholder n) |}
    :: execFrom (pos + strlen (placeholder n)) 0 r.
Proof.
  pose proof (matchBlank_placeholder n r) as M.
  pose proof (placeholder_length n) as L.
  destruct (placeholder n) as [|c tl] eqn:E; [simpl in L; lia|].
  cbn [app execFrom]. cbn [app] in M. rewrite M.
  unfold strlen. rewrite L. f_equal.
  simpl in L.
  replace (10 + length (decimal n) - 1)%nat with (length tl) by lia.
  rewrite execFrom_skip. f_equal. unfold strlen. lia.
Qed.

Lemma parseInt_decimal (n : nat) : parseInt (decimal n) = Z.of_nat n.
Proof. exact (decimal_value n). Qed.

Lemma strlen_app (a b : jsstring) : strlen (a ++ b) = strlen a + strlen b.
Proof. unfold strlen. rewrite length_app. lia. Qed.

Lemma substring_In (s : jsstring) (a b x : Z) :
  In x (substring s a b) -> In x s.
Proof. unfold substring. intros H. eapply skipn_In, firstn_In; eauto. Qed.

Lemma substringFrom_In (s : jsstring) (a x : Z) :
  In x (substringFrom s a) -> In x s.
Proof. unfold substringFrom. apply skipn_In. Qed.

Lemma substring_strlen (s : jsstring) (a b : Z) :
  0 <= a <= b -> b <= strlen s -> strlen (substring s a b) = b - a.
Proof.
  unfold substring, clamp, strlen. intros H1 H2.
  rewrite length_firstn, length_skipn. lia.
Qed.

Lemma partsText_rev_cons (x : Part) (l : list Part) :
  partsText (rev (x :: l)) = partsText (rev l) ++ partText x.
Proof.
  unfold partsText. simpl. rewrite flat_map_app. simpl.
  rewrite app_nil_r. reflexivity.
Qed.

Lemma weave_tail (line : jsstring) (bs : list Blank) :
  forall from, exists body, weave line from bs = body ++ tailText line from bs.
Proof.
  induction bs as [|b r IH]; intros from; cbn [weave tailText].
  - exists []. reflexivity.
  - destruct (IH (blankPosition b + wordLength b)) as [body E].
    exists (substring line from (blankPosition b) ++
            placeholder (blankId b) ++ body).
    rewrite E, <- !app_assoc. reflexivity.
Qed.

Lemma tailText_noUnderscore (line : jsstring) (bs : list Blank) :
  forall from, noUnderscore line -> noUnderscore (tailText line from bs).
Proof.
  induction bs as [|b r IH]; intros from H; simpl; auto.
  intros Hin. apply H. eapply substringFrom_In; eauto.
Qed.

Section RenderFacts.
Variable blanks : list Quiz.Item.
Variable answers : Answers.
Variable line : jsstring.
Variable li : Z.

Lemma renderMatches_weave (bs : list Blank) :
  forall from done acc,
    chained (strlen line) from bs ->
    noUnderscore line ->
    Forall (fun b => findBlank blanks (Z.of_nat (blankId b)) <> None) bs ->
    exists acc',
      renderMatches blanks answers (done ++ weave line from bs) li
        (execFrom (strlen done) 0 (weave line from bs)) (strlen done) acc =
      Returned (strlen done + strlen (weave line from bs)
                - strlen (tailText line from bs), acc') /\
      partsText (rev acc') ++ tailText line from bs =
      partsText (rev acc) ++ fill (typed answers) line from bs /\
      exists more, acc' = more ++ acc /\ (more = [] <-> bs = []).
Proof.
  induction bs as [|b r IH]; intros from done acc Hch Hno Hfound.
  - cbn [weave tailText fill].
    assert (Hseg : noUnderscore (substringFrom line from)).
    { intros Hin. apply Hno. eapply substringFrom_In; eauto. }
    rewrite execFrom_plain by assumption. cbn [renderMatches].
    exists acc. split; [f_equal; f_equal; lia|]. split; [reflexivity|].
    exists []. split; [reflexivity|tauto].
  - destruct Hch as [H1 [H2 H3]].
    pose proof (chained_bound _ _ _ H3) as B.
    inversion Hfound as [|? ? Hb Hr]; subst.
    cbn [weave tailText fill].
    set (seg := substring line from (blankPosition b)).
    set (ph := placeholder (blankId b)).
    set (rest := weave line (blankPosition b + wordLength b) r).
    assert (Hseg : noUnderscore seg).
    { intros Hin. apply Hno. eapply substring_In; eauto. }
    assert (Lseg : strlen seg = blankPosition b - from).
    { unfold seg. apply substring_strlen; lia. }
    rewrite execFrom_text by assumption.
    unfold ph at 2. rewrite execFrom_placeholder. fold ph.
    cbn [renderMatches capture foundAt matchLength].
    rewrite parseInt_decimal.
    destruct (findBlank blanks (Z.of_nat (blankId b))) as [blank|] eqn:Ef;
      [|congruence].
    set (acc1 :=
      if strlen done <? strlen done + strlen seg
      then TextSpan li (strlen done)
             (substring (done ++ seg ++ ph ++ rest) (strlen done)
                (strlen done + strlen seg)) :: acc
      else acc).
    assert (Ht : partsText (rev acc1) = partsText (rev acc) ++ seg).
    { unfold acc1. destruct (Z.ltb_spec (strlen done) (strlen done + strlen seg)).
      - rewrite partsText_rev_cons. cbn [partText].
        rewrite (substring_middle done seg (ph ++ rest)). reflexivity.
      - assert (seg = []) as ->.
        { destruct seg; [reflexivity|]. unfold strlen in *. simpl in *. lia. }
        rewrite app_nil_r. reflexivity. }
    destruct (IH (blankPosition b + wordLength b) (done ++ seg ++ ph)
                (InputField (Z.of_nat (blankId b))
                   (orEmpty (answers (Z.of_nat (blankId b))))
                   (inputSize (orEmpty (answers (Z.of_nat (blankId b)))) blank)
                 :: acc1) H3 Hno Hr) as [acc' [E [T [more [M _]]]]].
    fold rest in E.
    replace ((done ++ seg ++ ph) ++ rest) with (done ++ seg ++ ph ++ rest) in E
      by (rewrite <- !app_assoc; reflexivity).
    replace (strlen (done ++ seg ++ ph))
      with (strlen done + strlen seg + strlen ph) in E
      by (rewrite !strlen_app; lia).
    exists acc'. split; [|split].
    + rewrite E. f_equal. f_equal. rewrite !strlen_app. lia.
    + rewrite T, partsText_rev_cons, Ht. cbn [partText].
      unfold typed. rewrite <- !app_assoc. reflexivity.
    + assert (Ha : exists pre, acc1 = pre ++ acc).
      { unfold acc1. destruct (_ <? _); [eexists [_]|exists []]; reflexivity. }
      destruct Ha as [pre Ha]. rewrite Ha in M.
      exists (more ++ InputField (Z.of_nat (blankId b))
                (orEmpty (answers (Z.of_nat (blankId b))))
                (inputSize (orEmpty (answers (Z.of_nat (blankId b)))) blank)
              :: pre).
      split; [rewrite M, <- app_assoc; reflexivity|].
      split; [|discriminate].
      intros Hn. apply app_eq_nil in Hn as [_ Hn]. discriminate.
Qed.

Lemma substringFrom_app (body tail : jsstring) :
  substringFrom (body ++ tail) (strlen body) = tail.
Proof.
  unfold substringFrom, clamp, strlen. rewrite length_app.
  replace (Z.to_nat (Z.min (Z.max (Z.of_nat (length body)) 0) _))
    with (length body) by lia.
  rewrite skipn_app, Nat.sub_diag, skipn_all. reflexivity.
Qed.

Lemma weave_empty (bs : list Blank) (from : Z) :
  weave line from bs = [] -> bs = [].
Proof.
  destruct bs as [|b r]; [reflexivity|]. cbn [weave]. intros H.
  apply app_eq_nil in H as [_ H]. apply app_eq_nil in H as [H _].
  unfold placeholder in H. apply app_eq_nil in H as [H _]. discriminate.
Qed.

(** A line that the encoder wrote, rendered: every field found, and the
    line reads as the original with the typed text in place of the
    blanks. *)
Lemma renderLine_weave (bs : list Blank) :
  chained (strlen line) 0 bs ->
  noUnderscore line ->
  Forall (fun b => findBlank blanks (Z.of_nat (blankId b)) <> None) bs ->
  exists rl,
    renderLine blanks answers (weave line 0 bs) li = Returned rl /\
    lineText rl =
    if isEmpty (weave line 0 bs) then [NBSP]
    else fill (typed answers) line 0 bs.
Proof.
  intros Hch Hno Hf.
  destruct (renderMatches_weave bs 0 [] [] Hch Hno Hf)
    as [acc' [E [T [more [M Hm]]]]].
  rewrite app_nil_r in M. subst acc'.
  cbn [app] in E. change (strlen []) with 0 in E.
  unfold renderLine, execAll. rewrite E.
  destruct (weave_tail line bs 0) as [body W].
  set (wl := weave line 0 bs) in *.
  set (tl := tailText line 0 bs) in *.
  assert (Hpos : 0 + strlen wl - strlen tl = strlen body)
    by (rewrite W, strlen_app; lia).
  rewrite Hpos.
  cbn [rev partsText flat_map app] in T.
  destruct (Z.ltb_spec (strlen body) (strlen wl)) as [L|L].
  - assert (Hsub : substringFrom wl (strlen body) = tl)
      by (rewrite W; apply substringFrom_app).
    rewrite Hsub.
    eexists. split; [reflexivity|].
    cbn [lineText]. rewrite partsText_rev_cons. cbn [partText].
    fold (partsText (rev more)) in T. rewrite T.
    destruct wl as [|c w] eqn:Ew; [unfold strlen in L; simpl in L; lia|].
    reflexivity.
  - assert (tl = []) as Htl.
    { destruct tl; [reflexivity|].
      rewrite W, strlen_app in L. unfold strlen in L. simpl in L. lia. }
    rewrite Htl, app_nil_r in T. fold (partsText (rev more)) in T.
    destruct more as [|x more'] eqn:Em.
    + assert (bs = []) as -> by (apply Hm; reflexivity).
      assert (wl = []) as ->.
      { unfold wl. cbn [weave]. fold tl. unfold tl in Htl.
        cbn [tailText] in Htl. exact Htl. }
      eexists. split; reflexivity.
    + eexists. split; [reflexivity|]. cbn [lineText]. rewrite T.
      destruct wl as [|c w] eqn:Ew; [|reflexivity].
      apply weave_empty in Ew. apply Hm in Ew. discriminate.
Qed.

End RenderFacts.

Lemma substring_then_rest (s : jsstring) (a b : Z) :
  0 <= a <= b -> b <= strlen s ->
  substring s a b ++ substringFrom s b = substringFrom s a.
Proof.
  unfold substring, substringFrom, clamp, strlen. intros H1 H2.
  replace (Z.to_nat (Z.min (Z.max a 0) _)) with (Z.to_nat a) by lia.
  replace (Z.to_nat (Z.min (Z.max b 0) _)) with (Z.to_nat b) by lia.
  rewrite Nat.max_r, Nat.min_l by lia.
  rewrite <- (firstn_skipn (Z.to_nat b - Z.to_nat a) (skipn (Z.to_nat a) s)) at 2.
  f_equal. rewrite skipn_skipn. f_equal. lia.
Qed.

Lemma fill_original (value : Blank -> jsstring) (line : jsstring)
    (bs : list Blank) :
  forall from,
    chained (strlen line) from bs ->
    Forall (fun b => value b =
                     substring line (blankPosition b)
                       (blankPosition b + wordLength b)) bs ->
    fill value line from bs = substringFrom line from.
Proof.
  induction bs as [|b r IH]; intros from Hch Hv; cbn [fill]; auto.
  destruct Hch as [H1 [H2 H3]]. pose proof (chained_bound _ _ _ H3) as B.
  inversion Hv as [|? ? Hb Hr]; subst.
  rewrite (IH _ H3 Hr), Hb.
  rewrite substring_then_rest by lia.
  apply substring_then_rest; lia.
Qed.

Lemma substringFrom_zero (s : jsstring) : substringFrom s 0 = s.
Proof.
  unfold substringFrom, clamp.
  replace (Z.to_nat (Z.min (Z.max 0 0) _)) with 0%nat by lia. reflexivity.
Qed.

Lemma blanksMap_chained (lyrics : jsstring) (blanks : list Token.t)
    (i : nat) (line : jsstring) :
  nonOverlapping blanks -> spansInside lyrics blanks ->
  Forall (fun t => 0 < strlen (Token.word t)) blanks ->
  nth_error (split lyrics) i = Some line ->
  chained (strlen line) 0 (blanksMap blanks (Z.of_nat i)).
Proof.
  intros Hno Hin Hw Hline.
  set (A := blanksMap blanks (Z.of_nat i)).
  assert (Hmem : forall b, In b A ->
            0 < wordLength b /\ 0 <= blankPosition b /\
            blankPosition b + wordLength b <= strlen line).
  { intros b Hb. apply blanksMap_In in Hb as [Hn Hl].
    pose proof (nth_error_In _ _ Hn) as Ht.
    unfold spansInside in Hin. rewrite Forall_forall in Hin, Hw.
    destruct (Hin _ Ht) as [line' [_ [Hn' [H0 H1]]]].
    rewrite Hl, Nat2Z.id, Hline in Hn'. inversion Hn'; subst.
    unfold wordLength, blankPosition. unfold spanEnd in H1.
    split; [apply Hw; assumption|]. auto. }
  apply chained_intro.
  - apply Forall_forall. intros b Hb. destruct (Hmem b Hb); tauto.
  - eapply pairs_weaken.
    + unfold A, blanksMap. apply pairs_filter, numbered_pairs. exact Hno.
    + intros a b Ha Hb H. simpl in H.
      apply blanksMap_In in Ha as [_ La]. apply blanksMap_In in Hb as [_ Lb].
      apply H. congruence.
  - pose proof (strlen_nonneg line). lia.
  - apply Forall_forall. intros b Hb. destruct (Hmem b Hb); tauto.
Qed.

Lemma findBlank_answerKeyFrom (sel : list Token.t) :
  forall base k t,
    nth_error sel k = Some t ->
    findBlank (answerKeyFrom sel base) (base + Z.of_nat k) =
    Some {| Quiz.id := base + Z.of_nat k; Quiz.answer := Token.word t;
            Quiz.lineIndex := Token.lineIndex t;
            Quiz.position := Token.position t |}.
Proof.
  induction sel as [|s r IH]; intros base k t H; [destruct k; discriminate|].
  cbn [answerKeyFrom findBlank Quiz.id].
  destruct k as [|k]; simpl in H.
  - inversion H; subst. simpl Z.of_nat. rewrite Z.add_0_r, Z.eqb_refl.
    reflexivity.
  - destruct (Z.eqb_spec base (base + Z.of_nat (S k))) as [E|E]; [lia|].
    replace (base + Z.of_nat (S k)) with (base + 1 + Z.of_nat k) by lia.
    apply IH. assumption.
Qed.

Lemma findBlank_answerKey (sel : list Token.t) (k : nat) (t : Token.t) :
  nth_error sel k = Some t ->
  findBlank (answerKey sel) (Z.of_nat k) =
  Some {| Quiz.id := Z.of_nat k; Quiz.answer := Token.word t;
          Quiz.lineIndex := Token.lineIndex t;
          Quiz.position := Token.position t |}.
Proof. intros H. exact (findBlank_answerKeyFrom sel 0 k t H). Qed.

Lemma join_In (ls : list jsstring) (l : jsstring) (x : char) :
  In l ls -> In x l -> In x (join ls).
Proof.
  induction ls as [|a r IH]; intros Hl Hx; [destruct Hl|].
  destruct r as [|b r'].
  - destruct Hl as [<-|[]]. exact Hx.
  - change (join (a :: b :: r')) with (a ++ LF :: join (b :: r')).
    apply in_or_app. destruct Hl as [<-|Hl]; [left; exact Hx|].
    right; right. apply IH; assumption.
Qed.

Lemma split_noUnderscore (s line : jsstring) :
  noUnderscore s -> In line (split s) -> noUnderscore line.
Proof.
  intros H Hl Hx. apply H. rewrite <- (join_split s).
  eapply join_In; eauto.
Qed.

Lemma noUnderscore_check (s : jsstring) :
  forallb (fun c => negb (c =? UNDERSCORE)) s = true -> noUnderscore s.
Proof.
  intros H Hin. rewrite forallb_forall in H. specialize (H _ Hin).
  rewrite Z.eqb_refl in H. discriminate.
Qed.

(** ** The quiz read back by the quiz view *)

Section ReadBack.
Variable lyrics : jsstring.
Variables sel rest : list Token.t.
Hypothesis sel_part : Permutation (sel ++ rest) (extractWords lyrics).
Hypothesis sel_sorted : StronglySorted positionOrder sel.
Hypothesis lyrics_plain : noUnderscore lyrics.

Lemma selection_line (i : nat) (line : jsstring) :
  nth_error (split lyrics) i = Some line ->
  quizLine sel line (Z.of_nat i) = weave line 0 (blanksMap sel (Z.of_nat i)) /\
  chained (strlen line) 0 (blanksMap sel (Z.of_nat i)) /\
  Forall (fun b => Token.word (token b) =
                   substring line (blankPosition b)
                     (blankPosition b + wordLength b))
         (blanksMap sel (Z.of_nat i)).
Proof.
  intros Hline.
  destruct (subselection_apart lyrics sel rest sel_part sel_sorted)
    as [Hno [Hin Hw]].
  split; [apply (quizLine_weave lyrics); assumption|].
  split; [apply (blanksMap_chained lyrics); assumption|].
  apply Forall_forall. intros b Hb.
  apply blanksMap_In in Hb as [Hn Hl].
  assert (Ht : In (token b) (extractWords lyrics)).
  { eapply Permutation_in; [exact sel_part|].
    apply in_or_app; left. eapply nth_error_In; eauto. }
  pose proof (extractWords_tokens lyrics) as Tok.
  rewrite Forall_forall in Tok.
  destruct (Tok _ Ht) as [j [line' [Hj [Hn' [_ [Hlen [_ [_ [Hsub _]]]]]]]]].
  assert (j = i) by lia. subst j. rewrite Hline in Hn'. inversion Hn'; subst.
  unfold blankPosition, wordLength. rewrite <- Hlen. symmetry. exact Hsub.
Qed.

Lemma typed_keyAnswers (i : Z) (b : Blank) :
  In b (blanksMap sel i) ->
  findBlank (answerKey sel) (Z.of_nat (blankId b)) <> None /\
  typed (keyAnswers (answerKey sel)) b = Token.word (token b).
Proof.
  intros Hb. apply blanksMap_In in Hb as [Hn _].
  pose proof (findBlank_answerKey sel _ _ Hn) as F.
  unfold typed, keyAnswers. rewrite F. split; [discriminate|reflexivity].
Qed.

Lemma renderLine_selection (i : nat) (line : jsstring) :
  nth_error (split lyrics) i = Some line ->
  exists rl,
    renderLine (answerKey sel) (keyAnswers (answerKey sel))
      (quizLine sel line (Z.of_nat i)) (Z.of_nat i) = Returned rl /\
    lineText rl = shownLine line.
Proof.
  intros Hline.
  destruct (selection_line i line Hline) as [Hq [Hch Hsub]].
  assert (Hplain : noUnderscore line).
  { eapply split_noUnderscore; [exact lyrics_plain|].
    eapply nth_error_In; eauto. }
  rewrite Hq.
  destruct (renderLine_weave (answerKey sel) (keyAnswers (answerKey sel))
              line (Z.of_nat i) (blanksMap sel (Z.of_nat i)) Hch Hplain)
    as [rl [E T]].
  { apply Forall_forall. intros b Hb. apply (typed_keyAnswers _ _ Hb). }
  exists rl. split; [exact E|]. rewrite T.
  assert (Hfill : fill (typed (keyAnswers (answerKey sel))) line 0
                    (blanksMap sel (Z.of_nat i)) = line).
  { rewrite fill_original; [apply substringFrom_zero|exact Hch|].
    rewrite Forall_forall in *. intros b Hb.
    rewrite <- (Hsub b Hb). apply (typed_keyAnswers _ _ Hb). }
  rewrite Hfill. unfold shownLine.
  destruct (weave line 0 (blanksMap sel (Z.of_nat i))) as [|c w] eqn:Ew.
  - pose proof (weave_empty line _ _ Ew) as Hbs. rewrite Hbs in Ew.
    cbn [weave] in Ew. rewrite substringFrom_zero in Ew. rewrite Ew.
    reflexivity.
  - destruct line as [|d l]; [|reflexivity].
    destruct (blanksMap sel (Z.of_nat i)) as [|b r] eqn:Eb.
    + cbn [weave] in Ew. rewrite substringFrom_zero in Ew. discriminate.
    + destruct Hch as [H1 [H2 H3]]. apply chained_bound in H3.
      unfold strlen in H3. simpl in H3. lia.
Qed.

Lemma renderLines_selection (lines : list jsstring) :
  forall k,
    (forall j line, nth_error lines j = Some line ->
                    nth_error (split lyrics) (k + j) = Some line) ->
    exists shown,
      renderLines (answerKey sel) (keyAnswers (answerKey sel))
        (quizLines sel lines (Z.of_nat k)) (Z.of_nat k) = Returned shown /\
      map lineText shown = map shownLine lines.
Proof.
  induction lines as [|line r IH]; intros k H.
  - exists []. split; reflexivity.
  - cbn [quizLines renderLines].
    destruct (renderLine_selection k line) as [rl [E T]].
    { rewrite <- (Nat.add_0_r k). apply H. reflexivity. }
    rewrite E.
    destruct (IH (S k)) as [shown [Es Ts]].
    { intros j l Hj. replace (S k + j)%nat with (k + S j)%nat by lia.
      apply H. exact Hj. }
    replace (Z.of_nat k + 1) with (Z.of_nat (S k)) by lia.
    rewrite Es. exists (rl :: shown). split; [reflexivity|].
    simpl. rewrite T, Ts. reflexivity.
Qed.

Lemma renderLyrics_selection :
  exists shown,
    renderLyrics {| Quiz.lyrics := generateQuizLyrics lyrics sel;
                    Quiz.blanks := answerKey sel |}
      (keyAnswers (answerKey sel)) = Returned shown /\
    map lineText shown = map shownLine (split lyrics).
Proof.
  unfold renderLyrics. cbn [Quiz.lyrics Quiz.blanks].
  rewrite split_generateQuizLyrics.
  apply (renderLines_selection (split lyrics) 0). auto.
Qed.

End ReadBack.

Lemma selectBlanks_position_sorted (randomOrder : list Token.t -> list Token.t)
    (T : list Token.t) (count : Z) (s : jsstring) :
  StronglySorted positionOrder (selectBlanks randomOrder T count s).
Proof.
  destruct T as [|w ws]; [constructor|].
  rewrite selectBlanks_selectedWords by discriminate.
  apply sort_byLinePosition.
Qed.

(** ** Grading *)

Lemma toLowerCaseUnit_space (c : char) :
  isWhiteSpace (toLowerCaseUnit c) = isWhiteSpace c.
Proof.
  unfold toLowerCaseUnit, isWhiteSpace. ifcases; lia.
Qed.

Lemma trimStart_map (f : char -> char) (s : jsstring) :
  (forall c, isWhiteSpace (f c) = isWhiteSpace c) ->
  trimStart (map f s) = map f (trimStart s).
Proof.
  intros Hf. induction s as [|c r IH]; simpl; auto.
  rewrite Hf. destruct (isWhiteSpace c); auto.
Qed.

Lemma trim_map (f : char -> char) (s : jsstring) :
  (forall c, isWhiteSpace (f c) = isWhiteSpace c) ->
  trim (map f s) = map f (trim s).
Proof.
  intros Hf. unfold trim, trimEnd.
  rewrite (trimStart_map f s Hf), <- map_rev, (trimStart_map f _ Hf), map_rev.
  reflexivity.
Qed.

Lemma normalizeText_lower (s : jsstring) :
  normalizeText (Some s) = map canonical (trim (toLowerCase s)).
Proof.
  rewrite normalizeText_units. unfold toLowerCase.
  rewrite (trim_map toLowerCaseUnit s toLowerCaseUnit_space), map_map.
  apply map_ext. intros c. apply canonical_replace.
Qed.







Lemma compareAnswers_same (a : option jsstring) : compareAnswers a a = true.
Proof. apply jsstring_eqb_refl. Qed.

Lemma findBlank_first (blanks : list Quiz.Item) (b : Quiz.Item) :
  NoDup (map Quiz.id blanks) -> In b blanks ->
  findBlank blanks (Quiz.id b) = Some b.
Proof.
  induction blanks as [|x r IH]; intros Hn Hb; [destruct Hb|].
  inversion Hn as [|? ? Hx Hr]; subst. cbn [findBlank].
  destruct Hb as [->|Hb]; [rewrite Z.eqb_refl; reflexivity|].
  destruct (Z.eqb_spec (Quiz.id x) (Quiz.id b)) as [E|E]; [|auto].
  exfalso. apply Hx. rewrite E. apply in_map. exact Hb.
Qed.

Lemma answerKeyFrom_ids (sel : list Token.t) :
  forall base,
    map Quiz.id (answerKeyFrom sel base) =
    map (fun k => base + Z.of_nat k) (seq 0 (length sel)).
Proof.
  induction sel as [|t r IH]; intros base; simpl; [reflexivity|].
  f_equal; [lia|]. rewrite IH, <- seq_shift, map_map.
  apply map_ext. intros k. lia.
Qed.

Lemma answerKey_NoDup (sel : list Token.t) :
  NoDup (map Quiz.id (answerKey sel)).
Proof.
  unfold answerKey. rewrite answerKeyFrom_ids.
  apply Finite.Injective_map_NoDup; [|apply seq_NoDup].
  intros a b H. lia.
Qed.

Lemma correctAnswers_key (blanks : list Quiz.Item) :
  NoDup (map Quiz.id blanks) ->
  correctAnswers blanks (keyAnswers blanks) = blanks.
Proof.
  intros Hn. unfold correctAnswers.
  rewrite forallb_filter_id; [reflexivity|].
  apply forallb_forall. intros b Hb.
  unfold keyAnswers. rewrite (findBlank_first blanks b Hn Hb). simpl.
  apply compareAnswers_same.
Qed.

Lemma wordClass_not_space (c : char) :
  inWordClass c = true -> isWhiteSpace c = false.
Proof.
  unfold inWordClass, isWordChar, isWhiteSpace, APOSTROPHE, HYPHEN. lia.
Qed.

Lemma wordClass_edgeClean (w : jsstring) :
  forallb inWordClass w = true -> edgeClean w.
Proof.
  intros H. rewrite forallb_forall in H. split.
  - destruct w as [|c r]; simpl; auto. apply wordClass_not_space, H. left; auto.
  - destruct (rev w) as [|c r] eqn:E; simpl; auto.
    apply wordClass_not_space, H, in_rev. rewrite E. left; auto.
Qed.

Lemma normalizeText_nonempty (w : jsstring) :
  w <> [] -> edgeClean w -> normalizeText (Some w) <> [].
Proof.
  intros Hw He. rewrite normalizeText_units, (trim_fixed w He).
  destruct w; [congruence|discriminate].
Qed.



Lemma curly_unit (c : char) :
  normalizeUnit (if c =? APOSTROPHE then 0x2019 else c) = normalizeUnit c.
Proof.
  unfold normalizeUnit, replaceDashes, replaceApostrophes, toLowerCaseUnit,
    APOSTROPHE, HYPHEN.
  ifcases; lia.
Qed.

Lemma curly_space (c : char) :
  isWhiteSpace (if c =? APOSTROPHE then 0x2019 else c) = isWhiteSpace c.
Proof. unfold isWhiteSpace, APOSTROPHE. ifcases; lia. Qed.

Lemma curly_lower (a : jsstring) :
  In APOSTROPHE a -> toLowerCase (curly a) <> toLowerCase a.
Proof.
  unfold toLowerCase, curly. induction a as [|c r IH]; intros H E; [destruct H|].
  simpl in E. inversion E as [[E1 E2]].
  destruct H as [->|H]; [|exact (IH H E2)].
  vm_compute in E1. discriminate.
Qed.

Lemma curly_counted (a : jsstring) :
  compareAnswers (Some (curly a)) (Some a) = true.
Proof.
  unfold compareAnswers. apply jsstring_eqb_eq.
  rewrite !normalizeText_units. unfold curly.
  rewrite trim_map by (intros c; apply curly_space).
  rewrite map_map. apply map_ext. apply curly_unit.
Qed.

(** ** File names *)

Lemma startsWith_length (p s : jsstring) :
  startsWith p s = true -> (length p <= length s)%nat.
Proof.
  revert s; induction p as [|x p IH]; intros [|y s] H; simpl in *;
    try lia; try discriminate.
  apply andb_true_iff in H as [_ H]. apply IH in H. lia.
Qed.

Lemma replaceFirst_absent (pat rep s : jsstring) :
  includesString pat s = false -> replaceFirst pat rep s = s.
Proof.
  induction s as [|c r IH]; cbn [includesString replaceFirst]; intros H;
    apply orb_false_iff in H as [H1 H2]; rewrite H1; [reflexivity|].
  rewrite IH; auto.
Qed.

Lemma replaceFirst_length (pat rep s : jsstring) :
  includesString pat s = true ->
  (length (replaceFirst pat rep s) + length pat = length s + length rep)%nat.
Proof.
  induction s as [|c r IH]; cbn [includesString replaceFirst]; intros H.
  - rewrite orb_false_r in H. rewrite H.
    pose proof (startsWith_length _ _ H).
    rewrite length_app, length_skipn. simpl in *. lia.
  - destruct (startsWith pat (c :: r)) eqn:E.
    + pose proof (startsWith_length _ _ E).
      rewrite length_app, length_skipn. lia.
    + simpl in H. simpl length. specialize (IH H). lia.
Qed.

Lemma hyphenate_no_space (s : jsstring) :
  forall inSpace, Forall (fun c => isWhiteSpace c = false) (hyphenate inSpace s).
Proof.
  induction s as [|c r IH]; intros inSpace; cbn [hyphenate]; [constructor|].
  destruct (isWhiteSpace c) eqn:E.
  - destruct inSpace; [apply IH|].
    apply Forall_cons; [reflexivity|apply IH].
  - apply Forall_cons; [exact E|apply IH].
Qed.

Lemma hyphenate_plain (s : jsstring) :
  forall inSpace,
    forallb (fun c => negb (isWhiteSpace c)) s = true ->
    hyphenate inSpace s = s.
Proof.
  induction s as [|c r IH]; intros inSpace H; cbn [hyphenate]; auto.
  simpl in H. apply andb_true_iff in H as [Hc Hr].
  apply negb_true_iff in Hc. rewrite Hc. f_equal. auto.
Qed.

Lemma hyphenate_length (s : jsstring) :
  forall inSpace, (length (hyphenate inSpace s) <= length s)%nat.
Proof.
  induction s as [|c r IH]; intros inSpace; cbn [hyphenate]; auto.
  pose proof (IH true). pose proof (IH false).
  destruct (isWhiteSpace c); [destruct inSpace|]; simpl; lia.
Qed.

Lemma selectBlanks_important (randomOrder : list Token.t -> list Token.t)
    (T : list Token.t) (count : Z) :
  T <> [] ->
  selectBlanks randomOrder T count (str "important") =
  sort byLinePosition (slice0 (sort byLength T) count).
Proof.
  intros H. rewrite selectBlanks_selectedWords by assumption. reflexivity.
Qed.

Lemma selectBlanks_frequent (randomOrder : list Token.t -> list Token.t)
    (T : list Token.t) (count : Z) :
  T <> [] ->
  forallb countedToken T = true ->
  selectBlanks randomOrder T count (str "frequent") =
  sort byLinePosition (slice0 (sort (byOccurrences T) T) count).
Proof.
  intros H C. rewrite selectBlanks_selectedWords by assumption.
  unfold selectedWords.
  change (jsstring_eqb (str "frequent") (str "important")) with false.
  change (jsstring_eqb (str "frequent") (str "frequent")) with true.
  cbv zeta iota. rewrite allCounted_counted by exact C.
  f_equal. f_equal. apply sort_ext_in. intros a b Ha Hb.
  rewrite forallb_forall in C.
  unfold byFrequency, byOccurrences.
  rewrite !frequencyAt_occurrences by auto using countedToken_name.
  reflexivity.
Qed.

Lemma ranked_blanks (cmp : Token.t -> Token.t -> Z) (T : list Token.t)
    (count : Z) :
  (forall a b, cmp a b <= 0 \/ cmp b a <= 0) ->
  (forall a b c, cmp a b <= 0 -> cmp b c <= 0 -> cmp a c <= 0) ->
  exists rest,
    Permutation (sort byLinePosition (slice0 (sort cmp T) count) ++ rest) T /\
    forall t u,
      In t (sort byLinePosition (slice0 (sort cmp T) count)) -> In u rest ->
      cmp t u <= 0.
Proof.
  intros Htot Htrans.
  destruct (ranked_selection cmp T count Htot Htrans) as [rest [P R]].
  exists rest. split.
  - eapply Permutation_trans; [|exact P].
    apply Permutation_app_tail, sort_perm.
  - intros t u Ht Hu. apply R; auto.
    eapply Permutation_in; [apply sort_perm|exact Ht].
Qed.

Lemma last_of_suffix {A : Type} (l d k : list A) (x : A) :
  l ++ [x] = d ++ k -> k <> [] -> In x k.
Proof.
  intros E Hk. destruct (exists_last Hk) as [k' [y Ek]]. subst k.
  rewrite app_assoc in E. apply app_inj_tail in E as [_ ->].
  apply in_or_app. right. left. reflexivity.
Qed.

(** * Properties beyond the specification *)

(** X1. Every token that [extractWords] returns is the text of its line at
    its position: the position and the length delimit a span inside the
    line, the span reads as the word, the word is longer than two
    characters and holds only word characters, apostrophes and hyphens. *)
Theorem extractWords_token_spans (lyrics : jsstring) :
  Forall (fun t => exists i line,
              Token.lineIndex t = Z.of_nat i /\
              nth_error (split lyrics) i = Some line /\
              tokenOfLine line t)
         (extractWords lyrics).
Proof. apply extractWords_tokens. Qed.

(** X2. The tokens of a text are pairwise distinct and, on one line, an
    earlier token ends before a later one starts. *)
Theorem extractWords_tokens_apart (lyrics : jsstring) :
  NoDup (extractWords lyrics) /\ nonOverlapping (extractWords lyrics).
Proof. split; [apply extractWords_NoDup|apply extractWords_apart]. Qed.

(** X3. [selectBlanks] only hands back tokens it was given, each at most
    as often as it was given: the selection together with some rest is a
    rearrangement of the input. *)
Theorem selectBlanks_subset (randomOrder : list Token.t -> list Token.t)
    (T : list Token.t) (count : Z) (s : jsstring) :
  (forall l, Permutation (randomOrder l) l) ->
  exists rest, Permutation (selectBlanks randomOrder T count s ++ rest) T.
Proof. apply selectBlanks_part. Qed.

Lemma selectBlanks_subset_witness :
  exists rest,
    Permutation
      (selectBlanks (@rev Token.t) (extractWords amazingGrace) 2 (str "random")
         ++ rest)
      (extractWords amazingGrace).
Proof.
  apply (selectBlanks_subset (@rev Token.t)).
  intros l. symmetry. apply Permutation_rev.
Defined.

(** X4. With a count that reaches the number of extracted tokens every
    strategy blanks every token: the selection is the token list itself. *)
Theorem selectBlanks_takes_all (randomOrder : list Token.t -> list Token.t)
    (lyrics : jsstring) (count : Z) (strategy : jsstring) :
  (forall l, Permutation (randomOrder l) l) ->
  Z.of_nat (length (extractWords lyrics)) <= count ->
  selectBlanks randomOrder (extractWords lyrics) count strategy =
  extractWords lyrics.
Proof. apply selectBlanks_everything. Qed.

Lemma selectBlanks_takes_all_witness :
  selectBlanks (@rev Token.t) (extractWords amazingGrace) 5 (str "random") =
  extractWords amazingGrace.
Proof.
  apply (selectBlanks_takes_all (@rev Token.t)).
  - intros l. symmetry. apply Permutation_rev.
  - vm_compute. discriminate.
Defined.

(** X5. The important strategy keeps the longest tokens: no token that is
    left out is longer than a token that is selected. *)
Theorem important_picks_longest (randomOrder : list Token.t -> list Token.t)
    (T : list Token.t) (count : Z) :
  exists rest,
    Permutation (selectBlanks randomOrder T count (str "important") ++ rest) T /\
    forall t u,
      In t (selectBlanks randomOrder T count (str "important")) ->
      In u rest -> Token.length u <= Token.length t.
Proof.
  destruct T as [|w ws].
  - exists []. split; [reflexivity|]. intros t u [].
  - rewrite selectBlanks_important by discriminate.
    destruct (ranked_blanks byLength (w :: ws) count) as [rest [P R]].
    + unfold byLength. intros. lia.
    + unfold byLength. intros. lia.
    + exists rest. split; [exact P|].
      intros t u Ht Hu. specialize (R t u Ht Hu). unfold byLength in R. lia.
Qed.

(** X6. On tokens as the tokenizer makes them, of which none is the word
    [constructor] or [__proto__] in any letter case, the frequent strategy
    keeps the tokens whose lower-cased word occurs most often among all
    tokens: no token that is left out has a word more frequent than the
    word of a selected token. *)
Theorem frequent_picks_most_frequent
    (randomOrder : list Token.t -> list Token.t) (T : list Token.t)
    (count : Z) :
  forallb countedToken T = true ->
  exists rest,
    Permutation (selectBlanks randomOrder T count (str "frequent") ++ rest) T /\
    forall t u,
      In t (selectBlanks randomOrder T count (str "frequent")) ->
      In u rest ->
      occurrences T (toLowerCase (Token.word u)) <=
      occurrences T (toLowerCase (Token.word t)).
Proof.
  intros C. destruct T as [|w ws].
  - exists []. split; [reflexivity|]. intros t u [].
  - rewrite selectBlanks_frequent by (discriminate || exact C).
    destruct (ranked_blanks (byOccurrences (w :: ws)) (w :: ws) count)
      as [rest [P R]].
    + unfold byOccurrences. intros. lia.
    + unfold byOccurrences. intros. lia.
    + exists rest. split; [exact P|].
      intros t u Ht Hu. specialize (R t u Ht Hu). unfold byOccurrences in R.
      lia.
Qed.

Lemma frequent_picks_most_frequent_witness :
  forallb countedToken (extractWords loveSong) = true /\
  exists rest,
    Permutation
      (selectBlanks (@rev Token.t) (extractWords loveSong) 2 (str "frequent")
         ++ rest)
      (extractWords loveSong) /\
    forall t u,
      In t (selectBlanks (@rev Token.t) (extractWords loveSong) 2
              (str "frequent")) ->
      In u rest ->
      occurrences (extractWords loveSong) (toLowerCase (Token.word u)) <=
      occurrences (extractWords loveSong) (toLowerCase (Token.word t)).
Proof.
  split; [reflexivity|].
  apply (frequent_picks_most_frequent (@rev Token.t)). reflexivity.
Defined.

(** X8. The ranking by length is stable: the tokens of any one length
    stand in the ranking in the order they had in the text. *)
Theorem important_ranking_stable (T : list Token.t) (n : Z) :
  filter (fun t => Token.length t =? n) (sort byLength T) =
  filter (fun t => Token.length t =? n) T.
Proof.
  apply sort_filter. intros a b Ha Hb. unfold byLength. lia.
Qed.

(** X9. Extraction, selection and encoding together: each line of the quiz
    text is the line of the lyrics with the span of every selected token
    of that line replaced by its placeholder, and the text that stood in
    each span is the word of the token. *)
Theorem pipeline_replaces_in_place
    (randomOrder : list Token.t -> list Token.t) (lyrics : jsstring)
    (count : Z) (s : jsstring) (i : nat) (line : jsstring) :
  (forall l, Permutation (randomOrder l) l) ->
  nth_error (split lyrics) i = Some line ->
  nth_error
    (split (generateQuizLyrics lyrics
              (selectBlanks randomOrder (extractWords lyrics) count s))) i =
    Some (weave line 0
            (blanksMap (selectBlanks randomOrder (extractWords lyrics) count s)
               (Z.of_nat i))) /\
  Forall (fun b => substring line (blankPosition b)
                     (blankPosition b + wordLength b) = Token.word (token b))
         (blanksMap (selectBlanks randomOrder (extractWords lyrics) count s)
            (Z.of_nat i)).
Proof.
  intros Hp Hline.
  destruct (selectBlanks_part randomOrder (extractWords lyrics) count s Hp)
    as [rest P].
  destruct (selection_line lyrics _ rest P
              (selectBlanks_position_sorted _ _ _ _) i line Hline)
    as [Hq [_ Hw]].
  split.
  - rewrite split_generateQuizLyrics, quizLines_nth, Hline. simpl.
    rewrite Hq. reflexivity.
  - eapply Forall_impl; [|exact Hw]. simpl. intros b H. symmetry. exact H.
Qed.

Lemma pipeline_replaces_in_place_witness :
  nth_error
    (split (generateQuizLyrics amazingGrace
              (selectBlanks (@rev Token.t) (extractWords amazingGrace) 2
                 (str "frequent")))) 0 =
    Some (weave (str "Amazing grace how sweet the sound") 0
            (blanksMap
               (selectBlanks (@rev Token.t) (extractWords amazingGrace) 2
                  (str "frequent"))
               (Z.of_nat 0))) /\
  Forall (fun b => substring (str "Amazing grace how sweet the sound")
                     (blankPosition b) (blankPosition b + wordLength b) =
                   Token.word (token b))
         (blanksMap
            (selectBlanks (@rev Token.t) (extractWords amazingGrace) 2
               (str "frequent"))
            (Z.of_nat 0)).
Proof.
  apply (pipeline_replaces_in_place (@rev Token.t) amazingGrace 2
           (str "frequent") 0 (str "Amazing grace how sweet the sound")).
  - intros l. symmetry. apply Permutation_rev.
  - reflexivity.
Defined.

(** X10. A quiz built from lyrics without underscores, shown by the quiz
    view with every answer of the key typed in, does not raise and reads,
    line by line, as the lyrics (an empty line as a no-break space). *)
Theorem quiz_read_back (randomOrder : list Token.t -> list Token.t)
    (lyrics : jsstring) (blankCount : Z) (strategy : jsstring) :
  (forall l, Permutation (randomOrder l) l) ->
  noUnderscore lyrics ->
  exists shown,
    renderLyrics (buildQuiz randomOrder lyrics blankCount strategy)
      (keyAnswers
         (Quiz.blanks (buildQuiz randomOrder lyrics blankCount strategy))) =
      Returned shown /\
    map lineText shown = map shownLine (split lyrics).
Proof.
  intros Hp Hplain. unfold buildQuiz. cbn [Quiz.blanks].
  destruct (selectBlanks_part randomOrder (extractWords lyrics)
              (Z.min blankCount (Z.of_nat (length (extractWords lyrics))))
              strategy Hp) as [rest P].
  exact (renderLyrics_selection lyrics _ rest P
           (selectBlanks_position_sorted _ _ _ _) Hplain).
Qed.

Lemma quiz_read_back_witness :
  exists shown,
    renderLyrics (buildQuiz (@rev Token.t) amazingGrace 2 (str "important"))
      (keyAnswers
         (Quiz.blanks
            (buildQuiz (@rev Token.t) amazingGrace 2 (str "important")))) =
      Returned shown /\
    map lineText shown = map shownLine (split amazingGrace).
Proof.
  apply (quiz_read_back (@rev Token.t) amazingGrace 2 (str "important")).
  - intros l. symmetry. apply Permutation_rev.
  - apply noUnderscore_check. reflexivity.
Defined.

(** X11. A line whose first placeholder, after text without an
    underscore, carries a number below 2^53 that is the id of no blank
    makes the quiz view raise, whatever follows the placeholder. *)
Theorem renderLine_raises_on_unknown_id (blanks : list Quiz.Item)
    (answers : Answers) (before after : jsstring) (n : nat) (lineIndex : Z) :
  noUnderscore before ->
  Z.of_nat n < 2 ^ 53 ->
  findBlank blanks (Z.of_nat n) = None ->
  renderLine blanks answers (before ++ placeholder n ++ after) lineIndex =
  Raised TypeError.
Proof.
  intros Hb _ Hf. unfold renderLine, execAll.
  rewrite execFrom_text by exact Hb. rewrite execFrom_placeholder.
  cbn [renderMatches capture]. rewrite parseInt_decimal, Hf. reflexivity.
Qed.

Lemma renderLine_raises_on_unknown_id_witness :
  renderLine [Quiz.Build_Item 0 (str "grace") 0 8] (fun _ => None)
    (str "Amazing " ++ placeholder 1 ++ str " how sweet") 0 =
  Raised TypeError.
Proof.
  apply (renderLine_raises_on_unknown_id
           [Quiz.Build_Item 0 (str "grace") 0 8] (fun _ => None)
           (str "Amazing ") (str " how sweet") 1 0).
  - apply noUnderscore_check. reflexivity.
  - reflexivity.
  - reflexivity.
Defined.

(** X12. Typing the answers of the key gives full marks: every blank of a
    built quiz is counted as correct. *)
Theorem full_marks_for_key_answers
    (randomOrder : list Token.t -> list Token.t) (lyrics : jsstring)
    (blankCount : Z) (strategy : jsstring) :
  correctAnswers
    (Quiz.blanks (buildQuiz randomOrder lyrics blankCount strategy))
    (keyAnswers (Quiz.blanks (buildQuiz randomOrder lyrics blankCount strategy)))
  = Quiz.blanks (buildQuiz randomOrder lyrics blankCount strategy).
Proof.
  unfold buildQuiz. cbn [Quiz.blanks].
  apply correctAnswers_key, answerKey_NoDup.
Qed.

Lemma answerKeyFrom_In (sel : list Token.t) :
  forall base item,
    In item (answerKeyFrom sel base) ->
    exists t, In t sel /\ Quiz.answer item = Token.word t.
Proof.
  induction sel as [|s r IH]; intros base item H; [destruct H|].
  destruct H as [<-|H].
  - exists s. split; [left; reflexivity|reflexivity].
  - destruct (IH _ _ H) as [t [Ht E]]. exists t. split; [right|]; auto.
Qed.

Lemma filter_none {A : Type} (f : A -> bool) (l : list A) :
  (forall x, In x l -> f x = false) -> filter f l = [].
Proof.
  induction l as [|x l IH]; intros H; [reflexivity|].
  simpl. rewrite (H x (or_introl eq_refl)).
  apply IH. intros y Hy. apply H. right. exact Hy.
Qed.

(** X13. Submitting nothing scores nothing: with no answer typed, no blank
    of a built quiz is counted as correct. *)
Theorem empty_submission_scores_zero
    (randomOrder : list Token.t -> list Token.t) (lyrics : jsstring)
    (blankCount : Z) (strategy : jsstring) :
  (forall l, Permutation (randomOrder l) l) ->
  correctAnswers
    (Quiz.blanks (buildQuiz randomOrder lyrics blankCount strategy))
    (fun _ => None) = [].
Proof.
  intros Hp. unfold buildQuiz. cbn [Quiz.blanks].
  destruct (selectBlanks_part randomOrder (extractWords lyrics)
              (Z.min blankCount (Z.of_nat (length (extractWords lyrics))))
              strategy Hp) as [rest P].
  unfold correctAnswers. apply filter_none.
  intros item Hitem. cbv beta zeta. cbn [orEmpty].
  apply answerKeyFrom_In in Hitem as [t [Ht E]].
  assert (Hin : In t (extractWords lyrics)).
  { eapply Permutation_in; [exact P|]. apply in_or_app; left; exact Ht. }
  pose proof (extractWords_tokens lyrics) as Tok.
  rewrite Forall_forall in Tok.
  destruct (Tok t Hin) as [i [line [_ [_ [_ [Hl [H2 [_ [_ Hc]]]]]]]]].
  unfold compareAnswers.
  destruct (jsstring_eqb (normalizeText (Some []))
              (normalizeText (Some (Quiz.answer item)))) eqn:Eq; [|exact Eq].
  apply jsstring_eqb_eq in Eq. exfalso.
  apply (normalizeText_nonempty (Quiz.answer item)).
  - rewrite E. intros Hw. rewrite Hw in Hl. unfold strlen in Hl. simpl in Hl. lia.
  - rewrite E. apply wordClass_edgeClean. exact Hc.
  - symmetry. exact Eq.
Qed.

Lemma empty_submission_scores_zero_witness :
  correctAnswers
    (Quiz.blanks (buildQuiz (@rev Token.t) amazingGrace 2 (str "random")))
    (fun _ => None) = [].
Proof.
  apply (empty_submission_scores_zero (@rev Token.t)).
  intros l. symmetry. apply Permutation_rev.
Defined.





(** X16. They do not agree the other way: for a stored answer with an
    apostrophe, the same word typed with the curly apostrophe U+2019 is
    counted as correct by the score and shown as wrong by the results
    view. *)
Theorem counted_right_may_show_wrong (b : Quiz.Item) :
  forallb inWordClass (Quiz.answer b) = true ->
  In APOSTROPHE (Quiz.answer b) ->
  correctAnswers [b] (onlyAnswer (Quiz.id b) (curly (Quiz.answer b))) = [b] /\
  isCorrect (onlyAnswer (Quiz.id b) (curly (Quiz.answer b))) b = false.
Proof.
  intros Hc Ha. split.
  - unfold correctAnswers, onlyAnswer. cbn [filter].
    rewrite Z.eqb_refl. cbn [orEmpty]. rewrite curly_counted. reflexivity.
  - unfold isCorrect, shownAnswer, onlyAnswer. rewrite Z.eqb_refl.
    assert (Ht : trim (curly (Quiz.answer b)) = curly (Quiz.answer b)).
    { unfold curly. rewrite trim_map by (intros c; apply curly_space).
      rewrite (trim_fixed _ (wordClass_edgeClean _ Hc)). reflexivity. }
    rewrite Ht.
    destruct (curly (Quiz.answer b)) as [|c t] eqn:E.
    + unfold curly in E. apply map_eq_nil in E. rewrite E in Ha. destruct Ha.
    + rewrite <- E.
      destruct (jsstring_eqb (toLowerCase (curly (Quiz.answer b)))
                  (toLowerCase (Quiz.answer b))) eqn:Eq; [|reflexivity].
      apply jsstring_eqb_eq in Eq. exfalso.
      exact (curly_lower _ Ha Eq).
Qed.

Lemma counted_right_may_show_wrong_witness :
  correctAnswers [Quiz.Build_Item 3 (str "don't") 0 0]
    (onlyAnswer 3 (curly (str "don't"))) =
    [Quiz.Build_Item 3 (str "don't") 0 0] /\
  isCorrect (onlyAnswer 3 (curly (str "don't")))
    (Quiz.Build_Item 3 (str "don't") 0 0) = false.
Proof.
  apply (counted_right_may_show_wrong (Quiz.Build_Item 3 (str "don't") 0 0)).
  - reflexivity.
  - vm_compute. tauto.
Defined.

(** X17. The default output path of generate-quiz.js is the input path
    itself exactly when the input path holds neither "/lyrics/" nor
    ".json": the quiz is then written over the file it was read from. *)
Theorem defaultOutputFile_same_iff (inputFile : jsstring) :
  defaultOutputFile inputFile = inputFile <->
  includesString (str "/lyrics/") inputFile = false /\
  includesString (str ".json") inputFile = false.
Proof.
  unfold defaultOutputFile. split.
  - intros H.
    destruct (includesString (str "/lyrics/") inputFile) eqn:E1.
    + exfalso. apply (f_equal (@length _)) in H.
      pose proof (replaceFirst_length (str "/lyrics/") (str "/quizzes/")
                    inputFile E1) as L1.
      change (length (str "/lyrics/")) with 8%nat in L1.
      change (length (str "/quizzes/")) with 9%nat in L1.
      set (mid := replaceFirst (str "/lyrics/") (str "/quizzes/") inputFile) in *.
      destruct (includesString (str ".json") mid) eqn:E2.
      * pose proof (replaceFirst_length (str ".json") (str "-quiz.json") mid E2)
          as L2.
        change (length (str ".json")) with 5%nat in L2.
        change (length (str "-quiz.json")) with 10%nat in L2.
        lia.
      * rewrite (replaceFirst_absent _ _ _ E2) in H. lia.
    + split; [reflexivity|].
      destruct (includesString (str ".json") inputFile) eqn:E2; [|reflexivity].
      exfalso. apply (f_equal (@length _)) in H.
      pose proof (replaceFirst_length (str ".json") (str "-quiz.json")
                    inputFile E2) as L2.
      change (length (str ".json")) with 5%nat in L2.
      change (length (str "-quiz.json")) with 10%nat in L2.
      lia.
  - intros [E1 E2]. rewrite E1. apply replaceFirst_absent. exact E2.
Qed.

(** X18. The file name made from a song title holds no white space, is
    not longer than the lower-cased title, and is the lower-cased title
    when that has no white space; [lower] is the builtin [toLowerCase],
    of which nothing is used. *)
Theorem lyricsFileName_no_space (lower : jsstring -> jsstring)
    (songTitle : jsstring) :
  Forall (fun c => isWhiteSpace c = false) (lyricsFileName lower songTitle) /\
  (length (lyricsFileName lower songTitle) <= length (lower songTitle))%nat /\
  (forallb (fun c => negb (isWhiteSpace c)) (lower songTitle) = true ->
   lyricsFileName lower songTitle = lower songTitle).
Proof.
  unfold lyricsFileName. split; [apply hyphenate_no_space|]. split.
  - apply hyphenate_length.
  - apply hyphenate_plain.
Qed.

Section ScoreStorageProperties.
Import ScoreStorage.

Lemma getQuizScores_saved (st : Stored) (id : Z) (kept : list ScoreEntry) :
  getQuizScores (Saved (stringify (setScores (getAllScores st) id kept))) id =
  map stringifyEntry kept.
Proof.
  unfold getQuizScores. cbn [getAllScores].
  rewrite scoresAt_stringify, scoresAt_setScores_same. reflexivity.
Qed.



(** X20. Whatever calls of [saveScore] are made on an empty storage, every
    stored quiz has between one and ten scores; so the statistics count at
    least one and at most ten attempts per completed quiz, and no more
    perfect scores than attempts. *)
Theorem saved_scores_stay_bounded (calls : list SaveCall) :
  wellKept (getAllScores (replay Absent calls)) /\
  totalQuizzesCompleted (getStats (replay Absent calls)) <=
    totalAttempts (getStats (replay Absent calls)) /\
  totalAttempts (getStats (replay Absent calls)) <=
    10 * totalQuizzesCompleted (getStats (replay Absent calls)) /\
  0 <= perfectScores (getStats (replay Absent calls)) <=
    totalAttempts (getStats (replay Absent calls)).
Proof.
  assert (W : wellKept (getAllScores (replay Absent calls))).
  { apply replay_wellKept. split; constructor. }
  split; [exact W|].
  destruct W as [F _]. apply allEntries_bounds in F.
  unfold getStats.
  pose proof (filter_length_le
                (fun s => numEq (percentage (scoreData s)) (Number 100))
                (allEntries (getAllScores (replay Absent calls)))) as P.
  destruct (getAllScores (replay Absent calls)) as [|kv m] eqn:E;
    cbn [totalQuizzesCompleted totalAttempts perfectScores]; lia.
Qed.

(** X21. [getBestScore] gives nothing exactly when the quiz has no score;
    otherwise it gives one of the stored scores of the quiz, and when all
    their percentages are numbers none of them has a higher percentage. *)
Theorem getBestScore_maximal (st : Stored) (id : Z) :
  match getBestScore st id with
  | None => getQuizScores st id = []
  | Some best =>
      In best (getQuizScores st id) /\
      (Forall hasPercentage (getQuizScores st id) ->
       Forall (fun e => percentageOf e <= percentageOf best)
              (getQuizScores st id))
  end.
Proof.
  unfold getBestScore.
  destruct (getQuizScores st id) as [|first rest]; [reflexivity|].
  split; [apply fold_better_member|apply fold_better_max].
Qed.

(** X22. For scores as the application saves them, without word accuracy,
    [getBestScore] gives the earliest of the scores with the highest
    percentage: every score before it has a lower percentage and none
    after it has a higher one. *)
Theorem getBestScore_first_of_equals (st : Stored) (id : Z) :
  getQuizScores st id <> [] ->
  Forall plainScore (getQuizScores st id) ->
  exists best pre post,
    getBestScore st id = Some best /\
    getQuizScores st id = pre ++ best :: post /\
    Forall (fun e => percentageOf e < percentageOf best) pre /\
    Forall (fun e => percentageOf e <= percentageOf best) post.
Proof.
  intros Hne Hplain. unfold getBestScore.
  destruct (getQuizScores st id) as [|first rest]; [congruence|].
  destruct (fold_better_first rest first [] [] Hplain) as [pre [post [E P]]];
    [constructor|constructor|].
  exists (fold_left better rest first), pre, post.
  split; [reflexivity|]. split; [exact E|]. split; [exact P|].
  assert (M : Forall (fun e => percentageOf e <=
                               percentageOf (fold_left better rest first))
                (first :: rest)).
  { apply fold_better_max. eapply Forall_impl; [|exact Hplain].
    intros e [H _]. exact H. }
  cbn [app] in E. rewrite E in M.
  apply Forall_app in M as [_ M]. inversion M; assumption.
Qed.

Lemma getBestScore_first_of_equals_witness :
  exists best pre post,
    getBestScore
      (Saved [(7, [ Build_ScoreEntry (Build_ScoreData 1 2 (Number 50) Undefined [])
                      7 [] [] [] [];
                    Build_ScoreEntry (Build_ScoreData 2 2 (Number 100) Undefined [])
                      7 [] [] (str "a") [];
                    Build_ScoreEntry (Build_ScoreData 2 2 (Number 100) Undefined [])
                      7 [] [] (str "b") [] ])]) 7 = Some best /\
    getQuizScores
      (Saved [(7, [ Build_ScoreEntry (Build_ScoreData 1 2 (Number 50) Undefined [])
                      7 [] [] [] [];
                    Build_ScoreEntry (Build_ScoreData 2 2 (Number 100) Undefined [])
                      7 [] [] (str "a") [];
                    Build_ScoreEntry (Build_ScoreData 2 2 (Number 100) Undefined [])
                      7 [] [] (str "b") [] ])]) 7 = pre ++ best :: post /\
    Forall (fun e => percentageOf e < percentageOf best) pre /\
    Forall (fun e => percentageOf e <= percentageOf best) post.
Proof.
  apply getBestScore_first_of_equals.
  - discriminate.
  - repeat apply Forall_cons; try apply Forall_nil;
      (split; [eexists; reflexivity|reflexivity]).
Defined.

(** X23. A score that has just been saved is taken into account: when the
    scores of the quiz and the new score have numbers as percentages, the
    best score after [saveScore] has at least the percentage of the new
    score. *)
Theorem saveScore_then_best (st : Stored) (id : Z)
    (title artistName : jsstring) (data : ScoreData) (now today : jsstring)
    (p : Z) :
  Forall hasPercentage (getQuizScores st id) ->
  percentage data = Number p ->
  exists best,
    getBestScore
      (snd (saveScore st true id title artistName data now today)) id =
      Some best /\
    p <= percentageOf best.
Proof.
  intros Hold Hp. rewrite saveScore_stored. cbn [snd].
  set (entry := {| scoreData := data; quizId := id; quizTitle := title;
                   artist := artistName; timestamp := now; date := today |}).
  destruct (keptScores_suffix st id entry) as [dropped [E [L D]]].
  unfold getBestScore. rewrite getQuizScores_saved.
  assert (Hin : In entry (keptScores st id entry)).
  { eapply last_of_suffix; [exact E|].
    destruct (keptScores st id entry); [simpl in L; lia|discriminate]. }
  assert (Hall : Forall hasPercentage (map stringifyEntry (keptScores st id entry))).
  { apply Forall_map. apply Forall_forall. intros e He.
    assert (He' : In e (getQuizScores st id ++ [entry])).
    { rewrite E. apply in_or_app. right. exact He. }
    assert (Hh : hasPercentage e).
    { apply in_app_or in He' as [He'|[<-|[]]].
      - rewrite Forall_forall in Hold. exact (Hold e He').
      - exists p. exact Hp. }
    destruct Hh as [z Hz]. exists z. cbn. rewrite Hz. reflexivity. }
  destruct (map stringifyEntry (keptScores st id entry)) as [|first rest] eqn:Em.
  { apply map_eq_nil in Em. rewrite Em in Hin. destruct Hin. }
  eexists. split; [reflexivity|].
  pose proof (fold_better_max rest first Hall) as M.
  rewrite Forall_forall in M.
  assert (Hs : In (stringifyEntry entry) (first :: rest)).
  { rewrite <- Em. apply in_map. exact Hin. }
  specialize (M _ Hs). unfold percentageOf in M at 1.
  cbn in M. rewrite Hp in M. cbn in M. exact M.
Qed.

Lemma saveScore_then_best_witness :
  exists best,
    getBestScore
      (snd (saveScore Absent true 7 (str "t") (str "a")
              (Build_ScoreData 3 4 (Number 75) Undefined []) (str "n") (str "d")))
      7 = Some best /\
    75 <= percentageOf best.
Proof.
  apply (saveScore_then_best Absent 7 (str "t") (str "a")
           (Build_ScoreData 3 4 (Number 75) Undefined []) (str "n") (str "d") 75).
  - apply Forall_nil.
  - reflexivity.
Defined.

(** X24. When there is at least one stored score and every stored
    percentage is a number between 0 and 100, the average score of the
    statistics is a number between 0 and 100. *)
Theorem getStats_average_in_range (st : Stored) :
  allEntries (getAllScores st) <> [] ->
  Forall (fun e => hasPercentage e /\ 0 <= percentageOf e <= 100)
         (allEntries (getAllScores st)) ->
  exists a, averageScore (getStats st) = Number a /\ 0 <= a <= 100.
Proof.
  intros Hne Hall. unfold getStats.
  destruct (getAllScores st) as [|kv m] eqn:E; [exfalso; apply Hne; reflexivity|].
  cbn [averageScore].
  destruct (sum_percentages _ 0 Hall) as [s [Es Bs]].
  rewrite Es. unfold roundedQuotient.
  set (n := Z.of_nat (length (allEntries (kv :: m)))) in *.
  assert (Hn : 0 < n).
  { unfold n. destruct (allEntries (kv :: m)); [congruence|simpl; lia]. }
  destruct (Z.eqb_spec n 0); [lia|].
  eexists. split; [reflexivity|]. apply rounded_in_range; lia.
Qed.

Lemma getStats_average_in_range_witness :
  exists a,
    averageScore
      (getStats
         (Saved [(7, [ Build_ScoreEntry
                         (Build_ScoreData 1 2 (Number 50) Undefined [])
                         7 [] [] [] [] ])])) = Number a /\
    0 <= a <= 100.
Proof.
  apply getStats_average_in_range.
  - discriminate.
  - apply Forall_cons; [|apply Forall_nil].
    split; [eexists; reflexivity|vm_compute; split; discriminate].
Defined.

End ScoreStorageProperties.
